(** * Sokoban solver: a shallow embedding of [src/lib.ts] and its properties

    The development follows the source file top-down: the JavaScript
    primitives the solver relies on ([String.prototype.split],
    [Array.prototype.join], [parseInt], template literals on integers,
    [Array.prototype.sort]), the data model ([Point], [SokobanMap],
    [SokobanState]), the parser [parseSokoban], and the functions nested in
    [solve] ([serialize], [deserialize], [isInvalid], [nextState],
    [isComplete] and the breadth-first loop, with its two optional
    callbacks [onStep] and [onDistance]).

    The second implementation of the library, whose text follows the
    separator line of [src/main.ts], is embedded beside the first
    ([serializePoint], [deserializePoint], [serializeState],
    [deserializeState], its [isInvalid], [nextState] and [solve]), and so
    are the two command-line programs ([main] of [src/main.ts] and of
    [unnamed/part_000]), as functions from the text read on standard input
    to the lines printed and the exit code.

    Numbers are modelled as integers ([Z]); strings as [string] whose
    characters are 8-bit code units; [Set<string>] as [gset string];
    [Map<string,string>] as [gmap string string]; arrays as lists. A
    callback is a function on a world of its own: it sees the values the
    loop passes to it and cannot change them. Loops that the source runs
    until a queue empties take a fuel argument; the theorems that state a
    result give the fuel that suffices. *)

From stdpp Require Import base gmap sets list strings pretty sorting list_numbers.
From Stdlib Require Import ZArith Lia Ascii.

(** * The program *)

(** ** JavaScript primitives *)

Module JS.

(** [`${x}`] for an integer [x]: decimal digits, with a leading minus sign
    for negative values. (A number of magnitude [1e21] or more prints in
    exponent notation; no coordinate of a grid held in memory is that
    large.) *)
Definition numToString (x : Z) : string := pretty x.

(** [s.split(sep)] for a one-character separator: never the empty list. *)
Fixpoint split (sep : ascii) (s : string) : list string :=
  match s with
  | EmptyString => [EmptyString]
  | String a s' =>
      if decide (a = sep) then EmptyString :: split sep s'
      else match split sep s' with
           | h :: t => String a h :: t
           | [] => [String a EmptyString]
           end
  end.

(** [l.join(sep)] *)
Fixpoint join (sep : string) (l : list string) : string :=
  match l with
  | [] => EmptyString
  | [x] => x
  | x :: l' => x +:+ sep +:+ join sep l'
  end.

(** White space as stripped by [trim] and skipped by [parseInt], among the
    8-bit code units: TAB, LF, VT, FF, CR, SPACE and NBSP. *)
Definition isWhite (c : ascii) : bool :=
  bool_decide (nat_of_ascii c ∈ [9; 10; 11; 12; 13; 32; 160]%nat).

Fixpoint trimStart (s : string) : string :=
  match s with
  | String c s' => if isWhite c then trimStart s' else s
  | EmptyString => EmptyString
  end.

Definition trimEnd (s : string) : string :=
  String.rev (trimStart (String.rev s)).

(** [s.trim()] *)
Definition trim (s : string) : string := trimEnd (trimStart s).

(** Value of a character as a digit in the given radix. *)
Definition digitVal (radix : Z) (c : ascii) : option Z :=
  let n := Z.of_nat (nat_of_ascii c) in
  let v :=
    if bool_decide (48 ≤ n ≤ 57)%Z then Some (n - 48)%Z
    else if bool_decide (97 ≤ n ≤ 122)%Z then Some (n - 87)%Z
    else if bool_decide (65 ≤ n ≤ 90)%Z then Some (n - 55)%Z
    else None in
  v ≫= λ d, if bool_decide (d < radix)%Z then Some d else None.

(** The longest prefix of digits, accumulated left to right; [acc] is
    [None] as long as no digit was read. *)
Fixpoint parseDigits (radix : Z) (acc : option Z) (s : string) : option Z :=
  match s with
  | String c s' =>
      match digitVal radix c with
      | Some d => parseDigits radix (Some (radix * default 0%Z acc + d)%Z) s'
      | None => acc
      end
  | EmptyString => acc
  end.

(** The digits of [parseInt(s)] once the sign is read: the prefix [0x] or
    [0X] selects radix 16, otherwise the radix is 10. *)
Definition parseUnsigned (s : string) : option Z :=
  match s with
  | String c (String c' s') =>
      if decide (c = "0"%char ∧ (c' = "x"%char ∨ c' = "X"%char))
      then parseDigits 16 None s' else parseDigits 10 None s
  | _ => parseDigits 10 None s
  end.

(** [parseInt(s)] without a radix argument: leading white space, a sign,
    then the digits. [None] stands for [NaN]. *)
Definition parseInt (s : string) : option Z :=
  match trimStart s with
  | String c s' =>
      if decide (c = "-"%char) then Z.opp <$> parseUnsigned s'
      else if decide (c = "+"%char) then parseUnsigned s'
      else parseUnsigned (String c s')
  | EmptyString => None
  end.

End JS.

(** ** Data model *)

Definition Point : Type := Z * Z.

Record SokobanMap := {
  width : Z;
  height : Z;
  wallSet : gset string;
  goalSet : gset string;
}.

Record SokobanState := {
  player : Point;
  boxes : list Point;
  boxSet : gset string;
}.

(** The template literal [`${x},${y}`] that keys the three sets. *)
Definition key (p : Point) : string :=
  JS.numToString p.1 +:+ "," +:+ JS.numToString p.2.

(** [set.has(k)] *)
Definition has (s : gset string) (k : string) : bool := bool_decide (k ∈ s).

(** The comparator [([ax, ay], [bx, by]) => ay - by || ax - bx]. *)
Definition cmp (a b : Point) : Z :=
  if decide (a.2 - b.2 ≠ 0)%Z then (a.2 - b.2)%Z else (a.1 - b.1)%Z.

(** [cmp(a, b) <= 0]: [a] may stay before [b]. *)
Definition pointLe (a b : Point) : Prop := (cmp a b ≤ 0)%Z.

Global Instance pointLe_dec : RelDecision pointLe.
Proof. intros a b. unfold pointLe. apply _. Defined.

(** [l.sort(cmp)]: the comparator is a total order on points and returns 0
    only on identical points, so every correct sort yields the same array;
    stdpp's merge sort stands for the engine's. *)
Definition sortPoints (l : list Point) : list Point := merge_sort pointLe l.

(** ** The parser *)

Module Parser.

Definition LF : ascii := "010"%char.
Definition CR : ascii := "013"%char.

(** [input.split(/\r*\n/)]: the separator is a line feed together with
    the run of carriage returns right before it. *)
Fixpoint splitLines (s : string) : list string :=
  match s with
  | EmptyString => [EmptyString]
  | String c s' =>
      if decide (c = LF) then EmptyString :: splitLines s'
      else match splitLines s' with
           | h :: t =>
               if decide (c = CR ∧ h = EmptyString ∧ t ≠ []) then EmptyString :: t
               else String c h :: t
           | [] => [String c EmptyString]
           end
  end.

(** [input.split(...).map((line) => line.trim()).filter((line) => line)] *)
Definition rowsOf (input : string) : list string :=
  filter (λ line, line ≠ EmptyString) (JS.trim <$> splitLines input).

(** The four variables the scanning loops fill: [walls], [goals], [player]
    (here [found], [None] while [undefined]) and [boxes] (here [crates]). *)
Record scan := {
  walls : list Point;
  goals : list Point;
  found : option Point;
  crates : list Point;
}.

Definition pt (x y : nat) : Point := (Z.of_nat x, Z.of_nat y).

(** The two [switch] statements on [rows[y][x]]; [None] is [return null]. *)
Definition scanCell (rows : list string) (y x : nat) (st : scan)
    : option scan :=
  let c := rows !! y ≫= String.get x in
  st ← (match c with
        | Some "."%char | Some "b"%char | Some "w"%char => Some st
        | Some "#"%char =>
            Some {| walls := walls st ++ [pt x y]; goals := goals st;
                    found := found st; crates := crates st |}
        | Some "+"%char | Some "B"%char | Some "W"%char =>
            Some {| walls := walls st; goals := goals st ++ [pt x y];
                    found := found st; crates := crates st |}
        | _ => None
        end);
  match c with
  | Some "."%char | Some "+"%char | Some "#"%char => Some st
  | Some "w"%char | Some "W"%char =>
      Some {| walls := walls st; goals := goals st;
              found := Some (pt x y); crates := crates st |}
  | Some "b"%char | Some "B"%char =>
      Some {| walls := walls st; goals := goals st;
              found := found st; crates := crates st ++ [pt x y] |}
  | _ => None
  end.

(** [for (let i = 0; i < n; i++) body], where the body may [return null]. *)
Fixpoint forEach {A} (body : nat → A → option A) (l : list nat) (a : A)
    : option A :=
  match l with
  | [] => Some a
  | i :: l' => a' ← body i a; forEach body l' a'
  end.

Definition scanRows (rows : list string) (width height : nat) : option scan :=
  forEach (λ y, forEach (λ x, scanCell rows y x) (seq 0 width))
    (seq 0 height)
    {| walls := []; goals := []; found := None; crates := [] |}.

(** [reachable[y][x]], [undefined] out of range. *)
Definition cell (reachable : list (list bool)) (x y : nat) : option bool :=
  reachable !! y ≫= (.!! x).

(** [!reachable[y][x]] *)
Definition unmarked (reachable : list (list bool)) (x y : nat) : bool :=
  negb (default false (cell reachable x y)).

(** [reachable[y][x] = true]; the source only writes inside the array. *)
Definition mark (reachable : list (list bool)) (x y : nat)
    : list (list bool) :=
  alter (λ row, <[x := true]> row) y reachable.

(** The recursive [floodFill]; [None] when the fuel, a bound on the depth
    of the recursion, is used up. *)
Fixpoint floodFill (fuel : nat) (wallSet : gset string) (width height : nat)
    (x y : nat) (reachable : list (list bool)) : option (list (list bool)) :=
  match fuel with
  | O => None
  | S fuel =>
      if has wallSet (key (pt x y)) then Some reachable
      else
        let r := mark reachable x y in
        r ← (if bool_decide (0 < x) && unmarked r (x - 1) y
             then floodFill fuel wallSet width height (x - 1) y r else Some r);
        r ← (if bool_decide (x < width - 1) && unmarked r (x + 1) y
             then floodFill fuel wallSet width height (x + 1) y r else Some r);
        r ← (if bool_decide (0 < y) && unmarked r x (y - 1)
             then floodFill fuel wallSet width height x (y - 1) r else Some r);
        (if bool_decide (y < height - 1) && unmarked r x (y + 1)
         then floodFill fuel wallSet width height x (y + 1) r else Some r)
  end.

(** [reachable[y][x] !== true] for a point of the scan. *)
Definition notReached (reachable : list (list bool)) (p : Point) : bool :=
  negb (bool_decide (cell reachable (Z.to_nat p.1) (Z.to_nat p.2) = Some true)).

(** [None] is [return null]. The flood fill gets [height * width + 1] units
    of fuel, which it never uses up ([FloodFacts.floodFill_reach]). *)
Definition parseSokoban (input : string)
    : option (SokobanMap * SokobanState) :=
  let rows := rowsOf input in
  let height := length rows in
  match rows with
  | [] => None
  | row0 :: _ =>
      let width := String.length row0 in
      if existsb (λ row, negb (bool_decide (String.length row = width))) rows
      then None
      else
        st ← scanRows rows width height;
        player ← found st;
        let wallSet : gset string := list_to_set (key <$> walls st) in
        let reachable := replicate height (replicate width false) in
        reachable ← floodFill (S (height * width)) wallSet width height
                      (Z.to_nat player.1) (Z.to_nat player.2) reachable;
        if existsb (notReached reachable) (crates st) then None
        else if existsb (notReached reachable) (goals st) then None
        else
          let goalSet : gset string := list_to_set (key <$> goals st) in
          let boxSet : gset string := list_to_set (key <$> crates st) in
          let boxes := sortPoints (crates st) in
          Some ({| width := Z.of_nat width; height := Z.of_nat height;
                   wallSet := wallSet; goalSet := goalSet |},
                {| player := player; boxes := boxes; boxSet := boxSet |})
  end.

End Parser.

(** ** The functions nested in [solve] *)

Module Solver.
Section solve.
Local Open Scope Z_scope.

Variable m : SokobanMap.

(** [[player, ...boxes].map(([x, y]) => `${x},${y}`).join("/")] *)
Definition serialize (s : SokobanState) : string :=
  JS.join "/" (key <$> (player s :: boxes s)).

(** One point of the serialisation; [None] where a coordinate is [NaN]. *)
Definition deserializePoint (point : string) : option Point :=
  let tmp := JS.split ","%char point in
  x ← tmp !! 0%nat ≫= JS.parseInt;
  y ← tmp !! 1%nat ≫= JS.parseInt;
  Some (x, y).

(** [None] stands for a state with a [NaN] coordinate, which integers do
    not represent. *)
Definition deserialize (input : string) : option SokobanState :=
  pts ← mapM deserializePoint (JS.split "/"%char input);
  match pts with
  | player :: boxes =>
      let boxes := sortPoints boxes in
      Some {| player := player; boxes := boxes;
              boxSet := list_to_set (key <$> boxes) |}
  | [] => None
  end.

(** The loops return [true] at the first window that passes both tests and
    [false] when none does. The second test reads column [1] where the
    three others read the window. *)
Definition isInvalid (s : SokobanState) : bool :=
  existsb (λ y, existsb (λ x,
    if negb (has (wallSet m) (key (x - 1, y - 1)) || has (boxSet s) (key (x - 1, y - 1)))
       || negb (has (wallSet m) (key (x, y - 1)) || has (boxSet s) (key (x, y - 1)))
       || negb (has (wallSet m) (key (x - 1, y)) || has (boxSet s) (key (x - 1, y)))
       || negb (has (wallSet m) (key (x, y)) || has (boxSet s) (key (x, y)))
    then false
    else
      (has (boxSet s) (key (x - 1, y - 1)) && negb (has (goalSet m) (key (x - 1, y - 1))))
      || (has (boxSet s) (key (1, y - 1)) && negb (has (goalSet m) (key (1, y - 1))))
      || (has (boxSet s) (key (x - 1, y)) && negb (has (goalSet m) (key (x - 1, y))))
      || (has (boxSet s) (key (x, y)) && negb (has (goalSet m) (key (x, y)))))
    (seqZ 1 (width m - 1))) (seqZ 1 (height m - 1)).

Definition nextState (s : SokobanState) (d : Point) : option SokobanState :=
  let nextX := (player s).1 + d.1 in
  let nextY := (player s).2 + d.2 in
  if bool_decide (nextX < 0 ∨ width m ≤ nextX ∨ nextY < 0 ∨ height m ≤ nextY)
  then None
  else if has (wallSet m) (key (nextX, nextY)) then None
  else if has (boxSet s) (key (nextX, nextY)) then
    let nextBoxX := nextX + d.1 in
    let nextBoxY := nextY + d.2 in
    if has (wallSet m) (key (nextBoxX, nextBoxY)) then None
    else if has (boxSet s) (key (nextBoxX, nextBoxY)) then None
    else
      let newBoxes :=
        filter (λ p : Point, p.1 ≠ nextX ∨ p.2 ≠ nextY) (boxes s) in
      let newBoxes := newBoxes ++ [(nextBoxX, nextBoxY)] in
      let newBoxes := sortPoints newBoxes in
      let newBoxSet : gset string := list_to_set (key <$> newBoxes) in
      Some {| player := (nextX, nextY); boxes := newBoxes; boxSet := newBoxSet |}
  else
    let result :=
      {| player := (nextX, nextY); boxes := boxes s; boxSet := boxSet s |} in
    if isInvalid result then None else Some result.

Definition isComplete (s : SokobanState) : bool :=
  forallb (λ p, has (goalSet m) (key p)) (boxes s).

(** *** The breadth-first loop

    The two hooks [onStep] and [onDistance] only observe, and the [await]s
    do not reorder anything: they are left out. *)

(** Either the [return] of a path, or the loop variables to go on with. *)
Inductive outcome (A : Type) : Type :=
| Found (path : string)
| Continue (a : A).
Global Arguments Found {_} _.
Global Arguments Continue {_} _.

Definition andThen {A B} (o : outcome A) (f : A → outcome B) : outcome B :=
  match o with
  | Found p => Found p
  | Continue a => f a
  end.

(** The loop variables [visited] and [next]. *)
Definition frontier : Type := gmap string string * list string.

(** One of the four blocks of the loop body:
    [const w = nextState(state, d);
     if (w && !visited.has(serialize(w))) {
       if (isComplete(w)) return `${path}W`;
       visited.set(serialize(w), `${path}W`);
       next.push(serialize(w)); }] *)
Definition visit (state : SokobanState) (path : string) (d : Point)
    (code : string) (vn : frontier) : outcome frontier :=
  match nextState state d with
  | Some w =>
      if bool_decide (is_Some (vn.1 !! serialize w)) then Continue vn
      else if isComplete w then Found (path +:+ code)
      else Continue (<[serialize w := path +:+ code]> vn.1,
                     (vn.2 ++ [serialize w])%list)
  | None => Continue vn
  end.

(** The body of [for (const serializedState of current)]. A missing entry
    of [visited] would print as ["undefined"] in the template literal. *)
Definition expand (serializedState : string) (vn : frontier)
    : option (outcome frontier) :=
  state ← deserialize serializedState;
  let path := default "undefined" (vn.1 !! serializedState) in
  Some (andThen (visit state path (0, -1) "W" vn) (λ vn,
        andThen (visit state path (-1, 0) "A" vn) (λ vn,
        andThen (visit state path (0, 1) "S" vn) (λ vn,
        visit state path (1, 0) "D" vn)))).

Fixpoint layer (current : list string) (vn : frontier)
    : option (outcome frontier) :=
  match current with
  | [] => Some (Continue vn)
  | serializedState :: rest =>
      match expand serializedState vn with
      | Some (Continue vn') => layer rest vn'
      | r => r
      end
  end.

(** [while (current.length)]: [Some None] is [return null], [Some (Some p)]
    the return of the path [p]; [None] when the fuel (a bound on the number
    of layers) is used up, or a frontier entry has a [NaN] coordinate. *)
Fixpoint loop (fuel : nat) (visited : gmap string string)
    (current : list string) : option (option string) :=
  match current with
  | [] => Some None
  | _ :: _ =>
      match fuel with
      | O => None
      | S fuel' =>
          match layer current (visited, []) with
          | Some (Found p) => Some (Some p)
          | Some (Continue (visited', next)) => loop fuel' visited' next
          | None => None
          end
      end
  end.

Definition solve (fuel : nat) (initialState : SokobanState)
    : option (option string) :=
  loop fuel {[serialize initialState := ""]} [serialize initialState].

End solve.
End Solver.

(** ** The deadlock check of the variant implementation

    In the sources its text follows the separator line of [src/main.ts]. *)

Module Variant.
Section solve.
Local Open Scope Z_scope.

Variable m : SokobanMap.

(** [serializePoint([x, y])] *)
Definition serializePoint (p : Point) : string :=
  JS.numToString p.1 +:+ "," +:+ JS.numToString p.2.

Definition isInvalid (s : SokobanState) : bool :=
  existsb (λ y, existsb (λ x,
    if (has (wallSet m) (serializePoint (x - 1, y - 1)) || has (boxSet s) (serializePoint (x - 1, y - 1)))
       && (has (wallSet m) (serializePoint (x, y - 1)) || has (boxSet s) (serializePoint (x, y - 1)))
       && (has (wallSet m) (serializePoint (x - 1, y)) || has (boxSet s) (serializePoint (x - 1, y)))
       && (has (wallSet m) (serializePoint (x, y)) || has (boxSet s) (serializePoint (x, y)))
       && ((negb (has (goalSet m) (serializePoint (x - 1, y - 1))) && has (boxSet s) (serializePoint (x - 1, y - 1)))
           || (negb (has (goalSet m) (serializePoint (x, y - 1))) && has (boxSet s) (serializePoint (x, y - 1)))
           || (negb (has (goalSet m) (serializePoint (x - 1, y))) && has (boxSet s) (serializePoint (x - 1, y)))
           || (negb (has (goalSet m) (serializePoint (x, y))) && has (boxSet s) (serializePoint (x, y))))
    then true
    else if has (boxSet s) (serializePoint (x - 1, y - 1))
            && negb (has (goalSet m) (serializePoint (x - 1, y - 1)))
            && has (wallSet m) (serializePoint (x, y - 1))
            && has (wallSet m) (serializePoint (x - 1, y))
    then true
    else if has (boxSet s) (serializePoint (x, y - 1))
            && negb (has (goalSet m) (serializePoint (x, y - 1)))
            && has (wallSet m) (serializePoint (x - 1, y - 1))
            && has (wallSet m) (serializePoint (x, y))
    then true
    else if has (boxSet s) (serializePoint (x - 1, y))
            && negb (has (goalSet m) (serializePoint (x - 1, y)))
            && has (wallSet m) (serializePoint (x, y))
            && has (wallSet m) (serializePoint (x - 1, y - 1))
    then true
    else if has (boxSet s) (serializePoint (x, y))
            && negb (has (goalSet m) (serializePoint (x, y)))
            && has (wallSet m) (serializePoint (x - 1, y))
            && has (wallSet m) (serializePoint (x, y - 1))
    then true
    else false)
    (seqZ 1 (width m - 1))) (seqZ 1 (height m - 1)).

End solve.
End Variant.

(** ** [solve] with its two hooks

    [onStep] and [onDistance] are optional callbacks. They are given a
    world of their own to act on: a hook that wrote to the state object it
    is handed is outside the model. *)

Module Loop.
Section loop.
Local Open Scope Z_scope.
Import Solver.

(** The four functions nested in [solve] that the loop calls. *)
Variable serialize : SokobanState → string.
Variable deserialize : string → option SokobanState.
Variable nextState : SokobanState → Point → option SokobanState.
Variable isComplete : SokobanState → bool.

Variable W : Type.
Variable onStep : option (SokobanState → W → W).
Variable onDistance : option (Z → W → W).

(** [await hook?.(a)] *)
Definition call {A} (hook : option (A → W → W)) (a : A) (w : W) : W :=
  match hook with
  | Some f => f a w
  | None => w
  end.

Definition visit (state : SokobanState) (path : string) (d : Point)
    (code : string) (vn : frontier) : outcome frontier :=
  match nextState state d with
  | Some w =>
      if bool_decide (is_Some (vn.1 !! serialize w)) then Continue vn
      else if isComplete w then Found (path +:+ code)
      else Continue (<[serialize w := path +:+ code]> vn.1,
                     (vn.2 ++ [serialize w])%list)
  | None => Continue vn
  end.

(** The body of [for (const serializedState of current)]:
    [const state = deserialize(serializedState);
     const path = visited.get(serializedState);
     await onStep?.(state);] and the four blocks. *)
Definition expand (serializedState : string) (vn : frontier) (w : W)
    : option (outcome frontier * W) :=
  state ← deserialize serializedState;
  let path := default "undefined" (vn.1 !! serializedState) in
  let w := call onStep state w in
  Some (andThen (visit state path (0, -1) "W" vn) (λ vn,
        andThen (visit state path (-1, 0) "A" vn) (λ vn,
        andThen (visit state path (0, 1) "S" vn) (λ vn,
        visit state path (1, 0) "D" vn))), w).

Fixpoint layer (current : list string) (vn : frontier) (w : W)
    : option (outcome frontier * W) :=
  match current with
  | [] => Some (Continue vn, w)
  | serializedState :: rest =>
      match expand serializedState vn w with
      | Some (Continue vn', w') => layer rest vn' w'
      | r => r
      end
  end.

(** [while (current.length) { await onDistance?.(distance); ...;
    current = next; distance++; } return null;] with the result and the
    world the hooks leave. [None] when the fuel is used up or a frontier
    entry has a [NaN] coordinate. *)
Fixpoint loop (fuel : nat) (distance : Z) (visited : gmap string string)
    (current : list string) (w : W) : option (option string * W) :=
  match current with
  | [] => Some (None, w)
  | _ :: _ =>
      match fuel with
      | O => None
      | S fuel' =>
          let w := call onDistance distance w in
          match layer current (visited, []) w with
          | Some (Found p, w') => Some (Some p, w')
          | Some (Continue (visited', next), w') =>
              loop fuel' (distance + 1) visited' next w'
          | None => None
          end
      end
  end.

Definition solve (fuel : nat) (initialState : SokobanState) (w : W)
    : option (option string * W) :=
  loop fuel 0 {[serialize initialState := ""]} [serialize initialState] w.

End loop.
End Loop.

(** ** [solve] of [src/lib.ts], hooks included *)

Module Lib.

Definition solve (m : SokobanMap) {W : Type}
    (onStep : option (SokobanState → W → W))
    (onDistance : option (Z → W → W))
    (fuel : nat) (initialState : SokobanState) (w : W)
    : option (option string * W) :=
  Loop.solve Solver.serialize Solver.deserialize (Solver.nextState m)
    (Solver.isComplete m) W onStep onDistance fuel initialState w.

End Lib.

(** ** The other functions of the variant ([src/main.ts], after the
    separator) *)

Module VariantSolver.
Section solve.
Local Open Scope Z_scope.
Import Variant.

Variable m : SokobanMap.

(** [deserializePoint(input)]; [None] where a coordinate is [NaN]. *)
Definition deserializePoint (input : string) : option Point :=
  let tmp := JS.split ","%char input in
  x ← tmp !! 0%nat ≫= JS.parseInt;
  y ← tmp !! 1%nat ≫= JS.parseInt;
  Some (x, y).

Definition serializeState (s : SokobanState) : string :=
  JS.join "/" (serializePoint <$> (player s :: boxes s)).

Definition deserializeState (input : string) : option SokobanState :=
  pts ← mapM deserializePoint (JS.split "/"%char input);
  match pts with
  | player :: boxes =>
      let boxes := sortPoints boxes in
      Some {| player := player; boxes := boxes;
              boxSet := list_to_set (serializePoint <$> boxes) |}
  | [] => None
  end.

Definition nextState (s : SokobanState) (d : Point) : option SokobanState :=
  let nextX := (player s).1 + d.1 in
  let nextY := (player s).2 + d.2 in
  if bool_decide (nextX < 0 ∨ width m ≤ nextX ∨ nextY < 0 ∨ height m ≤ nextY)
  then None
  else if has (wallSet m) (serializePoint (nextX, nextY)) then None
  else if has (boxSet s) (serializePoint (nextX, nextY)) then
    let nextBoxX := nextX + d.1 in
    let nextBoxY := nextY + d.2 in
    if has (wallSet m) (serializePoint (nextBoxX, nextBoxY)) then None
    else if has (boxSet s) (serializePoint (nextBoxX, nextBoxY)) then None
    else
      let newBoxes :=
        filter (λ p : Point, p.1 ≠ nextX ∨ p.2 ≠ nextY) (boxes s) in
      let newBoxes := newBoxes ++ [(nextBoxX, nextBoxY)] in
      let newBoxes := sortPoints newBoxes in
      let newBoxSet : gset string :=
        list_to_set (serializePoint <$> newBoxes) in
      Some {| player := (nextX, nextY); boxes := newBoxes; boxSet := newBoxSet |}
  else
    let result :=
      {| player := (nextX, nextY); boxes := boxes s; boxSet := boxSet s |} in
    if isInvalid m result then None else Some result.

Definition isComplete (s : SokobanState) : bool :=
  forallb (λ p, has (goalSet m) (serializePoint p)) (boxes s).

(** The loop is the loop of [src/lib.ts], line for line, over
    [serializeState] and [deserializeState]. *)
Definition solve {W : Type} (onStep : option (SokobanState → W → W))
    (onDistance : option (Z → W → W))
    (fuel : nat) (initialState : SokobanState) (w : W)
    : option (option string * W) :=
  Loop.solve serializeState deserializeState nextState isComplete
    W onStep onDistance fuel initialState w.

End solve.
End VariantSolver.

(** ** The two command-line programs

    [main] of [src/main.ts] and [main] of [part_000] read the level from
    the standard input, parse it, solve it and print the moves. The input
    is given; the console is the list of the lines written, in order; the
    exit code is [1] after [process.exit(1)] and [0] when [main] runs to
    its end. *)

Module Console.

(** A line of [console.log] or of [console.error]. *)
Inductive line : Type :=
| Log (text : string)
| Error (text : string).

(** [!result] for a string or [null]. *)
Definition falsy (result : option string) : bool :=
  match result with
  | None | Some EmptyString => true
  | Some (String _ _) => false
  end.

(** The exports of ["./lib"] that [main] calls. *)
Record Library := {
  parseSokoban : string → option (SokobanMap * SokobanState);
  solve : SokobanMap → ∀ W : Type,
    option (SokobanState → W → W) → option (Z → W → W) →
    nat → SokobanState → W → option (option string * W);
}.

(** [src/lib.ts] *)
Definition lib : Library :=
  {| parseSokoban := Parser.parseSokoban;
     solve := λ m W, @Lib.solve m W |}.

End Console.

(** [main] of [part_000]: no [onStep], and
    [(distance) => console.log(`wait: ${distance}`)]. *)
Module Part000.
Import Console.
Section main.

Variable library : Library.

Definition main (fuel : nat) (input : string) : option (list line * Z) :=
  match parseSokoban library input with
  | None => Some ([Error "Could not parse input"], 1%Z)
  | Some (map, initialState) =>
      '(result, console) ←
        solve library map (list line) None
          (Some (λ distance console,
             console ++ [Log ("wait: " +:+ JS.numToString distance)]))
          fuel initialState [];
      if falsy result then Some (console ++ [Error "Could not solve"], 1%Z)
      else Some (console ++ [Log (default "" result)], 0%Z)
  end.

End main.
End Part000.

(** [main] of [src/main.ts]: [let tried = 0], [() => tried++] and
    [(distance) => console.log(`wait: ${distance} (${tried} tried)`)]; the
    world of the hooks is the counter and the console. *)
Module Main.
Import Console.
Section main.

Variable library : Library.

Definition main (fuel : nat) (input : string) : option (list line * Z) :=
  match parseSokoban library input with
  | None => Some ([Error "Could not parse input"], 1%Z)
  | Some (map, initialState) =>
      '(result, (tried, console)) ←
        solve library map (Z * list line)%type
          (Some (λ _ w, (w.1 + 1, w.2)%Z))
          (Some (λ distance w,
             (w.1, w.2 ++ [Log ("wait: " +:+ JS.numToString distance
                                +:+ " (" +:+ JS.numToString w.1
                                +:+ " tried)")])))
          fuel initialState (0%Z, []);
      let console := console ++ [Log (JS.numToString tried +:+ " tried.")] in
      if falsy result then Some (console ++ [Error "Could not solve"], 1%Z)
      else Some (console ++ [Log (default "" result)], 0%Z)
  end.

End main.
End Main.

(** ** [nextState] on a store of objects

  States, their arrays of boxes and their box sets are objects that the
  engine holds by reference: an array may be shared by two states, and
  [push] and [sort] change an array in place. This section runs
  [nextState] on a store to see which objects it writes. The two-element
  tuples that stand for points are never written to by the source, so they
  stay plain values. *)

Module Store.

Abbreviation loc := positive.

Inductive obj : Type :=
| Arr (elems : list Point)
| SetObj (elems : gset string)
| StateObj (playerOf : Point) (boxesOf : loc) (boxSetOf : loc).

(** A computation on the store; [None] is a dereference of something that
    is not the expected kind of object. *)
Definition M (A : Type) : Type :=
  gmap loc obj → option (A * gmap loc obj).

Definition ret {A} (a : A) : M A := λ h, Some (a, h).
Definition bind {A B} (c : M A) (f : A → M B) : M B :=
  λ h, match c h with
       | Some (a, h') => f a h'
       | None => None
       end.

Notation "x <- c ;; k" := (bind c (λ x, k))
  (at level 100, c at next level, right associativity).

(** A new object, at an address the store does not use yet. *)
Definition alloc (o : obj) : M loc :=
  λ h, let l := fresh (dom h) in Some (l, <[l := o]> h).

Definition readState (l : loc) : M (Point * loc * loc) :=
  λ h, match h !! l with
       | Some (StateObj p b bs) => Some ((p, b, bs), h)
       | _ => None
       end.

Definition readArr (l : loc) : M (list Point) :=
  λ h, match h !! l with Some (Arr a) => Some (a, h) | _ => None end.

Definition readSet (l : loc) : M (gset string) :=
  λ h, match h !! l with Some (SetObj s) => Some (s, h) | _ => None end.

(** An update of the array at [l], in place. *)
Definition writeArr (l : loc) (a : list Point) : M unit :=
  λ h, match h !! l with
       | Some (Arr _) => Some (tt, <[l := Arr a]> h)
       | _ => None
       end.

(** The state a reference stands for. *)
Definition view (h : gmap loc obj) (l : loc) : option SokobanState :=
  match h !! l with
  | Some (StateObj p b bs) =>
      match h !! b, h !! bs with
      | Some (Arr a), Some (SetObj s) =>
          Some {| player := p; boxes := a; boxSet := s |}
      | _, _ => None
      end
  | _ => None
  end.

Section nextState.
Local Open Scope Z_scope.

Variable m : SokobanMap.

(** [isInvalid({ boxSet })] reads the box set of its argument, nothing
    else. *)
Definition isInvalid (state : loc) : M bool :=
  st <- readState state;;
  let '(p, b, bs) := st in
  s <- readSet bs;;
  ret (Solver.isInvalid m {| player := p; boxes := []; boxSet := s |}).

Definition nextState (state : loc) (d : Point) : M (option loc) :=
  st <- readState state;;
  let '(player, boxes, boxSet) := st in
  let nextX := player.1 + d.1 in
  let nextY := player.2 + d.2 in
  if bool_decide (nextX < 0 ∨ width m ≤ nextX ∨ nextY < 0 ∨ height m ≤ nextY)
  then ret None
  else if has (wallSet m) (key (nextX, nextY)) then ret None
  else
    s <- readSet boxSet;;
    if has s (key (nextX, nextY)) then
      let nextBoxX := nextX + d.1 in
      let nextBoxY := nextY + d.2 in
      if has (wallSet m) (key (nextBoxX, nextBoxY)) then ret None
      else if has s (key (nextBoxX, nextBoxY)) then ret None
      else
        a <- readArr boxes;;
        newBoxes <- alloc (Arr (filter (λ p : Point,
                                  p.1 ≠ nextX ∨ p.2 ≠ nextY) a));;
        a <- readArr newBoxes;;
        _ <- writeArr newBoxes (a ++ [(nextBoxX, nextBoxY)]);;
        a <- readArr newBoxes;;
        _ <- writeArr newBoxes (sortPoints a);;
        a <- readArr newBoxes;;
        newBoxSet <- alloc (SetObj (list_to_set (key <$> a)));;
        result <- alloc (StateObj (nextX, nextY) newBoxes newBoxSet);;
        ret (Some result)
    else
      result <- alloc (StateObj (nextX, nextY) boxes boxSet);;
      invalid <- isInvalid result;;
      if invalid then ret None else ret (Some result).

(** The objects of [h] are the same in [h']. *)
Definition unchanged (h h' : gmap loc obj) : Prop :=
  ∀ l, l ∈ dom h → h' !! l = h !! l.

End nextState.
End Store.

(** * The vocabulary of the properties *)

(** ** The canonical form of a state *)

Module Order.

(** Ascending by [y], then by [x], as the specification words it. *)
Definition yxLe (a b : Point) : Prop :=
  (a.2 < b.2 ∨ (a.2 = b.2 ∧ a.1 ≤ b.1))%Z.

(** The state [deserialize] builds from the player and the boxes. *)
Definition canon (s : SokobanState) : SokobanState :=
  {| player := player s; boxes := sortPoints (boxes s);
     boxSet := list_to_set (key <$> sortPoints (boxes s)) |}.

(** A state in canonical form: boxes sorted, box set built from them. *)
Definition canonical (s : SokobanState) : Prop :=
  Sorted pointLe (boxes s) ∧ boxSet s = list_to_set (key <$> boxes s).

End Order.

(** ** Move sequences *)

Module Moves.
Section moves.
Local Open Scope Z_scope.
Import Solver.

Variable m : SokobanMap.

(** The displacement of a move code: [W] up, [A] left, [S] down, [D]
    right, as the four blocks of the loop pair them. *)
Definition dirOf (c : ascii) : option Point :=
  if decide (c = "W"%char) then Some (0, -1)
  else if decide (c = "A"%char) then Some (-1, 0)
  else if decide (c = "S"%char) then Some (0, 1)
  else if decide (c = "D"%char) then Some (1, 0)
  else None.

(** Replaying a move string through [nextState]; [None] as soon as a move
    is not a code or is refused. *)
Fixpoint replay (path : string) (s : SokobanState) : option SokobanState :=
  match path with
  | EmptyString => Some s
  | String c path' =>
      d ← dirOf c; s' ← nextState m s d; replay path' s'
  end.

(** The player's move without any pruning: a step onto a free cell, or a
    push of one box onto a free cell. *)
Definition rawStep (s : SokobanState) (d : Point) : option SokobanState :=
  let target := ((player s).1 + d.1, (player s).2 + d.2) in
  let landing := (target.1 + d.1, target.2 + d.2) in
  if bool_decide (target.1 < 0 ∨ width m ≤ target.1
                  ∨ target.2 < 0 ∨ height m ≤ target.2) then None
  else if has (wallSet m) (key target) then None
  else if has (boxSet s) (key target) then
    if has (wallSet m) (key landing) || has (boxSet s) (key landing) then None
    else
      let newBoxes :=
        sortPoints (filter (λ p, p ≠ target) (boxes s) ++ [landing]) in
      Some {| player := target; boxes := newBoxes;
              boxSet := list_to_set (key <$> newBoxes) |}
  else Some {| player := target; boxes := boxes s; boxSet := boxSet s |}.

Fixpoint rawReplay (path : string) (s : SokobanState) : option SokobanState :=
  match path with
  | EmptyString => Some s
  | String c path' =>
      d ← dirOf c; s' ← rawStep s d; rawReplay path' s'
  end.

(** The cell lies inside the grid. *)
Definition inBounds (p : Point) : Prop :=
  0 ≤ p.1 < width m ∧ 0 ≤ p.2 < height m.

(** The cell next to [p] in the direction [d]. *)
Definition shift (p d : Point) : Point := (p.1 + d.1, p.2 + d.2).

(** The player stands inside the grid, off the walls and off the boxes. *)
Definition settled (s : SokobanState) : Prop :=
  inBounds (player s) ∧ (key (player s) ∉ wallSet m)
  ∧ (player s ∉ boxes s).

(** The target cell of the move is inside the grid and is no wall. *)
Definition legal (p d : Point) : bool :=
  bool_decide (inBounds (shift p d))
  && negb (has (wallSet m) (key (shift p d))).

(** The code of the first move, in the order of the loop body, that is
    legal from [p]. *)
Definition firstLegal (p : Point) : option string :=
  if legal p (0, -1) then Some "W"
  else if legal p (-1, 0) then Some "A"
  else if legal p (0, 1) then Some "S"
  else if legal p (1, 0) then Some "D"
  else None.

End moves.
End Moves.

(** ** The search of both files over a common transition function

    [solve] of [src/lib.ts] and [solve] of the variant in
    [src/main.ts] are the same text but for the body of [isInvalid] (and
    for the helper [serializePoint], which is the template literal). The
    engine is that text over the deadlock check. *)

Module Engine.

(** A map together with the deadlock check that prunes the plain steps. *)
Record Rules := {
  mapOf :> SokobanMap;
  check : SokobanState → bool;
}.

Section engine.
Local Open Scope Z_scope.
Import Solver.

Variable r : Rules.

Definition nextState (s : SokobanState) (d : Point) : option SokobanState :=
  let nextX := (player s).1 + d.1 in
  let nextY := (player s).2 + d.2 in
  if bool_decide (nextX < 0 ∨ width r ≤ nextX ∨ nextY < 0 ∨ height r ≤ nextY)
  then None
  else if has (wallSet r) (key (nextX, nextY)) then None
  else if has (boxSet s) (key (nextX, nextY)) then
    let nextBoxX := nextX + d.1 in
    let nextBoxY := nextY + d.2 in
    if has (wallSet r) (key (nextBoxX, nextBoxY)) then None
    else if has (boxSet s) (key (nextBoxX, nextBoxY)) then None
    else
      let newBoxes :=
        filter (λ p : Point, p.1 ≠ nextX ∨ p.2 ≠ nextY) (boxes s) in
      let newBoxes := newBoxes ++ [(nextBoxX, nextBoxY)] in
      let newBoxes := sortPoints newBoxes in
      let newBoxSet : gset string := list_to_set (key <$> newBoxes) in
      Some {| player := (nextX, nextY); boxes := newBoxes; boxSet := newBoxSet |}
  else
    let result :=
      {| player := (nextX, nextY); boxes := boxes s; boxSet := boxSet s |} in
    if check r result then None else Some result.

Definition visit (state : SokobanState) (path : string) (d : Point)
    (code : string) (vn : frontier) : outcome frontier :=
  match nextState state d with
  | Some w =>
      if bool_decide (is_Some (vn.1 !! serialize w)) then Continue vn
      else if isComplete r w then Found (path +:+ code)
      else Continue (<[serialize w := path +:+ code]> vn.1,
                     (vn.2 ++ [serialize w])%list)
  | None => Continue vn
  end.

Definition expand (serializedState : string) (vn : frontier)
    : option (outcome frontier) :=
  state ← deserialize serializedState;
  let path := default "undefined" (vn.1 !! serializedState) in
  Some (andThen (visit state path (0, -1) "W" vn) (λ vn,
        andThen (visit state path (-1, 0) "A" vn) (λ vn,
        andThen (visit state path (0, 1) "S" vn) (λ vn,
        visit state path (1, 0) "D" vn)))).

Fixpoint layer (current : list string) (vn : frontier)
    : option (outcome frontier) :=
  match current with
  | [] => Some (Continue vn)
  | serializedState :: rest =>
      match expand serializedState vn with
      | Some (Continue vn') => layer rest vn'
      | r => r
      end
  end.

Fixpoint loop (fuel : nat) (visited : gmap string string)
    (current : list string) : option (option string) :=
  match current with
  | [] => Some None
  | _ :: _ =>
      match fuel with
      | O => None
      | S fuel' =>
          match layer current (visited, []) with
          | Some (Found p) => Some (Some p)
          | Some (Continue (visited', next)) => loop fuel' visited' next
          | None => None
          end
      end
  end.

Definition solve (fuel : nat) (initialState : SokobanState)
    : option (option string) :=
  loop fuel {[serialize initialState := ""]} [serialize initialState].

(** Replaying a move string through [nextState]. *)
Fixpoint replay (path : string) (s : SokobanState) : option SokobanState :=
  match path with
  | EmptyString => Some s
  | String c path' =>
      d ← Moves.dirOf c; s' ← nextState s d; replay path' s'
  end.

End engine.

(** The rules of [src/lib.ts]. *)
Definition lib (m : SokobanMap) : Rules :=
  {| mapOf := m; check := Solver.isInvalid m |}.

(** The rules of the variant. *)
Definition variant (m : SokobanMap) : Rules :=
  {| mapOf := m; check := Variant.isInvalid m |}.

End Engine.

(** ** States of a board *)

Module Board.
Section board.
Local Open Scope Z_scope.

Variable m : SokobanMap.

(** The four displacements of the loop body, in its order. *)
Definition directions : list Point := [(0, -1); (-1, 0); (0, 1); (1, 0)].

(** The displacement that undoes [d]. *)
Definition opposite (d : Point) : Point := (- d.1, - d.2).

(** A state as the parser and the transitions leave it: the player inside
    the grid, off the walls and off the boxes; the boxes pairwise distinct
    and off the walls; the box array sorted and mirrored by the box set. *)
Record wellFormed (s : SokobanState) : Prop := {
  b_player : Moves.inBounds m (player s);
  b_floor : key (player s) ∉ wallSet m;
  b_apart : player s ∉ boxes s;
  b_distinct : NoDup (boxes s);
  b_boxes : ∀ b, b ∈ boxes s → key b ∉ wallSet m;
  b_canonical : Order.canonical s;
}.

(** Every character of a move string is a move code. *)
Fixpoint codes (path : string) : Prop :=
  match path with
  | EmptyString => True
  | String c path' => c ∈ ["W"; "A"; "S"; "D"]%char ∧ codes path'
  end.

(** [q] is the beginning of [p]. *)
Definition beginning (q p : string) : Prop := ∃ rest, p = q +:+ rest.

End board.
End Board.

(** ** What the specification asks of the deadlock detector *)

Module Deadlock.
Section spec.
Local Open Scope Z_scope.

Variable m : SokobanMap.
Variable s : SokobanState.

Definition wallAt (p : Point) : Prop := key p ∈ wallSet m.
Definition boxAt (p : Point) : Prop := key p ∈ boxSet s.
Definition goalAt (p : Point) : Prop := key p ∈ goalSet m.

(** The four cells of the window whose bottom-right cell is [(x, y)]. *)
Definition window (x y : Z) : list Point :=
  [(x - 1, y - 1); (x, y - 1); (x - 1, y); (x, y)].

(** A window of the grid all of whose cells are a wall or hold a box. *)
Definition frozen (x y : Z) : Prop :=
  1 ≤ x < width m ∧ 1 ≤ y < height m
  ∧ ∀ p, p ∈ window x y → wallAt p ∨ boxAt p.

(** The contract of the deadlock detector as the specification words it
    (section 4.4): a frozen window one of whose boxes is off the goals. *)
Definition deadlocked : Prop :=
  ∃ x y, frozen x y ∧ ∃ p, p ∈ window x y ∧ boxAt p ∧ ¬ goalAt p.

(** No box of the box set stands off the goals in column 1 of the grid. *)
Definition column1Clear : bool :=
  forallb (λ y, negb (has (boxSet s) (key (1, y))
                      && negb (has (goalSet m) (key (1, y)))))
    (seqZ 0 (height m)).

End spec.
End Deadlock.

(** ** What a deadlock check may prune *)

Module Pruning.
Section pruning.
Local Open Scope Z_scope.
Import Deadlock.

Variable m : SokobanMap.
Variable s : SokobanState.

(** No sequence of moves of the game leads to a complete state. *)
Definition dead : Prop :=
  ∀ path w, Moves.rawReplay m path s = Some w → Solver.isComplete m w = false.

(** Two cells that share a side. *)
Definition beside (p q : Point) : Prop :=
  (p.1 = q.1 ∧ (p.2 = q.2 + 1 ∨ q.2 = p.2 + 1))
  ∨ (p.2 = q.2 ∧ (p.1 = q.1 + 1 ∨ q.1 = p.1 + 1)).

(** The two cells of the window that share a side with [p] are walls. *)
Definition cornered (x y : Z) (p : Point) : Prop :=
  ∀ q, q ∈ window x y → beside p q → wallAt m q.

(** A window of the grid holds a box off the goals that is frozen or
    cornered in it. *)
Definition stuck : Prop :=
  ∃ x y, 1 ≤ x < width m ∧ 1 ≤ y < height m
         ∧ ∃ p, p ∈ window x y ∧ boxAt s p ∧ ¬ goalAt m p
                ∧ ((∀ q, q ∈ window x y → wallAt m q ∨ boxAt s q)
                   ∨ cornered x y p).

(** A box off the goals with a wall on one side along each axis. *)
Definition pinned (p : Point) : Prop :=
  boxAt s p ∧ ¬ goalAt m p
  ∧ (wallAt m (p.1 - 1, p.2) ∨ wallAt m (p.1 + 1, p.2))
  ∧ (wallAt m (p.1, p.2 - 1) ∨ wallAt m (p.1, p.2 + 1)).

End pruning.
End Pruning.

(** ** What the hooks are called with *)

Module Trace.
Section trace.

Variable W : Type.
Variable onStep : option (SokobanState → W → W).
Variable onDistance : option (Z → W → W).

(** One turn of the [while] loop: [onDistance] with the distance, then
    [onStep] with each state that is expanded. *)
Definition playLayer (l : Z * list SokobanState) (w : W) : W :=
  fold_left (λ w s, Loop.call W onStep s w) l.2
    (Loop.call W onDistance l.1 w).

Definition play (tr : list (Z * list SokobanState)) (w : W) : W :=
  fold_left (λ w l, playLayer l w) tr w.

End trace.
End Trace.

(** ** What the programs print *)

Module Report.
Import Console.
Local Open Scope Z_scope.

(** The lines [wait: 0], [wait: 1], ... of [part_000]. *)
Definition waitLines (n : nat) : list line :=
  (λ d, Log ("wait: " +:+ JS.numToString d)) <$> seqZ 0 (Z.of_nat n).

(** The lines [wait: d (t tried)] of [src/main.ts], from the distance [d]
    and the count [t] on, for turns that expand [sizes] states. *)
Fixpoint triedLines (d t : Z) (sizes : list nat) : list line :=
  match sizes with
  | [] => []
  | n :: sizes' =>
      Log ("wait: " +:+ JS.numToString d +:+ " (" +:+ JS.numToString t
           +:+ " tried)")
      :: triedLines (d + 1) (t + Z.of_nat n) sizes'
  end.

End Report.

(** ** The lines and the rows of a text

    What the specification calls the rows of the input: the lines of the
    text, trimmed, the blank ones dropped. Said without the functions of
    the parser. *)

Module Text.

(** The text with a carriage return put before each line feed. *)
Fixpoint crlf (s : string) : string :=
  match s with
  | EmptyString => EmptyString
  | String c s' =>
      if decide (c = Parser.LF)
      then String Parser.CR (String Parser.LF (crlf s'))
      else String c (crlf s')
  end.

(** White space: TAB, LF, VT, FF, CR, SPACE and NBSP. *)
Definition white (c : ascii) : Prop :=
  c ∈ ["009"; "010"; "011"; "012"; "013"; " "; "160"]%char.

(** The characters of a string, in order. *)
Fixpoint chars (s : string) : list ascii :=
  match s with
  | EmptyString => []
  | String c s' => c :: chars s'
  end.

(** A string of white space only. *)
Definition blank (s : string) : Prop := Forall white (chars s).

(** [row] is [line] trimmed: the line is the row between two runs of
    white space, and the row neither begins nor ends with white space. *)
Definition trimmed (line row : string) : Prop :=
  (∃ pre post, line = pre +:+ row +:+ post ∧ blank pre ∧ blank post)
  ∧ (∀ c r, row = String c r → ¬ white c)
  ∧ (∀ r c, row = r +:+ String c EmptyString → ¬ white c).

(** The lines put end to end, a line feed between each two. *)
Fixpoint unlines (ls : list string) : string :=
  match ls with
  | [] => EmptyString
  | [l] => l
  | l :: ls' => l +:+ String Parser.LF (unlines ls')
  end.

(** [ls] are the lines of the text: one line at least, no line feed in a
    line, and the text is the lines with a line feed between each two. *)
Definition lines (input : string) (ls : list string) : Prop :=
  ls ≠ [] ∧ unlines ls = input ∧ Forall (λ l, Parser.LF ∉ chars l) ls.

(** [rs] are the rows of the text: its lines, each trimmed, without the
    ones that trimming leaves empty. *)
Definition rows (input : string) (rs : list string) : Prop :=
  ∃ ls ts, lines input ls ∧ Forall2 trimmed ls ts
           ∧ rs = filter (λ t, t ≠ EmptyString) ts.

End Text.

(** ** The grid read off the rows *)

Module Grid.
Import Parser Order.

(** A cell [(x, y)]. *)
Definition Cell : Type := nat * nat.

(** Neighbours in the four directions. *)
Definition adjacent (c c' : Cell) : Prop :=
  (c'.2 = c.2 ∧ (c'.1 + 1 = c.1 ∨ c'.1 = c.1 + 1))
  ∨ (c'.1 = c.1 ∧ (c'.2 + 1 = c.2 ∨ c'.2 = c.2 + 1)).

(** The cells connected to [c0] by a path of neighbouring free cells. *)
Inductive connected (free : Cell → Prop) (c0 : Cell) : Cell → Prop :=
| connected_start : free c0 → connected free c0 c0
| connected_step c c' :
    connected free c0 c → adjacent c c' → free c' → connected free c0 c'.

Section rows.

Variable rows : list string.

(** [rows[y][x]] *)
Definition tile (c : Cell) : option ascii := rows !! c.2 ≫= String.get c.1.

(** The seven symbols: floor, wall, goal, box, box on goal, player, player
    on goal. *)
Definition vocabulary : list ascii := ["."; "#"; "+"; "b"; "B"; "w"; "W"]%char.
Definition wallTiles : list ascii := ["#"]%char.
Definition goalTiles : list ascii := ["+"; "B"; "W"]%char.
Definition boxTiles : list ascii := ["b"; "B"]%char.
Definition playerTiles : list ascii := ["w"; "W"]%char.

(** The cell holds one of the symbols of [l]. *)
Definition tileIn (l : list ascii) (c : Cell) : Prop :=
  ∃ ch, tile c = Some ch ∧ ch ∈ l.

Global Instance tileIn_dec l c : Decision (tileIn l c).
Proof.
  unfold tileIn. destruct (tile c) as [ch|].
  - destruct (decide (ch ∈ l)); [left; eauto|right]. by intros (? & [= <-] & ?).
  - right. by intros (? & [=] & _).
Defined.

(** [c] comes before [c'] when the rows are read top to bottom, each left
    to right. *)
Definition before (c c' : Cell) : Prop :=
  c.2 < c'.2 ∨ (c.2 = c'.2 ∧ c.1 < c'.1).

(** The player tile that comes last in reading order. *)
Definition lastPlayer (c : Cell) : Prop :=
  tileIn playerTiles c
  ∧ ∀ c', tileIn playerTiles c' → c' = c ∨ before c' c.

(** A cell of the grid that is no wall. *)
Definition free (c : Cell) : Prop :=
  ∃ ch, tile c = Some ch ∧ ch ≠ "#"%char.

End rows.

(** The reasons for which the specification has the parser fail: no
    rows; rows of different lengths; a symbol outside the vocabulary; no
    player; a box or a goal that is not connected to the player. *)
Definition rejected (rows : list string) : Prop :=
  rows = []
  ∨ (∃ row0 row, head rows = Some row0 ∧ row ∈ rows
                 ∧ String.length row ≠ String.length row0)
  ∨ (∃ c ch, tile rows c = Some ch ∧ ch ∉ vocabulary)
  ∨ (∀ c, ¬ tileIn rows playerTiles c)
  ∨ (∃ c0 c, lastPlayer rows c0
             ∧ (tileIn rows boxTiles c ∨ tileIn rows goalTiles c)
             ∧ ¬ connected (free rows) c0 c).

(** The map and the state of a successful parse, read off the rows. *)
Record accepted (rows : list string) (m : SokobanMap) (s : SokobanState)
    : Prop := {
  a_width : ∃ row0, head rows = Some row0
                    ∧ width m = Z.of_nat (String.length row0);
  a_height : height m = Z.of_nat (length rows);
  a_walls : ∀ c, key (pt c.1 c.2) ∈ wallSet m ↔ tileIn rows wallTiles c;
  a_goals : ∀ c, key (pt c.1 c.2) ∈ goalSet m ↔ tileIn rows goalTiles c;
  a_player : ∃ c0, lastPlayer rows c0 ∧ player s = pt c0.1 c0.2;
  a_boxes : ∀ p, p ∈ boxes s ↔ ∃ c, p = pt c.1 c.2 ∧ tileIn rows boxTiles c;
  a_boxSet : boxSet s = list_to_set (key <$> boxes s);
  a_sorted : StronglySorted yxLe (boxes s);
}.

End Grid.

(** ** Sample levels *)

Module Samples.
Import Parser Store.
Local Open Scope Z_scope.

(** The text of a level, one row per line. *)
Definition level (rows : list string) : string :=
  JS.join (String LF EmptyString) rows.

(** A box on a goal and a box off the goals, side by side above two
    walls. *)
Definition levelA : string := level ["wBb"; ".##"].
Definition mapA : SokobanMap :=
  {| width := 3; height := 2;
     wallSet := {[ "1,1"; "2,1" ]}; goalSet := {[ "1,0" ]} |}.
Definition stateA : SokobanState :=
  {| player := (0, 0); boxes := [(1, 0); (2, 0)];
     boxSet := {[ "1,0"; "2,0" ]} |}.

(** A box in column 1 with its goal right below, and a block of four
    walls two columns to the right. *)
Definition levelB : string := level ["w..."; ".b##"; ".+##"].
Definition mapB : SokobanMap :=
  {| width := 4; height := 3;
     wallSet := {[ "2,1"; "3,1"; "2,2"; "3,2" ]}; goalSet := {[ "1,2" ]} |}.
Definition stateB : SokobanState :=
  {| player := (0, 0); boxes := [(1, 1)]; boxSet := {[ "1,1" ]} |}.

(** A corridor: the box can only be pushed into the dead end. *)
Definition levelC : string := level ["#####"; "#wb.#"; "#####"].
Definition mapC : SokobanMap :=
  {| width := 5; height := 3;
     wallSet := {[ "0,0"; "1,0"; "2,0"; "3,0"; "4,0"; "0,1"; "4,1";
                   "0,2"; "1,2"; "2,2"; "3,2"; "4,2" ]};
     goalSet := ∅ |}.
Definition stateC : SokobanState :=
  {| player := (1, 1); boxes := [(2, 1)]; boxSet := {[ "2,1" ]} |}.

(** A single cell: the player on a goal, no box. *)
Definition levelD : string := level ["W"].
Definition mapD : SokobanMap :=
  {| width := 1; height := 1; wallSet := ∅; goalSet := {[ "0,0" ]} |}.
Definition stateD : SokobanState :=
  {| player := (0, 0); boxes := []; boxSet := ∅ |}.

(** The only box already on its goal, the player walled in. *)
Definition levelE : string := level ["#BW#"].
Definition mapE : SokobanMap :=
  {| width := 4; height := 1;
     wallSet := {[ "0,0"; "3,0" ]}; goalSet := {[ "1,0"; "2,0" ]} |}.
Definition stateE : SokobanState :=
  {| player := (2, 0); boxes := [(1, 0)]; boxSet := {[ "1,0" ]} |}.

(** One push to the right solves it. *)
Definition levelF : string := level ["wb+"].
Definition mapF : SokobanMap :=
  {| width := 3; height := 1; wallSet := ∅; goalSet := {[ "2,0" ]} |}.
Definition stateF : SokobanState :=
  {| player := (0, 0); boxes := [(1, 0)]; boxSet := {[ "1,0" ]} |}.

(** No box at all. *)
Definition levelG : string := level ["w."].
Definition mapG : SokobanMap :=
  {| width := 2; height := 1; wallSet := ∅; goalSet := ∅ |}.
Definition stateG : SokobanState :=
  {| player := (0, 0); boxes := []; boxSet := ∅ |}.

(** Two boxes off the goals, side by side above two walls. *)
Definition levelH : string := level ["wbb"; ".##"].
Definition mapH : SokobanMap :=
  {| width := 3; height := 2;
     wallSet := {[ "1,1"; "2,1" ]}; goalSet := ∅ |}.
Definition stateH : SokobanState :=
  {| player := (0, 0); boxes := [(1, 0); (2, 0)];
     boxSet := {[ "1,0"; "2,0" ]} |}.

(** Two pushes, six moves. *)
Definition levelI : string :=
  level ["#######"; "#w....#"; "#.b.b.#"; "#.+.+.#"; "#######"].

(** A store with the initial state of [levelC]. *)
Definition storeC : gmap positive obj :=
  {[ 1%positive := StateObj (1, 1) 2%positive 3%positive;
     2%positive := Arr [(2, 1)];
     3%positive := SetObj {[ "2,1" ]} ]}.

(** A box on the border, nothing behind it. *)
Definition levelJ : string := level ["wb"].
Definition mapJ : SokobanMap :=
  {| width := 2; height := 1; wallSet := ∅; goalSet := ∅ |}.
Definition stateJ : SokobanState :=
  {| player := (0, 0); boxes := [(1, 0)]; boxSet := {[ "1,0" ]} |}.

(** Two boxes for one goal. *)
Definition levelK : string := level ["wbb+"].
Definition mapK : SokobanMap :=
  {| width := 4; height := 1; wallSet := ∅; goalSet := {[ "3,0" ]} |}.
Definition stateK : SokobanState :=
  {| player := (0, 0); boxes := [(1, 0); (2, 0)];
     boxSet := {[ "1,0"; "2,0" ]} |}.

(** One row between spaces, its line ended by a carriage return and a
    line feed, then an empty line and a line of one space. *)
Definition textL : string :=
  " wb+ " +:+ String CR (String LF (String LF " ")).
Definition mapL : SokobanMap :=
  {| width := 3; height := 1; wallSet := ∅; goalSet := {[ "2,0" ]} |}.
Definition stateL : SokobanState :=
  {| player := (0, 0); boxes := [(1, 0)]; boxSet := {[ "1,0" ]} |}.

End Samples.

(** * Proofs *)

(** ** Facts about the JavaScript primitives *)

Module JSFacts.
Import JS.

(** Every character of [s] passes the test [P]. *)
Fixpoint allChars (P : ascii → bool) (s : string) : bool :=
  match s with
  | EmptyString => true
  | String c s' => P c && allChars P s'
  end.

Definition isDigit (c : ascii) : bool :=
  bool_decide (48 ≤ nat_of_ascii c ≤ 57)%nat.

Definition isNumChar (c : ascii) : bool :=
  isDigit c || bool_decide (c = "-"%char).

Lemma allChars_app P s1 s2 :
  allChars P (s1 +:+ s2) = allChars P s1 && allChars P s2.
Proof.
  induction s1 as [|c s1 IH]; simpl; [done|].
  change (String c s1 +:+ s2) with (String c (s1 +:+ s2)).
  simpl. rewrite IH. by rewrite andb_assoc.
Qed.

Lemma allChars_impl (P Q : ascii → bool) s :
  (∀ c, P c = true → Q c = true) → allChars P s = true → allChars Q s = true.
Proof.
  intros HPQ. induction s as [|c s IH]; simpl; [done|].
  intros [? ?]%andb_true_iff. apply andb_true_iff. auto.
Qed.

Lemma app_cons c s1 s2 : String c s1 +:+ s2 = String c (s1 +:+ s2).
Proof. done. Qed.

Lemma app_nil_r s : s +:+ EmptyString = s.
Proof. induction s as [|c s IH]; [done|]. by rewrite app_cons, IH. Qed.

Lemma app_assoc s1 s2 s3 : (s1 +:+ s2) +:+ s3 = s1 +:+ s2 +:+ s3.
Proof. induction s1 as [|c s1 IH]; [done|]. by rewrite !app_cons, IH. Qed.

(** *** Decimal digits of a natural number *)

Lemma pretty_N_go_app x s : pretty_N_go x s = pretty_N_go x EmptyString +:+ s.
Proof.
  revert s. induction (N.lt_wf_0 x) as [x _ IH]; intros s.
  destruct (decide (x = 0)%N) as [->|Hx]; [done|].
  assert (x `div` 10 < x)%N as Hlt by (apply N.div_lt; lia).
  rewrite (pretty_N_go_step x s), (pretty_N_go_step x EmptyString) by lia.
  rewrite (IH _ Hlt (String _ s)), (IH _ Hlt (String _ EmptyString)).
  by rewrite app_assoc.
Qed.

Lemma pretty_N_go_snoc x :
  (0 < x)%N →
  pretty_N_go x EmptyString
  = pretty_N_go (x `div` 10)%N EmptyString
    +:+ String (pretty_N_char (x `mod` 10)%N) EmptyString.
Proof.
  intros Hx. rewrite pretty_N_go_step by done. apply pretty_N_go_app.
Qed.

Lemma pretty_N_char_digit x :
  (x < 10)%N →
  isDigit (pretty_N_char x) = true
  ∧ digitVal 10 (pretty_N_char x) = Some (Z.of_N x).
Proof.
  intros Hx.
  assert (x = 0 ∨ x = 1 ∨ x = 2 ∨ x = 3 ∨ x = 4 ∨ x = 5 ∨ x = 6
          ∨ x = 7 ∨ x = 8 ∨ x = 9)%N as Hc by lia.
  destruct_or!; subst x; by vm_compute.
Qed.

Lemma pretty_N_go_digits x : allChars isDigit (pretty_N_go x EmptyString) = true.
Proof.
  induction (N.lt_wf_0 x) as [x _ IH].
  destruct (decide (x = 0)%N) as [->|Hx]; [done|].
  rewrite pretty_N_go_snoc by lia. rewrite allChars_app.
  rewrite IH by (apply N.div_lt; lia). simpl.
  destruct (pretty_N_char_digit (x `mod` 10)%N) as [-> _]; [|done].
  apply N.mod_lt; lia.
Qed.

Lemma pretty_N_go_nonempty x :
  (0 < x)%N → pretty_N_go x EmptyString ≠ EmptyString.
Proof.
  intros Hx. rewrite pretty_N_go_snoc by done.
  by destruct (pretty_N_go _ _).
Qed.

Lemma pretty_N_digits (x : N) : allChars isDigit (pretty x) = true.
Proof.
  unfold pretty, pretty_N. case_decide; [done|]. apply pretty_N_go_digits.
Qed.

Lemma pretty_N_nonempty (x : N) : pretty x ≠ EmptyString.
Proof.
  unfold pretty, pretty_N. case_decide; [done|].
  apply pretty_N_go_nonempty. lia.
Qed.

Lemma numToString_chars z : allChars isNumChar (numToString z) = true.
Proof.
  assert (∀ x : N, allChars isNumChar (pretty x) = true) as HN.
  { intros x. eapply allChars_impl, pretty_N_digits.
    intros c Hc. unfold isNumChar. by rewrite Hc. }
  unfold numToString, pretty, pretty_Z. destruct z as [|q|q]; [done|apply HN|].
  rewrite allChars_app. simpl. apply (HN (N.pos q)).
Qed.

(** *** [parseInt] reads back what [numToString] prints *)

(** The value of a string of decimal digits, read left to right. *)
Fixpoint decVal (acc : Z) (s : string) : Z :=
  match s with
  | EmptyString => acc
  | String c s' => decVal (10 * acc + default 0%Z (digitVal 10 c)) s'
  end.

Lemma decVal_snoc acc s c :
  decVal acc (s +:+ String c EmptyString)
  = (10 * decVal acc s + default 0 (digitVal 10 c))%Z.
Proof.
  revert acc. induction s as [|c' s IH]; intros acc; [done|].
  rewrite app_cons. simpl. apply IH.
Qed.

Lemma decVal_pretty_N_go x : decVal 0 (pretty_N_go x EmptyString) = Z.of_N x.
Proof.
  induction (N.lt_wf_0 x) as [x _ IH].
  destruct (decide (x = 0)%N) as [->|Hx]; [done|].
  rewrite pretty_N_go_snoc by lia. rewrite decVal_snoc.
  rewrite IH by (apply N.div_lt; lia).
  destruct (pretty_N_char_digit (x `mod` 10)%N) as [_ ->];
    [apply N.mod_lt; lia|]. simpl.
  rewrite (N.div_mod x 10) at 3 by lia. lia.
Qed.

Lemma isDigit_digitVal c :
  isDigit c = true → ∃ d, digitVal 10 c = Some d.
Proof.
  unfold isDigit, digitVal. intros Hc%bool_decide_eq_true.
  rewrite bool_decide_true by lia. simpl.
  rewrite bool_decide_true by lia. eauto.
Qed.

Lemma parseDigits_digits acc s :
  allChars isDigit s = true → s ≠ EmptyString →
  parseDigits 10 acc s = Some (decVal (default 0%Z acc) s).
Proof.
  revert acc. induction s as [|c s IH]; intros acc Hs Hne; [done|].
  simpl in Hs. apply andb_true_iff in Hs as [Hc Hs].
  destruct (isDigit_digitVal c Hc) as [d Hd]. simpl. rewrite Hd. simpl.
  destruct s as [|c' s]; [done|]. by rewrite IH.
Qed.

Lemma isDigit_first c :
  isDigit c = true →
  isWhite c = false ∧ c ≠ "-"%char ∧ c ≠ "+"%char ∧ c ≠ "x"%char ∧ c ≠ "X"%char.
Proof.
  unfold isDigit, isWhite. intros Hc%bool_decide_eq_true.
  split_and!;
    [apply bool_decide_eq_false; rewrite !elem_of_cons, elem_of_nil; lia|..];
    intros ->; vm_compute in Hc; lia.
Qed.

Lemma parseUnsigned_digits s :
  allChars isDigit s = true → s ≠ EmptyString →
  parseUnsigned s = Some (decVal 0 s).
Proof.
  intros Hs Hne. rewrite <-(parseDigits_digits None) by done.
  destruct s as [|c [|c' s]]; [done..|].
  simpl in Hs. apply andb_true_iff in Hs as [_ [Hc' _]%andb_true_iff].
  destruct (isDigit_first c' Hc') as (_ & _ & _ & Hx & HX).
  unfold parseUnsigned. rewrite decide_False; [done|]. by intros [_ [?|?]].
Qed.

(** [parseInt] on a non-empty string of decimal digits. *)
Lemma parseInt_digits s :
  allChars isDigit s = true → s ≠ EmptyString →
  parseInt s = Some (decVal 0 s).
Proof.
  intros Hs Hne. rewrite <-parseUnsigned_digits by done.
  destruct s as [|c s]; [done|].
  simpl in Hs. apply andb_true_iff in Hs as [Hc _].
  destruct (isDigit_first c Hc) as (Hw & Hm & Hp & _).
  unfold parseInt. cbn [trimStart]. rewrite Hw.
  by rewrite !decide_False by done.
Qed.

Lemma decVal_pretty_N (x : N) : decVal 0 (pretty x) = Z.of_N x.
Proof.
  unfold pretty, pretty_N. case_decide as Hx; [by subst|].
  apply decVal_pretty_N_go.
Qed.

Lemma parseInt_numToString z : parseInt (numToString z) = Some z.
Proof.
  unfold numToString, pretty, pretty_Z. destruct z as [|q|q]; [done|..].
  - change (pretty q) with (pretty (N.pos q)).
    rewrite parseInt_digits by auto using pretty_N_digits, pretty_N_nonempty.
    by rewrite decVal_pretty_N.
  - change (pretty q) with (pretty (N.pos q)).
    change ("-" +:+ ?t) with (String "-"%char t).
    unfold parseInt. cbn [trimStart].
    replace (isWhite "-") with false by done.
    rewrite decide_True by done.
    rewrite parseUnsigned_digits
      by auto using pretty_N_digits, pretty_N_nonempty.
    by rewrite decVal_pretty_N.
Qed.

Global Instance numToString_inj : Inj (=) (=) numToString.
Proof.
  intros x y Hxy. apply (f_equal parseInt) in Hxy.
  rewrite !parseInt_numToString in Hxy. congruence.
Qed.

(** *** [split] undoes [join] *)

Lemma split_no_sep sep s :
  allChars (λ c, negb (bool_decide (c = sep))) s = true → split sep s = [s].
Proof.
  induction s as [|c s IH]; simpl; [done|].
  intros [Hc Hs]%andb_true_iff. apply negb_true_iff, bool_decide_eq_false in Hc.
  rewrite decide_False by done. by rewrite IH.
Qed.

Lemma split_app sep s1 s2 :
  allChars (λ c, negb (bool_decide (c = sep))) s1 = true →
  split sep (s1 +:+ String sep s2) = s1 :: split sep s2.
Proof.
  induction s1 as [|c s1 IH].
  - intros _. change (EmptyString +:+ ?s) with s. simpl.
    by rewrite decide_True.
  - intros [Hc Hs]%andb_true_iff.
    apply negb_true_iff, bool_decide_eq_false in Hc.
    rewrite app_cons. simpl. rewrite decide_False by done. by rewrite IH.
Qed.

Lemma split_join sep l :
  l ≠ [] →
  Forall (λ s, allChars (λ c, negb (bool_decide (c = sep))) s = true) l →
  split sep (join (String sep EmptyString) l) = l.
Proof.
  intros Hne Hl. induction Hl as [|s l Hs Hl IH]; [done|].
  destruct l as [|s' l]; [by apply split_no_sep|].
  change (join _ (s :: s' :: l))
    with (s +:+ String sep EmptyString +:+ join (String sep EmptyString) (s' :: l)).
  change (String sep EmptyString +:+ ?t) with (String sep t).
  rewrite split_app by done. by rewrite IH.
Qed.

End JSFacts.

(** ** The state model: keys, canonical order and serialisation *)

Module StateFacts.
Export Order.
Import JS JSFacts Solver.

Lemma isNumChar_not c sep :
  isNumChar sep = false → isNumChar c = true → negb (bool_decide (c = sep)) = true.
Proof.
  intros Hsep Hc. apply negb_true_iff, bool_decide_eq_false. congruence.
Qed.

Lemma numToString_no sep z :
  isNumChar sep = false →
  allChars (λ c, negb (bool_decide (c = sep))) (numToString z) = true.
Proof.
  intros Hsep. eapply allChars_impl, numToString_chars.
  intros c. by apply isNumChar_not.
Qed.

Lemma key_no_slash p :
  allChars (λ c, negb (bool_decide (c = "/"%char))) (key p) = true.
Proof.
  unfold key. rewrite !allChars_app, !numToString_no by done. done.
Qed.

Lemma split_key p :
  split ","%char (key p) = [numToString p.1; numToString p.2].
Proof.
  unfold key. change ("," +:+ ?t) with (String ","%char t).
  rewrite split_app by by apply numToString_no.
  by rewrite split_no_sep by by apply numToString_no.
Qed.

Lemma deserializePoint_key p : deserializePoint (key p) = Some p.
Proof.
  unfold deserializePoint. rewrite split_key. simpl.
  rewrite !parseInt_numToString. simpl. by destruct p.
Qed.

Global Instance key_inj : Inj (=) (=) key.
Proof.
  intros p q Hpq. apply (f_equal deserializePoint) in Hpq.
  rewrite !deserializePoint_key in Hpq. congruence.
Qed.

Lemma has_key_list (l : list Point) p :
  has (list_to_set (key <$> l)) (key p) = bool_decide (p ∈ l).
Proof.
  unfold has. apply bool_decide_ext. rewrite elem_of_list_to_set.
  rewrite list_elem_of_fmap. split; [|by eauto].
  intros (q & Hq & ?). by apply key_inj in Hq as ->.
Qed.

(** *** The canonical order *)

Lemma pointLe_yxLe a b : pointLe a b ↔ yxLe a b.
Proof. unfold pointLe, cmp, yxLe. case_decide; lia. Qed.

Global Instance pointLe_refl : Reflexive pointLe.
Proof. intros a. apply pointLe_yxLe. unfold yxLe. lia. Qed.
Global Instance pointLe_trans : Transitive pointLe.
Proof.
  intros a b c. rewrite !pointLe_yxLe. unfold yxLe. lia.
Qed.
Global Instance pointLe_total : Total pointLe.
Proof. intros a b. rewrite !pointLe_yxLe. unfold yxLe. lia. Qed.
Global Instance pointLe_antisym : AntiSymm (=) pointLe.
Proof.
  intros [ax ay] [bx by_]. rewrite !pointLe_yxLe. unfold yxLe. simpl.
  intros ??. f_equal; lia.
Qed.

Lemma sortPoints_sorted l : Sorted pointLe (sortPoints l).
Proof. apply (Sorted_merge_sort pointLe). Qed.

Lemma sortPoints_perm l : sortPoints l ≡ₚ l.
Proof. apply (merge_sort_Permutation pointLe). Qed.

Lemma sortPoints_elem l p : p ∈ sortPoints l ↔ p ∈ l.
Proof. by rewrite sortPoints_perm. Qed.

Lemma sortPoints_length l : length (sortPoints l) = length l.
Proof. by rewrite sortPoints_perm. Qed.

(** Sorting a sorted array changes nothing. *)
Lemma sortPoints_id l : Sorted pointLe l → sortPoints l = l.
Proof.
  intros Hl. apply (Sorted_unique pointLe); [apply sortPoints_sorted|done|].
  apply sortPoints_perm.
Qed.

(** The sorted array ascends by [y], then by [x]. *)
Lemma sortPoints_yxLe l : StronglySorted yxLe (sortPoints l).
Proof.
  rewrite <-(list_fmap_id (sortPoints l)).
  apply (StronglySorted_fmap id pointLe).
  - intros a b. apply pointLe_yxLe.
  - apply Sorted_StronglySorted; [apply _|apply sortPoints_sorted].
Qed.

Lemma sortPoints_keys l :
  list_to_set (key <$> sortPoints l) =@{gset string} list_to_set (key <$> l).
Proof.
  apply set_eq. intros k. rewrite !elem_of_list_to_set, !list_elem_of_fmap.
  by setoid_rewrite sortPoints_elem.
Qed.

(** *** [deserialize] after [serialize] *)

Lemma mapM_deserializePoint l : mapM deserializePoint (key <$> l) = Some l.
Proof.
  apply mapM_Some. induction l as [|p l IH]; constructor; [|done].
  apply deserializePoint_key.
Qed.

Lemma deserialize_serialize s : deserialize (serialize s) = Some (canon s).
Proof.
  unfold deserialize, serialize.
  rewrite (split_join "/"%char); [|done|].
  - rewrite mapM_deserializePoint. done.
  - apply Forall_fmap, Forall_forall. intros p _. apply key_no_slash.
Qed.

Lemma canon_canonical s : canonical (canon s).
Proof. split; [apply sortPoints_sorted|done]. Qed.

Lemma canon_id s : canonical s → canon s = s.
Proof.
  intros [Hs Hb]. destruct s as [p bs bset]. unfold canon. simpl in *.
  rewrite sortPoints_id by done. by rewrite Hb.
Qed.

Global Instance canonical_dec s : Decision (canonical s).
Proof. unfold canonical. apply _. Defined.

End StateFacts.

(** ** More on the serialisation and on the lines of the input *)

Module SerialFacts.
Import Solver StateFacts Parser.
Export Text.

(** The serialisation determines the player and the array of boxes. *)
Lemma serialize_eq s s' :
  serialize s = serialize s' ↔ player s = player s' ∧ boxes s = boxes s'.
Proof.
  split; [|unfold serialize; by intros [-> ->]].
  unfold serialize. intros Hser.
  apply (f_equal (JS.split "/"%char)) in Hser.
  assert (∀ l : list Point,
            Forall (λ k, JSFacts.allChars
                           (λ c, negb (bool_decide (c = "/"%char))) k = true)
              (key <$> l)) as Hkeys.
  { intros l. apply Forall_fmap, Forall_forall. intros p _.
    apply key_no_slash. }
  rewrite !(JSFacts.split_join "/"%char) in Hser by (done || apply Hkeys).
  apply (inj (fmap key)) in Hser. by simplify_eq.
Qed.

(** Whatever [deserialize] returns is in canonical form. *)
Lemma deserialize_canon k s : deserialize k = Some s → canonical s.
Proof.
  unfold deserialize. destruct (mapM _ _) as [[|p bs]|]; simpl; [done| |done].
  intros [= <-]. split; [apply sortPoints_sorted|done].
Qed.

Lemma splitLines_nonempty s : splitLines s ≠ [].
Proof.
  destruct s as [|c s]; simpl; [done|].
  case_decide; [done|]. destruct (splitLines s); [done|]. by case_decide.
Qed.

(** The lines are the same with either line ending. *)
Lemma splitLines_crlf s : splitLines (crlf s) = splitLines s.
Proof.
  induction s as [|c s IH]; [done|]. cbn [crlf]. case_decide as Hc.
  - subst c. cbn [splitLines]. rewrite decide_False by done.
    rewrite !decide_True by done. rewrite IH.
    by rewrite decide_True by (split_and!; [done..|apply splitLines_nonempty]).
  - cbn [splitLines]. rewrite !decide_False by done. by rewrite IH.
Qed.

End SerialFacts.

(** ** Strings by their last character *)

Module StringFacts.

Lemma string_length_app s1 s2 :
  String.length (s1 +:+ s2) = (String.length s1 + String.length s2)%nat.
Proof.
  induction s1 as [|c s1 IH]; [done|].
  rewrite JSFacts.app_cons. simpl. by rewrite IH.
Qed.

(** A non-empty string ends in a character. *)
Lemma string_snoc s :
  s ≠ EmptyString → ∃ s' c, s = s' +:+ String c EmptyString.
Proof.
  induction s as [|c s IH]; [done|]. intros _.
  destruct s as [|c' s].
  - by exists EmptyString, c.
  - destruct IH as (s' & c'' & ->); [done|].
    by exists (String c s'), c''.
Qed.

Lemma string_rev_ind (P : string → Prop) :
  P EmptyString → (∀ s c, P s → P (s +:+ String c EmptyString)) →
  ∀ s, P s.
Proof.
  intros Hnil Hsnoc s. remember (String.length s) as n eqn:Hn.
  revert s Hn. induction n as [|n IH]; intros s Hn.
  - by destruct s.
  - destruct (string_snoc s) as (s' & c & ->); [by destruct s|].
    apply Hsnoc, IH. rewrite string_length_app in Hn. simpl in Hn. lia.
Qed.

End StringFacts.

(** ** The rows of a text

    The rows the parser computes are the rows of the text, and a text has
    one list of rows. *)

Module TextFacts.
Import JS Parser Text StringFacts.

Lemma chars_app s1 s2 : chars (s1 +:+ s2) = chars s1 ++ chars s2.
Proof. induction s1 as [|c s1 IH]; [done|]. simpl. by rewrite IH. Qed.

Lemma blank_app s1 s2 : blank (s1 +:+ s2) ↔ blank s1 ∧ blank s2.
Proof. unfold blank. rewrite chars_app. apply Forall_app. Qed.

Lemma isWhite_white c : isWhite c = true ↔ white c.
Proof.
  unfold white. rewrite <-(bool_decide_eq_true (c ∈ _)).
  assert (isWhite c
          = bool_decide
              (c ∈ ["009"; "010"; "011"; "012"; "013"; " "; "160"]%char))
    as ->; [|done].
  destruct c as [[] [] [] [] [] [] [] []]; vm_compute; reflexivity.
Qed.

(** Reversal *)
Lemma rev_app_append s1 s2 : String.rev_app s1 s2 = String.rev s1 +:+ s2.
Proof.
  unfold String.rev. revert s2. induction s1 as [|c s1 IH]; intros s2; [done|].
  cbn [String.rev_app].
  rewrite (IH (String c s2)), (IH (String c EmptyString)).
  by rewrite JSFacts.app_assoc.
Qed.

Lemma rev_cons c s : String.rev (String c s) = String.rev s +:+ String c EmptyString.
Proof. unfold String.rev at 1. simpl. apply rev_app_append. Qed.

Lemma rev_append s1 s2 : String.rev (s1 +:+ s2) = String.rev s2 +:+ String.rev s1.
Proof.
  induction s1 as [|c s1 IH].
  - by rewrite JSFacts.app_nil_r.
  - rewrite JSFacts.app_cons, !rev_cons, IH. by rewrite JSFacts.app_assoc.
Qed.

Lemma rev_rev s : String.rev (String.rev s) = s.
Proof.
  induction s as [|c s IH]; [done|]. rewrite rev_cons, rev_append, IH. done.
Qed.

Lemma blank_rev s : blank s → blank (String.rev s).
Proof.
  induction s as [|c s IH]; [done|]. intros [Hc Hs]%Forall_cons.
  rewrite rev_cons. apply blank_app. split; [by apply IH|].
  by apply Forall_singleton.
Qed.

(** [trimStart] *)
Lemma trimStart_spec s :
  (∃ pre, s = pre +:+ trimStart s ∧ blank pre)
  ∧ ∀ c r, trimStart s = String c r → ¬ white c.
Proof.
  induction s as [|c s [(pre & Hpre & Hblank) Hfirst]]; simpl.
  { split; [|done]. exists EmptyString. split; [done|constructor]. }
  destruct (isWhite c) eqn:Hc.
  - split; [|done]. exists (String c pre). rewrite JSFacts.app_cons.
    split; [by rewrite <-Hpre|].
    apply Forall_cons. split; [by apply isWhite_white|done].
  - split; [exists EmptyString; split; [done|constructor]|].
    intros c' r [= <- _] Hw%isWhite_white.
    congruence.
Qed.

Lemma trim_trimmed s : trimmed s (trim s).
Proof.
  unfold trim, trimEnd.
  destruct (trimStart_spec s) as [(pre & Hpre & Hblank) Hfirst].
  set (t := trimStart s) in *.
  destruct (trimStart_spec (String.rev t)) as [(post & Hpost & Hblank') Hlast].
  set (u := trimStart (String.rev t)) in *.
  assert (t = String.rev u +:+ String.rev post) as Ht.
  { by rewrite <-rev_append, <-Hpost, rev_rev. }
  split_and!.
  - exists pre, (String.rev post). split_and!; [|done|by apply blank_rev].
    by rewrite <-Ht.
  - intros c r Hu. apply (Hfirst c (r +:+ String.rev post)).
    by rewrite Ht, Hu.
  - intros r c Hu. apply (Hlast c (String.rev r)).
    rewrite <-(rev_rev u), Hu, rev_append. done.
Qed.

(** The pieces [split(/\r*\n/)] cuts are the lines, less the carriage
    returns a line ends in. *)
Definition returns (crs : string) : Prop := Forall (λ c, c = CR) (chars crs).

Lemma unlines_cons l ls :
  ls ≠ [] → unlines (l :: ls) = l +:+ String LF (unlines ls).
Proof. by destruct ls. Qed.

Lemma splitLines_lines input :
  ∃ ls, lines input ls
        ∧ Forall2 (λ a l, ∃ crs, l = a +:+ crs ∧ returns crs)
            (splitLines input) ls.
Proof.
  induction input as [|c s (ls & (Hne & Hglue & Hlf) & Hall)].
  { exists [EmptyString]. split.
    - split_and!; [done..|]. apply Forall_singleton. by intros ?%elem_of_nil.
    - apply Forall2_cons. split; [|constructor].
      exists EmptyString. split; [done|constructor]. }
  cbn [splitLines]. case_decide as Hc.
  { subst c. exists (EmptyString :: ls). split.
    - split_and!; [done| |].
      + rewrite unlines_cons by done. by rewrite Hglue.
      + apply Forall_cons. split; [by intros ?%elem_of_nil|done].
    - apply Forall2_cons. split; [|done].
      exists EmptyString. split; [done|constructor]. }
  destruct Hall as [|h l t ls' (crs & -> & Hcrs) Hall]; [done|].
  exists (String c (h +:+ crs) :: ls'). split.
  - split_and!; [done| |].
    + destruct ls' as [|l' ls']; [simpl in *; by rewrite Hglue|].
      rewrite unlines_cons in * by done. by rewrite JSFacts.app_cons, Hglue.
    + apply Forall_cons in Hlf as [Hh Hls']. apply Forall_cons.
      split; [|done]. simpl. intros [Heq|?]%elem_of_cons; [by subst|done].
  - case_decide as Hcr.
    + destruct Hcr as (-> & -> & Ht). apply Forall2_cons. split; [|done].
      exists (String CR crs). split; [done|]. by apply Forall_cons.
    + apply Forall2_cons. split; [|done]. by exists crs.
Qed.

Lemma white_CR : white CR.
Proof. unfold white, CR. rewrite !elem_of_cons. tauto. Qed.

Lemma returns_blank crs : returns crs → blank crs.
Proof.
  unfold returns, blank. intros H. eapply Forall_impl; [exact H|].
  intros c ->. apply white_CR.
Qed.

Lemma trimmed_returns a crs row :
  returns crs → trimmed a row → trimmed (a +:+ crs) row.
Proof.
  intros Hcrs ((pre & post & -> & Hpre & Hpost) & Hfirst & Hlast).
  split_and!; [|done..].
  exists pre, (post +:+ crs). split_and!; [|done|].
  - by rewrite !JSFacts.app_assoc.
  - apply blank_app. split; [done|by apply returns_blank].
Qed.

(** The rows the parser works on are the rows of the text. *)
Lemma rowsOf_rows input : rows input (rowsOf input).
Proof.
  destruct (splitLines_lines input) as (ls & Hlines & Hall).
  exists ls, (trim <$> splitLines input). split_and!; [done| |done].
  apply Forall2_fmap_r, Forall2_flip.
  eapply Forall2_impl; [exact Hall|].
  intros a l (crs & -> & Hcrs). apply trimmed_returns; [done|].
  apply trim_trimmed.
Qed.

(** A text has one list of lines. *)
Lemma cut_unique l l' rest rest' :
  LF ∉ chars l → LF ∉ chars l' →
  l +:+ String LF rest = l' +:+ String LF rest' → l = l' ∧ rest = rest'.
Proof.
  revert l'. induction l as [|c l IH]; intros [|c' l'] Hl Hl' Heq;
    rewrite ?JSFacts.app_cons in Heq; simpl in *.
  - by injection Heq.
  - injection Heq as <- _. exfalso. apply Hl'. by left.
  - injection Heq as -> _. exfalso. apply Hl. by left.
  - injection Heq as <- Heq. rewrite not_elem_of_cons in Hl, Hl'.
    destruct (IH l') as [-> ->]; [tauto..|done|done].
Qed.

Lemma uncut l l' rest :
  LF ∉ chars l → l = l' +:+ String LF rest → False.
Proof.
  intros Hl ->. apply Hl. rewrite chars_app. apply elem_of_app. right.
  by left.
Qed.

Lemma lines_unique input ls ls' : lines input ls → lines input ls' → ls = ls'.
Proof.
  intros (Hne & <- & Hlf) (Hne' & Heq & Hlf').
  revert ls' Hne' Heq Hlf'.
  induction Hlf as [|l ls Hl Hlf IH]; [done|]. clear Hne.
  intros ls' Hne' Heq Hlf'. destruct Hlf' as [|l' ls' Hl' Hlf']; [done|].
  clear Hne'. destruct ls as [|k ls], ls' as [|k' ls'].
  - simpl in Heq. by subst.
  - rewrite unlines_cons in Heq by done. simpl in Heq.
    by destruct (uncut l l' _ Hl (eq_sym Heq)).
  - rewrite (unlines_cons l) in Heq by done. simpl in Heq.
    by destruct (uncut l' l _ Hl' Heq).
  - rewrite !unlines_cons in Heq by done.
    destruct (cut_unique _ _ _ _ Hl' Hl Heq) as [-> Hrest].
    f_equal. by apply IH.
Qed.

(** A line has one trimmed form. *)
Lemma blank_prefix pre pre' s s' :
  blank pre → blank pre' →
  (∀ c r, s = String c r → ¬ white c) → s ≠ EmptyString →
  (∀ c r, s' = String c r → ¬ white c) → s' ≠ EmptyString →
  pre +:+ s = pre' +:+ s' → s = s'.
Proof.
  intros Hpre Hpre' Hs Hne Hs' Hne'. revert pre' Hpre'.
  induction pre as [|c pre IH]; intros [|c' pre'] Hpre' Heq;
    rewrite ?JSFacts.app_cons in Heq; simpl in Heq.
  - done.
  - apply Forall_cons in Hpre' as [Hc' _]. by destruct (Hs _ _ Heq).
  - apply Forall_cons in Hpre as [Hc _]. by destruct (Hs' _ _ (eq_sym Heq)).
  - injection Heq as _ Heq. apply Forall_cons in Hpre as [_ Hpre].
    apply Forall_cons in Hpre' as [_ Hpre']. by apply (IH Hpre pre').
Qed.

Lemma last_not_white row :
  (∀ r c, row = r +:+ String c EmptyString → ¬ white c) →
  row ≠ EmptyString → ¬ blank row.
Proof.
  intros Hlast Hne Hblank. destruct (string_snoc row Hne) as (r & c & ->).
  apply (Hlast r c eq_refl). apply blank_app in Hblank as [_ Hc].
  by apply Forall_cons in Hc as [Hc _].
Qed.

Lemma blank_suffix row row' post post' :
  blank post → blank post' →
  (∀ r c, row = r +:+ String c EmptyString → ¬ white c) →
  (∀ r c, row' = r +:+ String c EmptyString → ¬ white c) →
  row +:+ post = row' +:+ post' → row = row'.
Proof.
  intros Hpost Hpost'. revert row'.
  induction row as [|c row IH]; intros [|c' row'] Hrow Hrow' Heq;
    rewrite ?JSFacts.app_cons in Heq; simpl in Heq.
  - done.
  - destruct (last_not_white (String c' row') Hrow'); [done|].
    assert (blank (String c' row' +:+ post')) as Hb by by rewrite JSFacts.app_cons, <-Heq.
    by apply blank_app in Hb as [Hb _].
  - destruct (last_not_white (String c row) Hrow); [done|].
    assert (blank (String c row +:+ post)) as Hb by by rewrite JSFacts.app_cons, Heq.
    by apply blank_app in Hb as [Hb _].
  - injection Heq as <- Heq. f_equal. apply IH; [| |done].
    + intros r d ->. by apply (Hrow (String c r) d).
    + intros r d ->. by apply (Hrow' (String c r) d).
Qed.

Lemma trimmed_unique line row row' :
  trimmed line row → trimmed line row' → row = row'.
Proof.
  intros ((pre & post & -> & Hpre & Hpost) & Hfirst & Hlast)
         ((pre' & post' & Heq & Hpre' & Hpost') & Hfirst' & Hlast').
  assert (∀ pre post pre' row' post',
    blank pre → blank post →
    pre +:+ EmptyString +:+ post = pre' +:+ row' +:+ post' →
    (∀ r c, row' = r +:+ String c EmptyString → ¬ white c) →
    row' = EmptyString) as Hempty.
  { intros p q p' r' q' Hp Hq Hpq Hl.
    destruct (decide (r' = EmptyString)) as [|Hne]; [done|].
    destruct (last_not_white r' Hl Hne).
    assert (blank (p' +:+ r' +:+ q')) as Hb.
    { rewrite <-Hpq. apply blank_app. split; [done|exact Hq]. }
    apply blank_app in Hb as [_ Hb]. by apply blank_app in Hb as [Hb _]. }
  destruct (decide (row = EmptyString)) as [->|Hne].
  { symmetry. by eapply (Hempty pre post pre' row' post'). }
  destruct (decide (row' = EmptyString)) as [->|Hne'].
  { by eapply (Hempty pre' post' pre row post). }
  apply (blank_suffix row row' post post'); [done..|].
  apply (blank_prefix pre pre'); [done..| | | | |done].
  - intros c r Hc. destruct row as [|d row]; [done|].
    rewrite JSFacts.app_cons in Hc. injection Hc as -> _. by eapply Hfirst.
  - by destruct row.
  - intros c r Hc. destruct row' as [|d row']; [done|].
    rewrite JSFacts.app_cons in Hc. injection Hc as -> _. by eapply Hfirst'.
  - by destruct row'.
Qed.

Lemma rows_unique input rs rs' : rows input rs → rows input rs' → rs = rs'.
Proof.
  intros (ls & ts & Hlines & Hall & ->) (ls' & ts' & Hlines' & Hall' & ->).
  rewrite <-(lines_unique _ _ _ Hlines Hlines') in Hall'. f_equal.
  clear Hlines Hlines'. revert ts' Hall'.
  induction Hall as [|l t ls0 ts0 Ht _ IH]; intros ts' Hall'.
  - by apply Forall2_nil_inv_l in Hall'.
  - apply Forall2_cons_inv_l in Hall' as (t' & ts1 & Ht' & Hall' & ->).
    f_equal; [by eapply trimmed_unique|by apply IH].
Qed.

End TextFacts.

(** ** The engine: transitions and the breadth-first search

    Proved once over the rules, for the solver of [src/lib.ts] and for the
    variant. *)

Module EngineFacts.
Export Moves StringFacts.

Section basics.
Local Open Scope Z_scope.
Import Solver StateFacts.

Variable m : SokobanMap.

Lemma dirOf_nonzero c d : dirOf c = Some d → d ≠ (0, 0).
Proof. unfold dirOf. repeat case_decide; naive_solver. Qed.

Lemma dirOf_opp c d :
  dirOf c = Some d → ∃ c', dirOf c' = Some (- d.1, - d.2).
Proof.
  unfold dirOf. repeat case_decide; intros; simplify_eq/=.
  - by exists "S"%char.
  - by exists "D"%char.
  - by exists "W"%char.
  - by exists "A"%char.
Qed.

Lemma dirOf_cases c d :
  dirOf c = Some d →
  (c = "W"%char ∧ d = (0, -1)) ∨ (c = "A"%char ∧ d = (-1, 0))
  ∨ (c = "S"%char ∧ d = (0, 1)) ∨ (c = "D"%char ∧ d = (1, 0)).
Proof. unfold dirOf. repeat case_decide; naive_solver. Qed.

Lemma serialize_canon_eq s s' :
  serialize s = serialize s' → canon s = canon s'.
Proof.
  intros Hser. apply (f_equal deserialize) in Hser.
  rewrite !deserialize_serialize in Hser. congruence.
Qed.

Lemma serialize_inj s s' :
  canonical s → canonical s' → serialize s = serialize s' → s = s'.
Proof.
  intros Hs Hs' Hser%serialize_canon_eq. by rewrite !canon_id in Hser.
Qed.

Lemma serialize_player s s' :
  serialize s = serialize s' → player s = player s'.
Proof.
  intros Hser%serialize_canon_eq. by apply (f_equal player) in Hser.
Qed.

Lemma deserialize_canonical s :
  canonical s → deserialize (serialize s) = Some s.
Proof. intros Hs. by rewrite deserialize_serialize, canon_id. Qed.

Lemma isComplete_goals s :
  boxSet s = list_to_set (key <$> boxes s) →
  isComplete m s = true → boxSet s ⊆ goalSet m.
Proof.
  intros Hset Hc k. rewrite Hset, elem_of_list_to_set, list_elem_of_fmap.
  intros (p & -> & Hp). unfold isComplete in Hc.
  rewrite forallb_forall in Hc. apply list_elem_of_In, Hc in Hp.
  by apply bool_decide_eq_true in Hp.
Qed.

Lemma isComplete_boxes s s' :
  boxes s = boxes s' → isComplete m s = isComplete m s'.
Proof. unfold isComplete. by intros ->. Qed.

End basics.

Section engine.
Local Open Scope Z_scope.
Import Solver StateFacts Engine.

Variable m : Rules.

Lemma replay_append p q s : replay m (p +:+ q) s = replay m p s ≫= replay m q.
Proof.
  revert s. induction p as [|c p IH]; intros s; [done|].
  rewrite JSFacts.app_cons. simpl.
  destruct (dirOf c) as [d|]; [|done]. simpl.
  destruct (nextState m s d) as [s'|]; [|done]. simpl. apply IH.
Qed.

(** What a successful [nextState] tells: the target cell is inside the
    grid and no wall; then a plain step, or a push. *)
Lemma nextState_accepts s d w :
  nextState m s d = Some w →
  inBounds m (shift (player s) d) ∧ (key (shift (player s) d) ∉ wallSet m)
  ∧ player w = shift (player s) d
  ∧ (((key (shift (player s) d) ∉ boxSet s) ∧ boxes w = boxes s
      ∧ boxSet w = boxSet s ∧ check m w = false)
     ∨ (key (shift (player s) d) ∈ boxSet s
        ∧ (key (shift (shift (player s) d) d) ∉ wallSet m)
        ∧ (key (shift (shift (player s) d) d) ∉ boxSet s)
        ∧ boxes w = sortPoints (filter (λ p : Point,
                                 p.1 ≠ (shift (player s) d).1
                                 ∨ p.2 ≠ (shift (player s) d).2)
                                  (boxes s) ++ [shift (shift (player s) d) d])
        ∧ boxSet w = list_to_set (key <$> boxes w))).
Proof.
  unfold nextState, has, shift, inBounds. simpl.
  repeat case_bool_decide; try done.
  - intros [= <-]. simpl. split_and!; [lia..|done|done|]. right. done.
  - destruct (check m _) eqn:Hinv; [done|].
    intros [= <-]. simpl. split_and!; [lia..|done|done|]. left. done.
Qed.

(** A plain step onto a free cell is accepted when the deadlock check
    passes. *)
Lemma nextState_walks s d :
  inBounds m (shift (player s) d) →
  key (shift (player s) d) ∉ wallSet m →
  key (shift (player s) d) ∉ boxSet s →
  check m {| player := shift (player s) d; boxes := boxes s;
                 boxSet := boxSet s |} = false →
  nextState m s d
  = Some {| player := shift (player s) d; boxes := boxes s;
            boxSet := boxSet s |}.
Proof.
  unfold nextState, has, shift, inBounds. simpl. intros ??? Hinv.
  rewrite bool_decide_false by lia. rewrite !bool_decide_false by done.
  by rewrite Hinv.
Qed.

(** The four ways in which [nextState] refuses a move. A push is refused
    only when the cell behind the box is a wall or a box; [check] is
    asked about plain steps alone. *)
Lemma nextState_refuses s d :
  nextState m s d = None
  ↔ ¬ inBounds m (shift (player s) d)
    ∨ key (shift (player s) d) ∈ wallSet m
    ∨ (key (shift (player s) d) ∈ boxSet s
       ∧ (key (shift (shift (player s) d) d) ∈ wallSet m
          ∨ key (shift (shift (player s) d) d) ∈ boxSet s))
    ∨ ((key (shift (player s) d) ∉ boxSet s)
       ∧ check m {| player := shift (player s) d; boxes := boxes s;
                        boxSet := boxSet s |} = true).
Proof.
  unfold nextState, has, shift, inBounds. simpl.
  destruct (check m _) eqn:Hinv;
    repeat case_bool_decide; split; try done; try tauto; try (intros _; lia).
  all: intros [?| [?| [[? ?]|[? ?]]]]; try tauto; try lia; done.
Qed.

(** [nextState] keeps states canonical and leaves the player settled. *)
Lemma nextState_keeps_canonical s d w :
  canonical s → nextState m s d = Some w → d ≠ (0, 0) →
  canonical w ∧ settled m w.
Proof.
  intros [Hsort Hset] Hw Hd. apply nextState_accepts in Hw.
  destruct Hw as (Hin & Hwall & Hpl
    & [(Hfree & Hb & Hbs & _)|(Hbox & _ & _ & Hb & Hbs)]).
  - split; [split; congruence|]. split_and!; [congruence..|].
    rewrite Hpl, Hb. intros Hel. apply Hfree. rewrite Hset.
    apply elem_of_list_to_set, list_elem_of_fmap. eauto.
  - split; [split; [rewrite Hb; apply sortPoints_sorted|done]|].
    split_and!; [congruence..|].
    rewrite Hpl, Hb, sortPoints_elem, elem_of_app, list_elem_of_filter.
    rewrite list_elem_of_singleton. intros [[Hne _]|Heq]; [tauto|].
    apply Hd. unfold shift in Heq. destruct d as [dx dy]. simpl in *.
    simplify_eq. f_equal; lia.
Qed.



Lemma replay_canonical p s s' :
  canonical s → replay m p s = Some s' → canonical s'.
Proof.
  revert s. induction p as [|c p IH]; intros s Hs; simpl.
  - by intros [= <-].
  - destruct (dirOf c) as [d|] eqn:Hd; [|done]. simpl.
    destruct (nextState m s d) as [w|] eqn:Hw; [|done]. simpl.
    apply IH. eapply nextState_keeps_canonical; eauto using dirOf_nonzero.
Qed.

Lemma replay_snoc p c s s' :
  replay m (p +:+ String c EmptyString) s = Some s' ↔
  ∃ s1 d, replay m p s = Some s1 ∧ dirOf c = Some d
          ∧ nextState m s1 d = Some s'.
Proof.
  rewrite replay_append. split.
  - destruct (replay m p s) as [s1|]; [|done]. simpl.
    destruct (dirOf c) as [d|]; [|done]. simpl.
    destruct (nextState m s1 d) as [w|] eqn:Hw; [|done]. simpl.
    intros [= <-]. eauto.
  - intros (s1 & d & -> & Hd & Hw). simpl. rewrite Hd. simpl.
    by rewrite Hw.
Qed.

(** After at least one move the player stands inside the grid, off the
    walls and off the boxes. *)
Lemma replay_settled p s s' :
  canonical s → p ≠ EmptyString → replay m p s = Some s' → settled m s'.
Proof.
  intros Hs Hp Hrep. apply string_snoc in Hp as (p1 & c & ->).
  apply replay_snoc in Hrep as (s1 & d & Hs1 & Hd & Hw).
  eapply (nextState_keeps_canonical s1 d s');
    eauto using replay_canonical, dirOf_nonzero.
Qed.

(** A move never leaves the player in place. *)
Lemma nextState_player s d w :
  nextState m s d = Some w → d ≠ (0, 0) → player w ≠ player s.
Proof.
  intros (_ & _ & Hpl & _)%nextState_accepts Hd Heq. apply Hd.
  rewrite Hpl in Heq. unfold shift in Heq.
  destruct d, (player s). simpl in *. simplify_eq. f_equal; lia.
Qed.

(** The deadlock check flags no state whose boxes are all on goals. *)
Hypothesis Hgoals : ∀ s, boxSet s ⊆ goalSet m → check m s = false.

(** If a complete state is reached again by one or more moves, one of its
    own neighbours is reached by a plain step, so is complete too. *)
Lemma complete_cycle s p :
  canonical s → isComplete m s = true → p ≠ EmptyString →
  replay m p s = Some s →
  ∃ c d w, dirOf c = Some d ∧ nextState m s d = Some w
           ∧ isComplete m w = true.
Proof.
  intros Hs Hc Hp Hrep. apply string_snoc in Hp as (p1 & c & ->).
  apply replay_snoc in Hrep as (s1 & d & Hs1 & Hd & Hw).
  pose proof (dirOf_nonzero _ _ Hd) as Hd0.
  destruct (decide (p1 = EmptyString)) as [->|Hp1].
  { simpl in Hs1. simplify_eq. by apply nextState_player in Hw. }
  pose proof (replay_canonical _ _ _ Hs Hs1) as Hs1c.
  pose proof (replay_settled _ _ _ Hs Hp1 Hs1) as (Hin & Hwall & Hbox).
  destruct (dirOf_opp _ _ Hd) as (c' & Hd').
  assert (shift (player s) (- d.1, - d.2) = player s1) as Hback.
  { apply nextState_accepts in Hw as (_ & _ & -> & _). unfold shift.
    destruct d, (player s1). simpl. f_equal; lia. }
  assert (player s1 ∉ boxes s) as Hfree.
  { apply nextState_accepts in Hw
      as (_ & _ & Hpl & [(_ & -> & _)|(_ & _ & _ & -> & _)]); [done|].
    rewrite sortPoints_elem, elem_of_app, list_elem_of_filter.
    rewrite list_elem_of_singleton. intros [[_ ?]|Heq]; [done|].
    apply Hd0. unfold shift in Heq. destruct d, (player s1). simpl in *.
    simplify_eq. f_equal; lia. }
  destruct Hs as [Hsort Hset].
  eexists c', _, _. split; [done|]. split.
  - apply nextState_walks; rewrite Hback; [done..| |].
    + rewrite Hset, elem_of_list_to_set, list_elem_of_fmap.
      intros (q & Hq%key_inj & ?). by subst.
    + apply Hgoals. simpl. by apply isComplete_goals.
  - by rewrite <-Hc.
Qed.

(** *** Invariants of the loop *)

Variable s0 : SokobanState.
Hypothesis Hs0 : canonical s0.

(** Every move out of the state stored under [k], whose path is [q], leads
    to a visited state whose path is at most one move longer. *)
Definition closed (V : gmap string string) (k q : string) : Prop :=
  ∀ s c d w,
    deserialize k = Some s → dirOf c = Some d → nextState m s d = Some w →
    ∃ q', V !! serialize w = Some q'
          ∧ (String.length q' ≤ S (String.length q))%nat.

(** The visited index: each entry is the serialisation of a canonical
    state together with a path of at most [i] moves that reaches it; the
    initial state is in; no other entry is complete. *)
Record visitedOk (i : nat) (V : gmap string string) : Prop := {
  v_sound : ∀ k q, V !! k = Some q →
    ∃ s, canonical s ∧ serialize s = k ∧ replay m q s0 = Some s
         ∧ (String.length q ≤ i)%nat;
  v_init : V !! serialize s0 = Some EmptyString;
  v_incomplete : ∀ s q,
    canonical s → V !! serialize s = Some q → isComplete m s = true → s = s0;
}.

(** At the head of the [while] loop, [i] layers done: the frontier is
    the set of entries whose path has [i] moves, the entries with a shorter
    path are closed. *)
Record loopInv (i : nat) (V : gmap string string) (cur : list string)
    : Prop := {
  l_visited : visitedOk i V;
  l_cur : ∀ k, k ∈ cur → ∃ q, V !! k = Some q ∧ String.length q = i;
  l_front : ∀ k q, V !! k = Some q → String.length q = i → k ∈ cur;
  l_closed : ∀ k q,
    V !! k = Some q → (String.length q < i)%nat → closed V k q;
}.

(** Inside the [for] loop of layer [i], which started from the index [V]:
    the index only grew, by entries with [i + 1] moves, which are the
    elements of [next]. *)
Record layerInv (i : nat) (V : gmap string string) (vn : frontier)
    : Prop := {
  y_visited : visitedOk (S i) vn.1;
  y_extends : V ⊆ vn.1;
  y_new : ∀ k q, vn.1 !! k = Some q → V !! k = None →
    String.length q = S i ∧ k ∈ vn.2;
  y_next : ∀ k, k ∈ vn.2 → V !! k = None ∧ is_Some (vn.1 !! k);
}.

Lemma closed_mono V V' k q : V ⊆ V' → closed V k q → closed V' k q.
Proof.
  intros Hsub Hcl s c d w Hk Hd Hw.
  destruct (Hcl s c d w Hk Hd Hw) as (q' & Hq' & ?).
  exists q'. split; [|done]. by eapply lookup_weaken.
Qed.

Lemma visit_spec i V vn s q c d :
  layerInv i V vn → canonical s → replay m q s0 = Some s →
  String.length q = i → dirOf c = Some d →
  match visit m s q d (String c EmptyString) vn with
  | Found p =>
      p = q +:+ String c EmptyString
      ∧ ∃ w, nextState m s d = Some w ∧ isComplete m w = true
  | Continue vn' =>
      layerInv i V vn' ∧ vn.1 ⊆ vn'.1
      ∧ ∀ w, nextState m s d = Some w → is_Some (vn'.1 !! serialize w)
  end.
Proof.
  intros Hinv Hs Hq Hlen Hd. unfold visit.
  destruct (nextState m s d) as [w|] eqn:Hw; [|done].
  case_bool_decide as Hvis.
  { split_and!; [done..|]. by intros ? [= <-]. }
  apply eq_None_not_Some in Hvis.
  destruct (isComplete m w) eqn:Hc; [by eauto|].
  destruct (nextState_keeps_canonical s d w Hs Hw) as [Hwc _];
    [by eapply dirOf_nonzero|].
  destruct Hinv as [[Hsound Hinit Hinc] Hext Hnew Hnext]. simpl.
  split_and!.
  - split; simpl.
    + split.
      * intros k q'. rewrite lookup_insert. case_decide as Hk.
        -- intros [= <-]. exists w. split_and!; [done..| |].
           ++ apply replay_snoc. eauto.
           ++ rewrite string_length_app. simpl. lia.
        -- apply Hsound.
      * rewrite lookup_insert_ne; [done|]. intros Heq.
        rewrite Heq in Hvis. congruence.
      * intros s' q' Hs'. rewrite lookup_insert. case_decide as Hk.
        -- apply serialize_inj in Hk; [|done..]. subst s'. congruence.
        -- by apply Hinc.
    + etrans; [done|]. by apply insert_subseteq.
    + intros k q'. rewrite lookup_insert. case_decide as Hk.
      * intros [= <-] _. subst k.
        split; [|apply elem_of_app; right; by apply list_elem_of_singleton].
        rewrite string_length_app. simpl. lia.
      * intros Hk' HV. destruct (Hnew k q' Hk' HV). split; [done|].
        apply elem_of_app. by left.
    + intros k [Hk|Hk%list_elem_of_singleton]%elem_of_app.
      * destruct (Hnext k Hk) as [? [q' Hq']]. split; [done|].
        rewrite lookup_insert. case_decide; eauto.
      * subst k. split; [|by rewrite lookup_insert_eq].
        destruct (V !! serialize w) eqn:HV; [|done].
        eapply lookup_weaken in HV; [|done]. congruence.
  - by apply insert_subseteq.
  - intros ? [= <-]. by rewrite lookup_insert_eq.
Qed.

Lemma expand_spec i V vn k q s :
  layerInv i V vn → vn.1 !! k = Some q → String.length q = i →
  canonical s → serialize s = k → replay m q s0 = Some s →
  match expand m k vn with
  | None => False
  | Some (Found p) =>
      ∃ c d w, p = q +:+ String c EmptyString ∧ dirOf c = Some d
               ∧ nextState m s d = Some w ∧ isComplete m w = true
  | Some (Continue vn') =>
      layerInv i V vn' ∧ vn.1 ⊆ vn'.1
      ∧ ∀ c d w, dirOf c = Some d → nextState m s d = Some w →
                 is_Some (vn'.1 !! serialize w)
  end.
Proof.
  intros Hinv Hk Hlen Hs Hser Hrep. unfold expand.
  rewrite <-Hser, deserialize_canonical by done. simpl.
  rewrite Hser, Hk. simpl.
  pose proof (visit_spec i V vn s q "W" (0, -1) Hinv Hs Hrep Hlen eq_refl) as H1.
  destruct (visit m s q (0, -1) "W" vn) as [p1|vn1]; simpl.
  { destruct H1 as (-> & w & ? & ?). by eexists "W"%char, _, w. }
  destruct H1 as (Hinv1 & Hsub1 & Hw1).
  pose proof (visit_spec i V vn1 s q "A" (-1, 0) Hinv1 Hs Hrep Hlen eq_refl) as H2.
  destruct (visit m s q (-1, 0) "A" vn1) as [p2|vn2]; simpl.
  { destruct H2 as (-> & w & ? & ?). by eexists "A"%char, _, w. }
  destruct H2 as (Hinv2 & Hsub2 & Hw2).
  pose proof (visit_spec i V vn2 s q "S" (0, 1) Hinv2 Hs Hrep Hlen eq_refl) as H3.
  destruct (visit m s q (0, 1) "S" vn2) as [p3|vn3]; simpl.
  { destruct H3 as (-> & w & ? & ?). by eexists "S"%char, _, w. }
  destruct H3 as (Hinv3 & Hsub3 & Hw3).
  pose proof (visit_spec i V vn3 s q "D" (1, 0) Hinv3 Hs Hrep Hlen eq_refl) as H4.
  destruct (visit m s q (1, 0) "D" vn3) as [p4|vn4]; simpl.
  { destruct H4 as (-> & w & ? & ?). by eexists "D"%char, _, w. }
  destruct H4 as (Hinv4 & Hsub4 & Hw4).
  split_and!; [done|by repeat (etrans; [eassumption|])|].
  intros c d w Hd Hw.
  assert (∀ U U' : gmap string string,
    U ⊆ U' → is_Some (U !! serialize w) → is_Some (U' !! serialize w)) as Hup.
  { intros U U' HU [q' Hq']. exists q'. by eapply lookup_weaken. }
  destruct (dirOf_cases c d Hd) as [[-> ->]|[[-> ->]|[[-> ->]|[-> ->]]]].
  - eapply Hup, Hup, Hup, Hw1; eauto.
  - eapply Hup, Hup, Hw2; eauto.
  - eapply Hup, Hw3; eauto.
  - by apply Hw4.
Qed.

Lemma layer_spec i V cur vn :
  layerInv i V vn →
  (∀ k, k ∈ cur → ∃ q, V !! k = Some q ∧ String.length q = i) →
  match layer m cur vn with
  | None => False
  | Some (Found p) =>
      ∃ q c d s w, p = q +:+ String c EmptyString ∧ String.length q = i
                   ∧ replay m q s0 = Some s ∧ dirOf c = Some d
                   ∧ nextState m s d = Some w ∧ isComplete m w = true
  | Some (Continue vn') =>
      layerInv i V vn' ∧ vn.1 ⊆ vn'.1
      ∧ ∀ k q, k ∈ cur → V !! k = Some q → closed vn'.1 k q
  end.
Proof.
  revert vn. induction cur as [|k cur IH]; intros vn Hinv Hcur; simpl.
  { split_and!; [done..|]. by intros k q ?%elem_of_nil. }
  destruct (Hcur k) as (q & Hq & Hlen); [by left|].
  pose proof (y_extends _ _ _ Hinv) as Hext.
  pose proof (lookup_weaken _ _ _ _ Hq Hext) as Hq'.
  destruct (v_sound _ _ (y_visited _ _ _ Hinv) k q Hq')
    as (s & Hs & Hser & Hrep & _).
  pose proof (expand_spec i V vn k q s Hinv Hq' Hlen Hs Hser Hrep) as Hex.
  destruct (expand m k vn) as [[p|vn1]|]; [| |done].
  { destruct Hex as (c & d & w & ? & ? & ? & ?). by exists q, c, d, s, w. }
  destruct Hex as (Hinv1 & Hsub1 & Hsucc).
  specialize (IH vn1 Hinv1). destruct (layer m cur vn1) as [[p|vn2]|].
  - apply IH. intros ??. apply Hcur. by right.
  - destruct IH as (Hinv2 & Hsub2 & Hcl); [intros ??; apply Hcur; by right|].
    split_and!; [done|by etrans|].
    intros k' q' [->|Hk']%elem_of_cons HV; [|by apply Hcl].
    assert (q' = q) as -> by congruence.
    intros s' c d w Hdes Hd Hw.
    rewrite <-Hser, deserialize_canonical in Hdes by done.
    injection Hdes as <-.
    destruct (Hsucc c d w Hd Hw) as [qw Hqw].
    eapply lookup_weaken in Hqw; [|done].
    exists qw. split; [done|].
    destruct (v_sound _ _ (y_visited _ _ _ Hinv2) _ _ Hqw)
      as (_ & _ & _ & _ & ?). lia.
  - apply IH. intros ??. apply Hcur. by right.
Qed.

Lemma visitedOk_weaken i j V : (i ≤ j)%nat → visitedOk i V → visitedOk j V.
Proof.
  intros Hij [Hsound Hinit Hinc]. split; [|done..].
  intros k q Hk. destruct (Hsound k q Hk) as (s & ? & ? & ? & ?).
  exists s. split_and!; [done..|lia].
Qed.

Lemma layerInv_start i V cur : loopInv i V cur → layerInv i V (V, []).
Proof.
  intros [Hvis _ _ _]. split; simpl.
  - eapply visitedOk_weaken; [|done]. lia.
  - done.
  - intros k q ??. congruence.
  - by intros k ?%elem_of_nil.
Qed.

Lemma loopInv_start :
  loopInv 0 {[serialize s0 := EmptyString]} [serialize s0].
Proof.
  split.
  - split.
    + intros k q [<- <-]%lookup_singleton_Some. by exists s0.
    + apply lookup_singleton_eq.
    + intros s q Hs [Hk _]%lookup_singleton_Some _.
      by apply serialize_inj.
  - intros k ->%list_elem_of_singleton. exists EmptyString.
    by rewrite lookup_singleton_eq.
  - intros k q [<- <-]%lookup_singleton_Some _. by left.
  - intros k q _ ?. lia.
Qed.

Lemma loopInv_next i V cur vn' :
  loopInv i V cur → layer m cur (V, []) = Some (Continue vn') →
  loopInv (S i) vn'.1 vn'.2.
Proof.
  intros Hinv Hlayer.
  pose proof (layer_spec i V cur (V, []) (layerInv_start _ _ _ Hinv)
                (l_cur _ _ _ Hinv)) as Hspec.
  rewrite Hlayer in Hspec. destruct Hspec as (Hy & Hsub & Hcl).
  destruct Hinv as [Hvis Hcur Hfront Hclosed].
  destruct Hy as [Hvis' Hext Hnew Hnext]. simpl in *.
  assert (∀ k q, vn'.1 !! k = Some q → (String.length q ≤ i)%nat →
                 V !! k = Some q) as Hold.
  { intros k q Hk Hlen. destruct (V !! k) as [q0|] eqn:HV.
    - eapply lookup_weaken in HV; [|done]. congruence.
    - destruct (Hnew k q Hk HV). lia. }
  split; [done|..].
  - intros k Hk. destruct (Hnext k Hk) as [HV [q Hq]].
    exists q. split; [done|]. by destruct (Hnew k q Hq HV).
  - intros k q Hk Hlen. destruct (V !! k) as [q0|] eqn:HV.
    + pose proof (lookup_weaken _ _ _ _ HV Hext) as HV'.
      destruct (v_sound _ _ Hvis k q0 HV) as (_ & _ & _ & _ & ?).
      assert (q = q0) by congruence. subst. lia.
    + by destruct (Hnew k q Hk HV).
  - intros k q Hk Hlen. assert (V !! k = Some q) as HV by (apply Hold; [done|lia]).
    destruct (decide (String.length q = i)) as [Heq|Hne].
    + apply Hcl; [|done]. by eapply Hfront.
    + eapply closed_mono; [done|]. apply Hclosed; [done|lia].
Qed.

(** *** What the invariants give *)

(** Whatever is reached within the layers done is visited, under a path
    that is no longer; once the frontier is empty this holds of every
    reachable state. *)
Lemma reach_visited i V cur p s :
  loopInv i V cur → replay m p s0 = Some s →
  (String.length p ≤ i)%nat ∨ cur = [] →
  ∃ q, V !! serialize s = Some q ∧ (String.length q ≤ String.length p)%nat.
Proof.
  intros Hinv. revert s. induction p as [|p c IH] using string_rev_ind;
    intros s Hrep Hlen.
  { simpl in Hrep. injection Hrep as <-. exists EmptyString.
    split; [|done]. apply Hinv. }
  apply replay_snoc in Hrep as (s1 & d & Hs1 & Hd & Hw).
  rewrite string_length_app in *. simpl in *.
  destruct (IH s1 Hs1) as (q1 & Hq1 & Hlen1); [destruct Hlen; [left; lia|by right]|].
  pose proof (replay_canonical _ _ _ Hs0 Hs1) as Hs1c.
  assert (String.length q1 < i)%nat as Hlt.
  { destruct Hlen as [?| ->]; [lia|].
    destruct (v_sound _ _ (l_visited _ _ _ Hinv) _ _ Hq1) as (_ & _ & _ & _ & ?).
    destruct (decide (String.length q1 = i)) as [Heq|]; [|lia].
    pose proof (l_front _ _ _ Hinv _ _ Hq1 Heq) as Hel.
    by apply elem_of_nil in Hel. }
  destruct (l_closed _ _ _ Hinv _ _ Hq1 Hlt s1 c d s) as (q & Hq & ?);
    [by apply deserialize_canonical|done..|].
  exists q. split; [done|lia].
Qed.

(** No complete state is reached by between 1 and [i] moves. *)
Lemma no_complete i V cur p s :
  loopInv i V cur → p ≠ EmptyString →
  (String.length p ≤ i)%nat ∨ cur = [] →
  replay m p s0 = Some s → isComplete m s = false.
Proof.
  intros Hinv Hp Hlen Hrep. apply not_true_is_false. intros Hc.
  destruct (reach_visited i V cur p s Hinv Hrep Hlen) as (q & Hq & _).
  pose proof (replay_canonical _ _ _ Hs0 Hrep) as Hsc.
  pose proof (v_incomplete _ _ (l_visited _ _ _ Hinv) s q Hsc Hq Hc) as ->.
  destruct (complete_cycle s0 p Hs0 Hc Hp Hrep) as (c & d & w & Hd & Hw & Hwc).
  assert (replay m (String c EmptyString) s0 = Some w) as Hrep1.
  { simpl. rewrite Hd. simpl. by rewrite Hw. }
  destruct (reach_visited i V cur _ w Hinv Hrep1) as (qw & Hqw & _).
  { destruct Hlen; [left|by right]. destruct p; [done|]. simpl in *. lia. }
  pose proof (replay_canonical _ _ _ Hs0 Hrep1) as Hwcan.
  pose proof (v_incomplete _ _ (l_visited _ _ _ Hinv) w qw Hwcan Hqw Hwc) as ->.
  eapply nextState_player; eauto using dirOf_nonzero.
Qed.

(** More fuel does not change a result. *)
Lemma loop_mono fuel fuel' V cur r :
  (fuel ≤ fuel')%nat → loop m fuel V cur = Some r →
  loop m fuel' V cur = Some r.
Proof.
  revert fuel' V cur. induction fuel as [|fuel IH]; intros fuel' V cur Hle.
  - destruct cur; [|done]. by destruct fuel'.
  - destruct fuel' as [|fuel']; [lia|]. destruct cur as [|k cur]; [done|].
    cbn [loop].
    destruct (layer m (k :: cur) (V, [])) as [[p|[V' N']]|]; [done| |done].
    apply IH. lia.
Qed.

(** A returned path replays to a complete state. *)
Lemma loop_sound fuel i V cur q :
  loopInv i V cur → loop m fuel V cur = Some (Some q) →
  (i < String.length q)%nat
  ∧ ∃ w, replay m q s0 = Some w ∧ isComplete m w = true.
Proof.
  revert i V cur. induction fuel as [|fuel IH]; intros i V cur Hinv.
  { by destruct cur. }
  destruct cur as [|k cur]; [done|]. cbn [loop].
  pose proof (layer_spec i V (k :: cur) (V, []) (layerInv_start _ _ _ Hinv)
                (l_cur _ _ _ Hinv)) as Hspec.
  pose proof (loopInv_next i V (k :: cur)) as Hnext.
  destruct (layer m (k :: cur) (V, [])) as [[p|[V' N']]|]; [| |done].
  - intros [= <-].
    destruct Hspec as (q & c & d & s & w & -> & Hlen & Hrep & Hd & Hw & Hc).
    rewrite string_length_app. simpl. split; [lia|].
    exists w. split; [|done]. apply replay_snoc. eauto.
  - intros Hloop. destruct (IH (S i) V' N' (Hnext _ Hinv eq_refl) Hloop)
      as [? ?]. split; [lia|done].
Qed.

(** If a complete state is reached by one move or more, the loop returns
    a path that is no longer. *)
Lemma loop_finds n i V cur p s :
  loopInv i V cur → p ≠ EmptyString → replay m p s0 = Some s →
  isComplete m s = true → (String.length p ≤ i + n)%nat →
  ∃ fuel q, loop m fuel V cur = Some (Some q)
            ∧ (String.length q ≤ String.length p)%nat.
Proof.
  intros Hinv Hp Hrep Hc. revert i V cur Hinv.
  induction n as [|n IH]; intros i V cur Hinv Hlen.
  { rewrite (no_complete i V cur p s) in Hc; [done..|left; lia|done]. }
  destruct cur as [|k cur].
  { rewrite (no_complete i V [] p s) in Hc; [done..|by right|done]. }
  assert (i < String.length p)%nat as Hlt.
  { destruct (decide (String.length p ≤ i)%nat); [|lia].
    rewrite (no_complete i V (k :: cur) p s) in Hc; [done..|by left|done]. }
  pose proof (layer_spec i V (k :: cur) (V, []) (layerInv_start _ _ _ Hinv)
                (l_cur _ _ _ Hinv)) as Hspec.
  pose proof (loopInv_next i V (k :: cur)) as Hnext.
  destruct (layer m (k :: cur) (V, [])) as [[q|[V' N']]|] eqn:Hlayer; [| |done].
  - exists 1%nat, q. cbn [loop]. rewrite Hlayer. split; [done|].
    destruct Hspec as (q1 & c & _ & _ & _ & -> & Hlen1 & _).
    rewrite string_length_app. simpl. lia.
  - destruct (IH (S i) V' N' (Hnext _ Hinv eq_refl)) as (fuel & q & Hq & ?);
      [lia|].
    exists (S fuel), q. cbn [loop]. by rewrite Hlayer.
Qed.

(** *** Termination: the search meets finitely many states *)

Definition cells (x0 w y0 h : Z) : list Point :=
  x ← seqZ x0 w; y ← seqZ y0 h; [(x, y)].

(** The player stays where it starts or stands inside the grid; a box
    stays where it starts or lies at most one cell outside the grid. *)
Definition playerCells : list Point :=
  player s0 :: cells 0 (width m) 0 (height m).
Definition boxCells : list Point :=
  boxes s0 ++ cells (-1) (width m + 2) (-1) (height m + 2).

Fixpoint listsUpTo {A} (n : nat) (l : list A) : list (list A) :=
  match n with
  | O => [[]]
  | S n => [] :: (x ← l; t ← listsUpTo n l; [x :: t])
  end.

Definition universe : gset string :=
  list_to_set (pl ← playerCells;
               bs ← listsUpTo (length (boxes s0)) boxCells;
               [JS.join "/" (key <$> pl :: bs)]).

Definition bounded (s : SokobanState) : Prop :=
  player s ∈ playerCells ∧ Forall (λ b, b ∈ boxCells) (boxes s)
  ∧ (length (boxes s) ≤ length (boxes s0))%nat.

Lemma elem_of_cells x0 w y0 h p :
  p ∈ cells x0 w y0 h ↔ x0 ≤ p.1 < x0 + w ∧ y0 ≤ p.2 < y0 + h.
Proof.
  unfold cells. rewrite list_elem_of_bind. split.
  - intros (x & (y & ->%list_elem_of_singleton & Hy%elem_of_seqZ)%list_elem_of_bind
              & Hx%elem_of_seqZ). simpl. lia.
  - intros [Hx Hy]. exists p.1. rewrite elem_of_seqZ. split; [|done].
    apply list_elem_of_bind. exists p.2. rewrite elem_of_seqZ.
    split; [|done]. destruct p. by left.
Qed.

Lemma listsUpTo_elem {A} n (l t : list A) :
  (length t ≤ n)%nat → Forall (λ x, x ∈ l) t → t ∈ listsUpTo n l.
Proof.
  revert t. induction n as [|n IH]; intros t Hlen Ht.
  - destruct t; [by left|simpl in Hlen; lia].
  - destruct t as [|x t]; [by left|]. right.
    apply Forall_cons in Ht as [Hx Ht]. apply list_elem_of_bind.
    exists x. split; [|done]. apply list_elem_of_bind. exists t.
    split; [by left|]. apply IH; [simpl in Hlen; lia|done].
Qed.

Lemma bounded_universe s : bounded s → serialize s ∈ universe.
Proof.
  intros (Hpl & Hb & Hlen). unfold universe.
  apply elem_of_list_to_set, list_elem_of_bind. exists (player s).
  split; [|done]. apply list_elem_of_bind. exists (boxes s).
  split; [by left|]. by apply listsUpTo_elem.
Qed.

Lemma bounded_start : bounded s0.
Proof.
  split_and!; [by left| |done]. apply Forall_forall. intros b Hb.
  apply elem_of_app. by left.
Qed.

Lemma nextState_bounded s c d w :
  canonical s → bounded s → dirOf c = Some d → nextState m s d = Some w →
  bounded w.
Proof.
  intros [_ Hset] (Hpl & Hb & Hlen) Hd Hw.
  apply nextState_accepts in Hw
    as (Hin & _ & Hplw & [(_ & Hbw & _)|(Hbox & _ & _ & Hbw & _)]).
  - split_and!; [|by rewrite Hbw..].
    rewrite Hplw. right. apply elem_of_cells. unfold inBounds in Hin. lia.
  - split_and!.
    + rewrite Hplw. right. apply elem_of_cells. unfold inBounds in Hin. lia.
    + rewrite Hbw. apply Forall_forall. intros b.
      rewrite sortPoints_elem, elem_of_app, list_elem_of_filter.
      rewrite list_elem_of_singleton. rewrite Forall_forall in Hb.
      intros [[_ ?]| ->]; [by apply Hb|].
      apply elem_of_app. right. apply elem_of_cells.
      unfold inBounds, shift in *. simpl in *.
      destruct (dirOf_cases c d Hd) as [[_ ->]|[[_ ->]|[[_ ->]|[_ ->]]]];
        simpl in *; lia.
    + rewrite Hbw, sortPoints_length, length_app.
      change (length [_]) with 1%nat.
      rewrite Hset, elem_of_list_to_set, list_elem_of_fmap in Hbox.
      destruct Hbox as (b & Hb'%key_inj & Hel). subst b.
      assert (length (filter (λ p : Point,
                 p.1 ≠ (shift (player s) d).1 ∨ p.2 ≠ (shift (player s) d).2)
               (boxes s)) < length (boxes s))%nat
        by (eapply length_filter_lt; [exact Hel|tauto]).
      lia.
Qed.

Lemma replay_bounded_from p s s' :
  canonical s → bounded s → replay m p s = Some s' → bounded s'.
Proof.
  revert s. induction p as [|c p IH]; intros s Hs Hb; simpl.
  - by intros [= <-].
  - destruct (dirOf c) as [d|] eqn:Hd; [|done]. simpl.
    destruct (nextState m s d) as [w|] eqn:Hw; [|done]. simpl.
    apply IH; [|by eapply nextState_bounded].
    eapply nextState_keeps_canonical; eauto using dirOf_nonzero.
Qed.

Lemma visited_universe i V : visitedOk i V → dom V ⊆ universe.
Proof.
  intros Hvis k [q Hq]%elem_of_dom.
  destruct (v_sound _ _ Hvis k q Hq) as (s & Hs & <- & Hrep & _).
  apply bounded_universe.
  apply (replay_bounded_from q s0 s Hs0 bounded_start Hrep).
Qed.

(** The loop returns: each layer that does not end the search adds an
    entry to the index, which stays inside [universe]. *)
Lemma loop_terminates n i V cur :
  loopInv i V cur → (size universe ≤ size (dom V) + n)%nat →
  ∃ fuel r, loop m fuel V cur = Some r.
Proof.
  revert i V cur. induction n as [|n IH]; intros i V cur Hinv Hsize;
    (destruct cur as [|k cur]; [by exists 0%nat, None|]);
    pose proof (layer_spec i V (k :: cur) (V, []) (layerInv_start _ _ _ Hinv)
                  (l_cur _ _ _ Hinv)) as Hspec;
    pose proof (loopInv_next i V (k :: cur)) as Hnext;
    (destruct (layer m (k :: cur) (V, [])) as [[q|[V' N']]|] eqn:Hlayer;
     [exists 1%nat, (Some q); cbn [loop]; by rewrite Hlayer| |done]);
    specialize (Hnext _ Hinv eq_refl); simpl in Hnext;
    (destruct N' as [|k' N'];
     [exists 2%nat, None; cbn [loop]; by rewrite Hlayer|]);
    destruct Hspec as ([_ Hext _ Hnew] & _ & _); simpl in Hext, Hnew;
    (assert (size (dom V) < size (dom V'))%nat as Hlt;
     [apply subset_size; split; [by apply subseteq_dom|];
      intros Hsub; destruct (Hnew k') as [Hk' Hk'']; [by left|];
      apply elem_of_dom, Hsub, elem_of_dom in Hk''; rewrite Hk' in Hk'';
      by destruct Hk''|]);
    pose proof (subseteq_size _ _
      (visited_universe _ _ (l_visited _ _ _ Hnext))) as Hle.
  - lia.
  - destruct (IH (S i) V' (k' :: N') Hnext) as (fuel & r & Hr); [lia|].
    exists (S fuel), r. cbn [loop]. by rewrite Hlayer.
Qed.

(** *** The results of [solve] on a canonical initial state *)

Lemma search_terminates :
  ∃ fuel r, ∀ fuel', (fuel ≤ fuel')%nat → solve m fuel' s0 = Some r.
Proof.
  destruct (loop_terminates (size universe) 0 _ _ loopInv_start)
    as (fuel & r & Hr); [lia|].
  exists fuel, r. intros fuel' Hle. by eapply loop_mono.
Qed.

Lemma search_sound fuel q :
  solve m fuel s0 = Some (Some q) →
  q ≠ EmptyString ∧ ∃ w, replay m q s0 = Some w ∧ isComplete m w = true.
Proof.
  intros [Hlen Hw]%(loop_sound _ 0 _ _ _ loopInv_start). split; [|done].
  intros ->. simpl in Hlen. lia.
Qed.

Lemma search_finds p s :
  p ≠ EmptyString → replay m p s0 = Some s → isComplete m s = true →
  ∃ fuel q, solve m fuel s0 = Some (Some q)
            ∧ (String.length q ≤ String.length p)%nat.
Proof.
  intros Hp Hrep Hc.
  apply (loop_finds (String.length p) 0 _ _ p s loopInv_start Hp Hrep Hc).
  lia.
Qed.

Lemma search_mono fuel fuel' r :
  (fuel ≤ fuel')%nat → solve m fuel s0 = Some r → solve m fuel' s0 = Some r.
Proof. apply loop_mono. Qed.

Lemma search_det fuel fuel' r r' :
  solve m fuel s0 = Some r → solve m fuel' s0 = Some r' → r = r'.
Proof.
  intros Hr Hr'.
  apply (search_mono _ (fuel `max` fuel')%nat) in Hr; [|lia].
  apply (search_mono _ (fuel `max` fuel')%nat) in Hr'; [|lia].
  congruence.
Qed.

End engine.
End EngineFacts.

(** ** Invariants of the transitions *)

Module BoardFacts.
Export Board.
Section engine.
Local Open Scope Z_scope.
Import Solver StateFacts EngineFacts Engine.

Variable m : Rules.

Lemma dirOf_directions c d : dirOf c = Some d → d ∈ directions.
Proof.
  intros Hd.
  destruct (dirOf_cases c d Hd) as [[_ ->]|[[_ ->]|[[_ ->]|[_ ->]]]];
    unfold directions; rewrite !elem_of_cons; tauto.
Qed.

Lemma dirOf_code c d : dirOf c = Some d → c ∈ ["W"; "A"; "S"; "D"]%char.
Proof.
  intros Hd.
  destruct (dirOf_cases c d Hd) as [[-> _]|[[-> _]|[[-> _]|[-> _]]]];
    rewrite !elem_of_cons; tauto.
Qed.

Lemma directions_cases d :
  d ∈ directions ↔ d = (0, -1) ∨ d = (-1, 0) ∨ d = (0, 1) ∨ d = (1, 0).
Proof. unfold directions. rewrite !elem_of_cons, elem_of_nil. tauto. Qed.

Lemma directions_nonzero d : d ∈ directions → d ≠ (0, 0).
Proof. intros [->|[->|[->| ->]]]%directions_cases; done. Qed.

Lemma directions_dirOf d : d ∈ directions → ∃ c, dirOf c = Some d.
Proof.
  intros [->|[->|[->| ->]]]%directions_cases.
  - by exists "W"%char.
  - by exists "A"%char.
  - by exists "S"%char.
  - by exists "D"%char.
Qed.

Lemma filter_all {A} (P : A → Prop) `{∀ x, Decision (P x)} (l : list A) :
  (∀ x, x ∈ l → P x) → filter P l = l.
Proof.
  induction l as [|a l IH]; [done|]. intros Hl.
  rewrite filter_cons_True by (apply Hl; by left).
  f_equal. apply IH. intros x Hx. apply Hl. by right.
Qed.

(** [filter] drops the one occurrence of a box. *)
Lemma length_filter_out (l : list Point) (x : Point) :
  NoDup l → x ∈ l →
  S (length (filter (λ p : Point, p.1 ≠ x.1 ∨ p.2 ≠ x.2) l)) = length l.
Proof.
  induction 1 as [|a l Ha Hl IH]; [by intros ?%elem_of_nil|].
  intros [->|Hx]%elem_of_cons.
  - rewrite filter_cons_False by tauto. simpl. f_equal. f_equal.
    apply filter_all. intros [y1 y2] Hy. destruct a as [a1 a2]. simpl.
    destruct (decide (y1 = a1)) as [->|]; [|by left].
    destruct (decide (y2 = a2)) as [->|]; [done|by right].
  - rewrite filter_cons_True.
    + simpl. f_equal. by apply IH.
    + destruct a as [a1 a2], x as [x1 x2]. simpl.
      destruct (decide (a1 = x1)) as [->|]; [|by left].
      destruct (decide (a2 = x2)) as [->|]; [done|by right].
Qed.

Lemma boxSet_elem s p :
  canonical s → key p ∈ boxSet s ↔ p ∈ boxes s.
Proof.
  intros [_ Hset]. rewrite Hset, elem_of_list_to_set, list_elem_of_fmap.
  split; [|by eauto]. by intros (q & ->%key_inj & ?).
Qed.

(** A transition keeps the state well formed and the number of boxes. *)
Lemma nextState_wellFormed s d w :
  wellFormed m s → d ∈ directions → nextState m s d = Some w →
  wellFormed m w ∧ length (boxes w) = length (boxes s).
Proof.
  intros [Hpl Hfl Hap Hnd Hbx Hcan] Hd Hw.
  pose proof (directions_nonzero d Hd) as Hd0.
  destruct (nextState_keeps_canonical m s d w Hcan Hw Hd0)
    as (Hwcan & Hwin & Hwfl & Hwap).
  apply nextState_accepts in Hw
    as (_ & _ & Hplw & [(_ & Hb & _)|(Hbox & Hlw & Hlb & Hb & _)]).
  - split; [|by rewrite Hb]. split; [done..| | |done]; by rewrite Hb.
  - apply (boxSet_elem s _ Hcan) in Hbox.
    rewrite (boxSet_elem s _ Hcan) in Hlb.
    split.
    + split; [done..| | |done].
      * rewrite Hb, sortPoints_perm. apply NoDup_app. split_and!.
        -- by apply NoDup_filter.
        -- intros x [_ Hx]%list_elem_of_filter ->%list_elem_of_singleton.
           done.
        -- apply NoDup_singleton.
      * intros b. rewrite Hb, sortPoints_elem, elem_of_app.
        rewrite list_elem_of_filter, list_elem_of_singleton.
        intros [[_ ?]| ->]; [by apply Hbx|done].
    + rewrite Hb, sortPoints_length, length_app.
      rewrite <-(length_filter_out (boxes s) (shift (player s) d)) by done.
      simpl. lia.
Qed.

Lemma replay_wellFormed p s w :
  wellFormed m s → replay m p s = Some w →
  wellFormed m w ∧ length (boxes w) = length (boxes s).
Proof.
  revert s. induction p as [|c p IH]; intros s Hs; simpl.
  - by intros [= <-].
  - destruct (dirOf c) as [d|] eqn:Hd; [|done]. simpl.
    destruct (nextState m s d) as [s1|] eqn:Hs1; [|done]. simpl.
    apply dirOf_directions in Hd.
    destruct (nextState_wellFormed s d s1 Hs Hd Hs1) as [Hwf Hlen].
    intros Hw. destruct (IH s1 Hwf Hw). split; [done|congruence].
Qed.

(** A replayed string holds move codes only. *)
Lemma replay_codes p s w : replay m p s = Some w → codes p.
Proof.
  revert s. induction p as [|c p IH]; intros s; simpl; [done|].
  destruct (dirOf c) as [d|] eqn:Hd; [|done]. simpl.
  destruct (nextState m s d) as [s1|]; [|done]. simpl.
  intros Hw. split; [by eapply dirOf_code|by eapply IH].
Qed.

(** The beginning of a replayed string replays. *)
Lemma replay_beginning q p s w :
  beginning q p → replay m p s = Some w → ∃ s1, replay m q s = Some s1.
Proof.
  intros [rest ->]. rewrite replay_append.
  destruct (replay m q s) as [s1|]; [by eauto|done].
Qed.

Lemma filter_other (l : list Point) (t : Point) :
  filter (λ p : Point, p ≠ t) l
  = filter (λ p : Point, p.1 ≠ t.1 ∨ p.2 ≠ t.2) l.
Proof.
  apply list_filter_iff. intros [p1 p2]. destruct t as [t1 t2]. simpl.
  split.
  - intros Hp. destruct (decide (p1 = t1)) as [->|]; [|by left].
    destruct (decide (p2 = t2)) as [->|]; [done|by right].
  - intros Hp [= -> ->]. tauto.
Qed.

(** What [nextState] accepts is a move of the game. *)
Lemma nextState_rawStep s d w :
  nextState m s d = Some w → rawStep m s d = Some w.
Proof.
  unfold nextState, rawStep. simpl. rewrite filter_other. simpl.
  destruct (bool_decide _); [done|].
  destruct (has (wallSet m) _); [done|].
  destruct (has (boxSet s) _).
  - by destruct (has (wallSet m) _), (has (boxSet s) _).
  - by destruct (check m _).
Qed.

(** A move of the game that the deadlock check lets through is accepted. *)
Lemma rawStep_nextState s d w :
  rawStep m s d = Some w → check m w = false → nextState m s d = Some w.
Proof.
  unfold nextState, rawStep. simpl. rewrite filter_other. simpl.
  destruct (bool_decide _); [done|].
  destruct (has (wallSet m) _); [done|].
  destruct (has (boxSet s) _).
  - by destruct (has (wallSet m) _), (has (boxSet s) _).
  - intros [= <-]. simpl. by intros ->.
Qed.

Lemma replay_rawReplay p s w :
  replay m p s = Some w → rawReplay m p s = Some w.
Proof.
  revert s. induction p as [|c p IH]; intros s; simpl; [done|].
  destruct (dirOf c) as [d|]; [|done]. simpl.
  destruct (nextState m s d) as [s1|] eqn:Hs1; [|done]. simpl.
  rewrite (nextState_rawStep s d s1 Hs1). simpl. apply IH.
Qed.

(** The deadlock check reads the box set only. *)
Hypothesis Hread : ∀ s s', boxSet s = boxSet s' → check m s = check m s'.

(** A plain step is undone by the step back. *)
Lemma nextState_back s d w :
  inBounds m (player s) → key (player s) ∉ wallSet m →
  key (player s) ∉ boxSet s → key (shift (player s) d) ∉ boxSet s →
  nextState m s d = Some w → nextState m w (opposite d) = Some s.
Proof.
  intros Hin Hwall Hbox Hfree Hw.
  apply nextState_accepts in Hw
    as (_ & _ & Hpl & [(_ & Hb & Hbs & Hchk)|(? & _)]); [|done].
  assert (shift (player w) (opposite d) = player s) as Hback.
  { rewrite Hpl. unfold shift, opposite. destruct (player s), d. simpl.
    f_equal; lia. }
  rewrite (nextState_walks m w (opposite d)); rewrite Hback, ?Hbs; try done.
  - destruct s. simpl in *. by subst.
  - rewrite <-Hchk. by apply Hread.
Qed.

(** Distinct boxes that are all on goals are no more than the goals. *)
Lemma complete_count s :
  NoDup (boxes s) → isComplete m s = true →
  (length (boxes s) ≤ size (goalSet m))%nat.
Proof.
  intros Hnd Hc.
  rewrite <-(length_fmap key), <-(size_list_to_set (C:=gset string)).
  - apply subseteq_size. intros k.
    rewrite elem_of_list_to_set, list_elem_of_fmap. intros (p & -> & Hp).
    unfold isComplete in Hc. rewrite forallb_forall in Hc.
    apply list_elem_of_In, Hc in Hp. by apply bool_decide_eq_true in Hp.
  - apply NoDup_fmap_2_strong; [|done]. intros ? ? _ _. apply key_inj.
Qed.

Variable s0 : SokobanState.
Hypothesis Hs0 : wellFormed m s0.

(** With more boxes than goals no state that is reached is complete. *)
Lemma overfull_incomplete p s :
  (size (goalSet m) < length (boxes s0))%nat →
  replay m p s0 = Some s → isComplete m s = false.
Proof.
  intros Hlt Hrep. destruct (replay_wellFormed p s0 s Hs0 Hrep) as [Hwf Hlen].
  apply not_true_is_false. intros Hc.
  pose proof (complete_count s (b_distinct _ _ Hwf) Hc). lia.
Qed.

Lemma search_overfull :
  (size (goalSet m) < length (boxes s0))%nat →
  ∃ fuel, ∀ fuel', (fuel ≤ fuel')%nat → solve m fuel' s0 = Some None.
Proof.
  intros Hlt.
  destruct (search_terminates m s0 (b_canonical _ _ Hs0)) as (fuel & r & Hr).
  exists fuel. intros fuel' Hle. rewrite (Hr fuel' Hle).
  destruct r as [q|]; [|done].
  destruct (search_sound m s0 (b_canonical _ _ Hs0) fuel q)
    as (_ & w & Hw & Hc); [by apply Hr|].
  by rewrite (overfull_incomplete q w) in Hc.
Qed.

(** A returned path holds move codes only and completes the level by
    moves of the game; every beginning of it replays to a well-formed state
    with the boxes of the start. *)
Lemma search_safe fuel q :
  solve m fuel s0 = Some (Some q) →
  codes q
  ∧ (∃ w, rawReplay m q s0 = Some w ∧ isComplete m w = true)
  ∧ ∀ q1, beginning q1 q →
      ∃ s1, replay m q1 s0 = Some s1 ∧ rawReplay m q1 s0 = Some s1
            ∧ wellFormed m s1 ∧ length (boxes s1) = length (boxes s0).
Proof.
  intros (_ & w & Hw & Hc)%(search_sound m s0 (b_canonical _ _ Hs0)).
  split; [by eapply replay_codes|].
  split; [exists w; split; [by apply replay_rawReplay|done]|].
  intros q1 Hq1.
  destruct (replay_beginning q1 q s0 w Hq1 Hw) as (s1 & Hs1).
  exists s1. split; [done|]. split; [by apply replay_rawReplay|].
  by apply (replay_wellFormed q1 s0).
Qed.

End engine.
End BoardFacts.

(** ** The hooks observe the search *)

Module LoopFacts.
Section hooks.
Local Open Scope Z_scope.
Import Solver StateFacts EngineFacts Engine.

Variable m : Rules.

(** The hooks do not change the result. *)
Lemma expand_fst W onStep k vn w :
  fst <$> Loop.expand serialize deserialize (nextState m) (isComplete m)
            W onStep k vn w
  = expand m k vn.
Proof.
  unfold Loop.expand, expand. by destruct (deserialize k).
Qed.

Lemma layer_fst W onStep cur vn w :
  fst <$> Loop.layer serialize deserialize (nextState m) (isComplete m)
            W onStep cur vn w
  = layer m cur vn.
Proof.
  revert vn w. induction cur as [|k cur IH]; intros vn w; [done|].
  cbn [Loop.layer layer]. rewrite <-(expand_fst W onStep k vn w).
  destruct (Loop.expand _ _ _ _ _ _ _ _ _) as [[[p|vn'] w']|]; simpl;
    [done| |done].
  apply IH.
Qed.

Lemma loop_fst W onStep onDistance fuel i V cur w :
  fst <$> Loop.loop serialize deserialize (nextState m) (isComplete m)
            W onStep onDistance fuel i V cur w
  = loop m fuel V cur.
Proof.
  revert i V cur w. induction fuel as [|fuel IH]; intros i V cur w.
  { by destruct cur. }
  destruct cur as [|k cur]; [done|]. cbn [Loop.loop loop].
  rewrite <-(layer_fst W onStep (k :: cur) (V, [])
               (Loop.call W onDistance i w)).
  destruct (Loop.layer _ _ _ _ _ _ _ _ _) as [[[p|[V' N']] w']|]; simpl;
    [done| |done].
  apply IH.
Qed.

Lemma solve_fst W onStep onDistance fuel s0 w :
  fst <$> Loop.solve serialize deserialize (nextState m) (isComplete m)
            W onStep onDistance fuel s0 w
  = solve m fuel s0.
Proof. apply loop_fst. Qed.

(** More fuel changes neither the result nor what the hooks have done. *)
Lemma loop_more W onStep onDistance fuel fuel' i V cur (w : W) x :
  (fuel ≤ fuel')%nat →
  Loop.loop serialize deserialize (nextState m) (isComplete m)
    W onStep onDistance fuel i V cur w = Some x →
  Loop.loop serialize deserialize (nextState m) (isComplete m)
    W onStep onDistance fuel' i V cur w = Some x.
Proof.
  revert fuel' i V cur w.
  induction fuel as [|fuel IH]; intros fuel' i V cur w Hle.
  - destruct cur; [|done]. by destruct fuel'.
  - destruct fuel' as [|fuel']; [lia|]. destruct cur as [|k cur]; [done|].
    cbn [Loop.loop].
    destruct (Loop.layer _ _ _ _ _ _ _ _ _) as [[[p|[V' N']] w']|];
      [done| |done].
    apply IH. lia.
Qed.

(** The state an expansion hands to [onStep]. *)
Lemma expand_play k vn o :
  expand m k vn = Some o →
  ∃ s, deserialize k = Some s
       ∧ ∀ W onStep w,
           Loop.expand serialize deserialize (nextState m) (isComplete m)
             W onStep k vn w
           = Some (o, Loop.call W onStep s w).
Proof.
  unfold Loop.expand, expand. destruct (deserialize k) as [s|]; [|done].
  simpl. intros [= <-]. by exists s.
Qed.

(** The states a layer hands to [onStep]: those of the frontier, in its
    order, up to the one that completes. *)
Lemma layer_play cur vn o :
  layer m cur vn = Some o →
  ∃ keys states,
    (cur ≠ [] → states ≠ [])
    ∧ keys `prefix_of` cur
    ∧ Forall2 (λ k s, deserialize k = Some s) keys states
    ∧ ∀ W onStep w,
        Loop.layer serialize deserialize (nextState m) (isComplete m)
          W onStep cur vn w
        = Some (o, fold_left (λ w s, Loop.call W onStep s w) states w).
Proof.
  revert vn. induction cur as [|k cur IH]; intros vn.
  { intros [= <-]. exists [], []. split_and!; [done|done|constructor|done]. }
  cbn [layer]. destruct (expand m k vn) as [o1|] eqn:Hex; [|done].
  destruct (expand_play k vn o1 Hex) as (s & Hs & Hexp).
  destruct o1 as [p|vn1].
  - intros [= <-]. exists [k], [s]. split_and!; [done| | |].
    + by apply prefix_cons, prefix_nil.
    + by repeat constructor.
    + intros W onStep w. cbn [Loop.layer]. by rewrite Hexp.
  - intros Hl. destruct (IH vn1 Hl) as (keys & states & _ & Hpre & Hall & Hplay).
    exists (k :: keys), (s :: states). split_and!; [done| | |].
    + by apply prefix_cons.
    + by constructor.
    + intros W onStep w. cbn [Loop.layer]. rewrite Hexp. simpl.
      apply Hplay.
Qed.

(** *** No key enters the frontier twice *)

Definition distinct (vn : frontier) : Prop :=
  NoDup vn.2 ∧ ∀ k, k ∈ vn.2 → is_Some (vn.1 !! k).

Lemma visit_distinct s q d c vn vn' :
  distinct vn → visit m s q d c vn = Continue vn' → distinct vn'.
Proof.
  intros [Hnd Hin]. unfold visit.
  destruct (nextState m s d) as [w|]; [|by intros [= <-]].
  case_bool_decide as Hvis; [by intros [= <-]|].
  destruct (isComplete m w); [done|]. intros [= <-]. simpl. split.
  - apply NoDup_app. split_and!; [done| |apply NoDup_singleton].
    intros k Hk ->%list_elem_of_singleton. by apply Hvis, Hin.
  - intros k [Hk| ->%list_elem_of_singleton]%elem_of_app; simpl.
    + destruct (Hin k Hk) as [q' Hq']. rewrite lookup_insert.
      case_decide; eauto.
    + by rewrite lookup_insert_eq.
Qed.

Lemma expand_distinct k vn vn' :
  distinct vn → expand m k vn = Some (Continue vn') → distinct vn'.
Proof.
  intros Hvn. unfold expand. destruct (deserialize k) as [s|]; [|done].
  simpl. set (q := default _ _).
  destruct (visit m s q (0, -1) "W" vn) as [|vn1] eqn:H1; simpl; [done|].
  destruct (visit m s q (-1, 0) "A" vn1) as [|vn2] eqn:H2; simpl; [done|].
  destruct (visit m s q (0, 1) "S" vn2) as [|vn3] eqn:H3; simpl; [done|].
  intros [= H4]. eauto using visit_distinct.
Qed.

Lemma layer_distinct cur vn vn' :
  distinct vn → layer m cur vn = Some (Continue vn') → distinct vn'.
Proof.
  revert vn. induction cur as [|k cur IH]; intros vn Hvn; simpl.
  { by intros [= <-]. }
  destruct (expand m k vn) as [[p|vn1]|] eqn:Hex; [done| |done].
  apply IH. by eapply expand_distinct.
Qed.

Variable s0 : SokobanState.
Hypothesis Hs0 : canonical s0.

(** The calls the loop makes: [onDistance] with the distances in order,
    one more for each turn; [onStep], in the turn of distance [d], with at
    least one state, each reached by [d] moves, and with no state twice. A
    returned path has as many moves as the loop took turns. *)
Definition shaped (i : nat) (r : option string)
    (tr : list (Z * list SokobanState)) : Prop :=
  tr.*1 = seqZ (Z.of_nat i) (Z.of_nat (length tr))
  ∧ Forall (λ l, l.2 ≠ []
                 ∧ ∀ s, s ∈ l.2 →
                     canonical s
                     ∧ ∃ q, replay m q s0 = Some s
                            ∧ Z.of_nat (String.length q) = l.1) tr
  ∧ NoDup (concat tr.*2)
  ∧ ∀ p, r = Some p → String.length p = (i + length tr)%nat.

(** The states a layer expands, by their keys. *)
Lemma frontier_states i V cur keys states :
  loopInv m s0 i V cur → keys ⊆ cur →
  Forall2 (λ k s, deserialize k = Some s) keys states →
  serialize <$> states = keys
  ∧ ∀ s, s ∈ states →
      canonical s
      ∧ ∃ q, replay m q s0 = Some s
             ∧ Z.of_nat (String.length q) = Z.of_nat i.
Proof.
  intros Hinv Hsub Hall.
  induction Hall as [|k s keys states Hk _ IH].
  { split; [done|]. by intros s ?%elem_of_nil. }
  destruct IH as (Hser & Hreach).
  { intros k' Hk'. apply Hsub. by right. }
  destruct (l_cur _ _ _ _ _ Hinv k) as (q & Hq & Hlen);
    [apply Hsub; by left|].
  destruct (v_sound _ _ _ _ (l_visited _ _ _ _ _ Hinv) k q Hq)
    as (s' & Hs' & <- & Hrep & _).
  rewrite deserialize_canonical in Hk by done. injection Hk as <-.
  split; [csimpl; by f_equal|].
  intros s [->|Hs]%elem_of_cons; [|by apply Hreach].
  split; [done|]. exists q. split; [done|]. by rewrite Hlen.
Qed.

Lemma loop_play fuel i V cur r :
  loopInv m s0 i V cur → NoDup cur → loop m fuel V cur = Some r →
  ∃ tr,
    shaped i r tr
    ∧ (cur ≠ [] → tr ≠ [])
    ∧ (∀ s, s ∈ concat tr.*2 →
         serialize s ∈ cur ∨ V !! serialize s = None)
    ∧ ∀ W onStep onDistance w,
        Loop.loop serialize deserialize (nextState m) (isComplete m)
          W onStep onDistance fuel (Z.of_nat i) V cur w
        = Some (r, Trace.play W onStep onDistance tr w).
Proof.
  revert i V cur. induction fuel as [|fuel IH]; intros i V cur Hinv Hnd.
  { destruct cur; [|done]. intros [= <-]. exists [].
    split_and!; [|done| |done].
    - unfold shaped. split_and!; [done|constructor|constructor|done].
    - by intros s ?%elem_of_nil. }
  destruct cur as [|k cur].
  { intros [= <-]. exists [].
    split_and!; [|done| |done].
    - unfold shaped. split_and!; [done|constructor|constructor|done].
    - by intros s ?%elem_of_nil. }
  cbn [loop].
  pose proof (layer_spec m s0 i V (k :: cur) (V, [])
                (layerInv_start _ _ _ _ _ Hinv) (l_cur _ _ _ _ _ Hinv))
    as Hspec.
  pose proof (loopInv_next m s0 i V (k :: cur)) as Hnext.
  destruct (layer m (k :: cur) (V, [])) as [o|] eqn:Hlayer; [|done].
  destruct (layer_play _ _ _ Hlayer)
    as (keys & states & Hne & Hpre & Hall & Hplay).
  specialize (Hne ltac:(done)).
  assert (keys ⊆ k :: cur) as Hsub.
  { destruct Hpre as [rest ->]. intros k' ?. apply elem_of_app. by left. }
  destruct (frontier_states i V (k :: cur) keys states Hinv Hsub Hall)
    as (Hser & Hreach).
  assert (NoDup states) as Hnds.
  { apply (NoDup_fmap_1 serialize). rewrite Hser.
    destruct Hpre as [rest Hrest]. rewrite Hrest in Hnd.
    by apply NoDup_app in Hnd as (? & _). }
  assert (∀ s, s ∈ states → serialize s ∈ k :: cur) as Hcur.
  { intros s Hs. apply Hsub. rewrite <-Hser.
    by apply list_elem_of_fmap_2. }
  destruct o as [p|[V' N']].
  - intros [= <-]. exists [(Z.of_nat i, states)]. split_and!.
    + unfold shaped. split_and!.
      * simpl. rewrite seqZ_cons by done. by rewrite seqZ_nil by lia.
      * apply Forall_singleton. by split.
      * simpl. by rewrite app_nil_r.
      * intros ? [= <-].
        destruct Hspec as (q & c & _ & _ & _ & -> & Hlen & _).
        rewrite string_length_app. simpl. lia.
    + done.
    + simpl. rewrite app_nil_r. intros s Hs. left. by apply Hcur.
    + intros W onStep onDistance w. cbn [Loop.loop]. by rewrite Hplay.
  - intros Hloop. destruct Hspec as ([_ Hext _ Hfresh] & _ & _).
    simpl in Hext, Hfresh.
    assert (NoDup N') as HndN.
    { apply (layer_distinct (k :: cur) (V, []) (V', N')); [|done].
      split; [constructor|]. by intros ? ?%elem_of_nil. }
    destruct (IH (S i) V' N' (Hnext _ Hinv eq_refl) HndN Hloop)
      as (tr & (Hdist & Hall' & Hndtr & Hlen) & _ & Hlater & Hrun).
    assert (∀ s, s ∈ concat tr.*2 → V !! serialize s = None) as Hnew.
    { intros s [HN|HV']%Hlater; [by apply Hfresh|].
      destruct (V !! serialize s) as [q|] eqn:HV; [|done].
      eapply lookup_weaken in HV; [|done]. congruence. }
    exists ((Z.of_nat i, states) :: tr). split_and!.
    + unfold shaped. split_and!.
      * rewrite fmap_cons, Hdist. cbn [length fst].
        rewrite (seqZ_cons (Z.of_nat i)) by lia. do 2 f_equal; lia.
      * apply Forall_cons. by split.
      * simpl. apply NoDup_app. split_and!; [done| |done].
        intros s Hs Hs'. apply Hnew in Hs'.
        destruct (l_cur _ _ _ _ _ Hinv _ (Hcur s Hs)) as (q & Hq & _).
        congruence.
      * intros p Hp. rewrite (Hlen p Hp). simpl. lia.
    + done.
    + simpl. intros s [Hs|Hs]%elem_of_app; [left; by apply Hcur|].
      right. by apply Hnew.
    + intros W onStep onDistance w. cbn [Loop.loop]. rewrite Hplay.
      replace (Z.of_nat i + 1) with (Z.of_nat (S i)) by lia.
      by rewrite Hrun.
Qed.

Lemma solve_play fuel r :
  solve m fuel s0 = Some r →
  ∃ tr,
    shaped 0 r tr ∧ tr ≠ []
    ∧ ∀ W onStep onDistance w,
        Loop.solve serialize deserialize (nextState m) (isComplete m)
          W onStep onDistance fuel s0 w
        = Some (r, Trace.play W onStep onDistance tr w).
Proof.
  intros Hr.
  destruct (loop_play fuel 0 _ _ r (loopInv_start m s0 Hs0)
              (NoDup_singleton _) Hr)
    as (tr & Hshape & Hne & _ & Hrun).
  exists tr. split_and!; [done|by apply Hne|done].
Qed.

(** The search returns, and with any fuel that suffices the hooks are
    called along the same trace. *)
Lemma solve_run :
  ∃ fuel r tr,
    shaped 0 r tr ∧ tr ≠ []
    ∧ ∀ fuel', (fuel ≤ fuel')%nat →
        solve m fuel' s0 = Some r
        ∧ ∀ W onStep onDistance w,
            Loop.solve serialize deserialize (nextState m) (isComplete m)
              W onStep onDistance fuel' s0 w
            = Some (r, Trace.play W onStep onDistance tr w).
Proof.
  destruct (search_terminates m s0 Hs0) as (fuel & r & Hr).
  destruct (solve_play fuel r (Hr fuel ltac:(done)))
    as (tr & Hshape & Hne & Hrun).
  exists fuel, r, tr. split_and!; [done..|].
  intros fuel' Hle. split; [by apply Hr|].
  intros W onStep onDistance w.
  by apply (loop_more W onStep onDistance fuel fuel'), Hrun.
Qed.

End hooks.

(** For [solve] of [src/lib.ts] and for [solve] of the variant. *)
Lemma lib_solve_fst m W onStep onDistance fuel s0 (w : W) :
  fst <$> Lib.solve m onStep onDistance fuel s0 w = Solver.solve m fuel s0.
Proof. exact (solve_fst (Engine.lib m) W onStep onDistance fuel s0 w). Qed.

Lemma lib_solve_None m W onStep onDistance fuel s0 (w : W) :
  Solver.solve m fuel s0 = None →
  Lib.solve m onStep onDistance fuel s0 w = None.
Proof.
  intros Hr. pose proof (lib_solve_fst m W onStep onDistance fuel s0 w) as H.
  rewrite Hr in H. by destruct (Lib.solve _ _ _ _ _ _).
Qed.

Lemma variant_solve_fst m W onStep onDistance fuel s0 (w : W) :
  fst <$> VariantSolver.solve m onStep onDistance fuel s0 w
  = Engine.solve (Engine.variant m) fuel s0.
Proof.
  exact (solve_fst (Engine.variant m) W onStep onDistance fuel s0 w).
Qed.

End LoopFacts.

(** ** The output of the programs *)

Module MainFacts.
Import Console Report.
Section main.
Local Open Scope Z_scope.
Import Solver StateFacts EngineFacts.

(** The lines of [part_000] are the distances of the trace. *)
Lemma play_wait (tr : list (Z * list SokobanState)) (c : list line) :
  Trace.play (list line) None
    (Some (λ distance console,
       console ++ [Log ("wait: " +:+ JS.numToString distance)])) tr c
  = c ++ ((λ d, Log ("wait: " +:+ JS.numToString d)) <$> tr.*1).
Proof.
  revert c. induction tr as [|[d states] tr IH]; intros c; simpl.
  { by rewrite app_nil_r. }
  unfold Trace.play in *. simpl. unfold Trace.playLayer at 2. simpl.
  assert (∀ (l : list SokobanState) (w : list line),
    fold_left (λ w s, Loop.call (list line) None s w) l w = w) as ->.
  { intros l. induction l; [done|]. intros w. simpl. done. }
  rewrite IH. by rewrite <-app_assoc.
Qed.

(** The lines of [src/main.ts]: the count grows by one with each state
    expanded. *)
Lemma play_tried (tr : list (Z * list SokobanState)) d t (c : list line) :
  tr.*1 = seqZ d (Z.of_nat (length tr)) →
  Trace.play (Z * list line)%type
    (Some (λ _ w, (w.1 + 1, w.2)))
    (Some (λ distance w,
       (w.1, w.2 ++ [Log ("wait: " +:+ JS.numToString distance
                          +:+ " (" +:+ JS.numToString w.1
                          +:+ " tried)")]))) tr (t, c)
  = (t + Z.of_nat (sum_list (length <$> tr.*2)),
     c ++ triedLines d t (length <$> tr.*2)).
Proof.
  revert d t c. induction tr as [|[d' states] tr IH]; intros d t c Hd.
  { simpl. rewrite app_nil_r. f_equal. lia. }
  rewrite fmap_cons in Hd. cbn [length fst] in Hd.
  rewrite (seqZ_cons d) in Hd by lia. injection Hd as -> Hd.
  unfold Trace.play in *. cbn [fold_left]. unfold Trace.playLayer at 2.
  cbn [fst snd Loop.call].
  assert (∀ (l : list SokobanState) (w : Z * list line),
    fold_left (λ w s, Loop.call (Z * list line)%type
                        (Some (λ _ w, (w.1 + 1, w.2))) s w) l w
    = (w.1 + Z.of_nat (length l), w.2)) as ->.
  { intros l. induction l as [|s l IHl]; intros [t' c']; simpl.
    - f_equal. lia.
    - rewrite IHl. simpl. f_equal. lia. }
  cbn [fst snd]. rewrite (IH (d + 1) _ _).
  - simpl. rewrite <-app_assoc. simpl. f_equal. unfold fmap. lia.
  - rewrite Hd. f_equal; lia.
Qed.

End main.
End MainFacts.

(** ** The transition function of [src/lib.ts] *)

Module MovesFacts.
Export Moves StringFacts.
Section moves.
Local Open Scope Z_scope.
Import Solver StateFacts.

Variable m : SokobanMap.

Lemma replay_app p q s : replay m (p +:+ q) s = replay m p s ≫= replay m q.
Proof. exact (EngineFacts.replay_append (Engine.lib m) p q s). Qed.

(** What a successful [nextState] tells: the target cell is inside the
    grid and no wall; then a plain step, or a push. *)
Lemma nextState_Some s d w :
  nextState m s d = Some w →
  inBounds m (shift (player s) d) ∧ (key (shift (player s) d) ∉ wallSet m)
  ∧ player w = shift (player s) d
  ∧ (((key (shift (player s) d) ∉ boxSet s) ∧ boxes w = boxes s
      ∧ boxSet w = boxSet s ∧ isInvalid m w = false)
     ∨ (key (shift (player s) d) ∈ boxSet s
        ∧ (key (shift (shift (player s) d) d) ∉ wallSet m)
        ∧ (key (shift (shift (player s) d) d) ∉ boxSet s)
        ∧ boxes w = sortPoints (filter (λ p : Point,
                                 p.1 ≠ (shift (player s) d).1
                                 ∨ p.2 ≠ (shift (player s) d).2)
                                  (boxes s) ++ [shift (shift (player s) d) d])
        ∧ boxSet w = list_to_set (key <$> boxes w))).
Proof. exact (EngineFacts.nextState_accepts (Engine.lib m) s d w). Qed.

(** A plain step onto a free cell is accepted when the deadlock check
    passes. *)
Lemma nextState_plain s d :
  inBounds m (shift (player s) d) →
  key (shift (player s) d) ∉ wallSet m →
  key (shift (player s) d) ∉ boxSet s →
  isInvalid m {| player := shift (player s) d; boxes := boxes s;
                 boxSet := boxSet s |} = false →
  nextState m s d
  = Some {| player := shift (player s) d; boxes := boxes s;
            boxSet := boxSet s |}.
Proof. exact (EngineFacts.nextState_walks (Engine.lib m) s d). Qed.

(** The four ways in which [nextState] refuses a move. A push is refused
    only when the cell behind the box is a wall or a box; [isInvalid] is
    asked about plain steps alone. *)
Lemma nextState_None s d :
  nextState m s d = None
  ↔ ¬ inBounds m (shift (player s) d)
    ∨ key (shift (player s) d) ∈ wallSet m
    ∨ (key (shift (player s) d) ∈ boxSet s
       ∧ (key (shift (shift (player s) d) d) ∈ wallSet m
          ∨ key (shift (shift (player s) d) d) ∈ boxSet s))
    ∨ ((key (shift (player s) d) ∉ boxSet s)
       ∧ isInvalid m {| player := shift (player s) d; boxes := boxes s;
                        boxSet := boxSet s |} = true).
Proof.
  unfold nextState, has, shift, inBounds. simpl.
  destruct (isInvalid m _) eqn:Hinv;
    repeat case_bool_decide; split; try done; try tauto; try (intros _; lia).
  all: intros [?| [?| [[? ?]|[? ?]]]]; try tauto; try lia; done.
Qed.

Lemma isInvalid_boxSet s s' :
  boxSet s = boxSet s' → isInvalid m s = isInvalid m s'.
Proof. unfold isInvalid. by intros ->. Qed.

(** The check finds nothing where every box of the set is on a goal. *)
Lemma isInvalid_on_goals s :
  boxSet s ⊆ goalSet m → isInvalid m s = false.
Proof.
  intros Hsub. apply not_true_is_false. unfold isInvalid.
  rewrite existsb_exists. intros (y & _ & Hy).
  apply existsb_exists in Hy as (x & _ & Hx).
  destruct (negb _ || _ || _ || _); [done|].
  assert (∀ k, has (boxSet s) k && negb (has (goalSet m) k) = false) as Hk.
  { intros k. unfold has. do 2 case_bool_decide; set_solver. }
  by rewrite !Hk in Hx.
Qed.

(** [nextState] keeps states canonical and leaves the player settled. *)
Lemma nextState_canonical s d w :
  canonical s → nextState m s d = Some w → d ≠ (0, 0) →
  canonical w ∧ settled m w.
Proof. exact (EngineFacts.nextState_keeps_canonical (Engine.lib m) s d w). Qed.

End moves.
End MovesFacts.

(** ** The deadlock detector: what the code computes, and why the rule it
    aims at is safe *)

Module DeadlockFacts.
Section deadlock.
Local Open Scope Z_scope.
Import Solver StateFacts Moves Deadlock.

Variable m : SokobanMap.

(** A box of the box set that stands off the goals. *)
Definition offGoal (s : SokobanState) (p : Point) : Prop :=
  boxAt s p ∧ ¬ goalAt m p.

Lemma offGoal_has s p :
  has (boxSet s) (key p) && negb (has (goalSet m) (key p)) = true
  ↔ offGoal s p.
Proof.
  unfold offGoal, boxAt, goalAt, has.
  rewrite andb_true_iff, negb_true_iff, bool_decide_eq_true.
  by rewrite bool_decide_eq_false.
Qed.

Lemma blocked_has s p :
  has (wallSet m) (key p) || has (boxSet s) (key p) = true
  ↔ wallAt m p ∨ boxAt s p.
Proof.
  unfold wallAt, boxAt, has. by rewrite orb_true_iff, !bool_decide_eq_true.
Qed.

Lemma window_elem x y p :
  p ∈ window x y
  ↔ p = (x - 1, y - 1) ∨ p = (x, y - 1) ∨ p = (x - 1, y) ∨ p = (x, y).
Proof. unfold window. rewrite !elem_of_cons, elem_of_nil. tauto. Qed.

(** What [isInvalid] computes: a frozen window, and an off-goal box in three
    of its cells or in the cell of column [1] on the upper row. *)
Lemma isInvalid_true s :
  isInvalid m s = true
  ↔ ∃ x y, frozen m s x y
           ∧ (offGoal s (x - 1, y - 1) ∨ offGoal s (1, y - 1)
              ∨ offGoal s (x - 1, y) ∨ offGoal s (x, y)).
Proof.
  unfold isInvalid. rewrite existsb_exists. split.
  - intros (y & Hy & Hex). apply existsb_exists in Hex as (x & Hx & Hbody).
    apply list_elem_of_In, elem_of_seqZ in Hy, Hx.
    exists x, y.
    destruct (negb _ || _ || _ || _) eqn:Hwin in Hbody; [done|].
    rewrite !orb_false_iff, !negb_false_iff, !blocked_has in Hwin.
    rewrite !orb_true_iff, !offGoal_has in Hbody.
    split; [|tauto]. split_and!; [lia..|].
    intros p [->| [->| [->| ->]]]%window_elem; tauto.
  - intros (x & y & (Hx & Hy & Hwin) & Hoff).
    exists y. split; [apply list_elem_of_In, elem_of_seqZ; lia|].
    apply existsb_exists. exists x.
    split; [apply list_elem_of_In, elem_of_seqZ; lia|].
    assert (∀ p, p ∈ window x y →
      negb (has (wallSet m) (key p) || has (boxSet s) (key p)) = false)
      as Hblocked.
    { intros p Hp. apply negb_false_iff, blocked_has, Hwin, Hp. }
    rewrite !Hblocked by (apply window_elem; tauto). simpl.
    rewrite !orb_true_iff, !offGoal_has. tauto.
Qed.

(** Only the second of the four tests keeps [isInvalid] from the rule of
    the specification: with column [x] in place of column [1] the right-hand
    side above is [deadlocked]. *)
Lemma deadlocked_windows s :
  deadlocked m s
  ↔ ∃ x y, frozen m s x y
           ∧ (offGoal s (x - 1, y - 1) ∨ offGoal s (x, y - 1)
              ∨ offGoal s (x - 1, y) ∨ offGoal s (x, y)).
Proof.
  unfold deadlocked, offGoal. split.
  - intros (x & y & Hf & p & Hp & Hoff). exists x, y. split; [done|].
    apply window_elem in Hp as [->| [->| [->| ->]]]; tauto.
  - intros (x & y & Hf & Hoff). exists x, y. split; [done|].
    destruct Hoff as [Hoff| [Hoff| [Hoff| Hoff]]];
      (eexists; split; [|exact Hoff]); apply window_elem; tauto.
Qed.

(** *** A frozen window stays frozen *)

(** The box set mirrors the box array and the player stands neither on a
    wall nor on a box. *)
Definition sound (s : SokobanState) : Prop :=
  boxSet s = list_to_set (key <$> boxes s)
  ∧ ¬ wallAt m (player s) ∧ ¬ boxAt s (player s).

Definition unit (d : Point) : Prop :=
  d = (0, -1) ∨ d = (-1, 0) ∨ d = (0, 1) ∨ d = (1, 0).

Lemma dirOf_unit c d : dirOf c = Some d → unit d.
Proof. unfold dirOf, unit. repeat case_decide; naive_solver. Qed.

(** The boxes after a push. *)
Lemma rawStep_push s d w :
  sound s → unit d → rawStep m s d = Some w →
  boxAt s (shift (player s) d) →
  player w = shift (player s) d
  ∧ boxSet w = list_to_set (key <$> boxes w)
  ∧ ¬ wallAt m (shift (shift (player s) d) d)
  ∧ ¬ boxAt s (shift (shift (player s) d) d)
  ∧ ∀ p, boxAt w p
         ↔ (boxAt s p ∧ p ≠ shift (player s) d)
           ∨ p = shift (shift (player s) d) d.
Proof.
  intros (Hset & _ & _) Hd. unfold rawStep, boxAt, wallAt, shift, has.
  repeat case_bool_decide; try done; simpl; intros [= <-] _; simpl.
  split_and!; try done. intros p.
  rewrite Hset, !elem_of_list_to_set, !list_elem_of_fmap. split.
  - intros (q & Hk & Hq). apply key_inj in Hk as <-.
    apply sortPoints_elem, elem_of_app in Hq as [Hq|Hq].
    + apply list_elem_of_filter in Hq as [? ?]. left. eauto.
    + apply list_elem_of_singleton in Hq. by right.
  - intros [[(q & Hk & Hq) Hne]| ->].
    + apply key_inj in Hk as <-. exists p. split; [done|].
      apply sortPoints_elem, elem_of_app. left.
      by apply list_elem_of_filter.
    + eexists. split; [done|].
      apply sortPoints_elem, elem_of_app. right. by apply list_elem_of_singleton.
Qed.

(** A step without a push. *)
Lemma rawStep_walk s d w :
  rawStep m s d = Some w → ¬ boxAt s (shift (player s) d) →
  player w = shift (player s) d ∧ boxes w = boxes s ∧ boxSet w = boxSet s.
Proof.
  unfold rawStep, boxAt, shift, has.
  repeat case_bool_decide; try done; by intros [= <-].
Qed.

Lemma rawStep_target s d w :
  rawStep m s d = Some w → ¬ wallAt m (shift (player s) d).
Proof.
  unfold rawStep, wallAt, shift, has. repeat case_bool_decide; done.
Qed.

(** No box of a frozen window can be pushed: the cell behind it is in the
    window, or the player would have to stand in the window. *)
Lemma frozen_unpushable s x y d :
  frozen m s x y → unit d →
  shift (player s) d ∈ window x y →
  shift (shift (player s) d) d ∈ window x y ∨ player s ∈ window x y.
Proof.
  intros _ Hd. rewrite !window_elem. unfold shift.
  destruct (player s) as [px py]. simpl.
  destruct Hd as [->| [->| [->| ->]]]; simpl; intros Hin;
    destruct Hin as [Hin| [Hin| [Hin| Hin]]]; simplify_eq.
  all: first [ left; first [ left; f_equal; lia
                           | right; left; f_equal; lia
                           | right; right; left; f_equal; lia
                           | right; right; right; f_equal; lia ]
             | right; first [ left; f_equal; lia
                            | right; left; f_equal; lia
                            | right; right; left; f_equal; lia
                            | right; right; right; f_equal; lia ] ].
Qed.

Lemma rawStep_deadlocked s d w :
  sound s → unit d → deadlocked m s → rawStep m s d = Some w →
  sound w ∧ deadlocked m w.
Proof.
  intros Hs Hd (x & y & Hf & p & Hp & Hbox & Hgoal) Hstep.
  pose proof (rawStep_target _ _ _ Hstep) as Hnowall.
  destruct (decide (key (shift (player s) d) ∈ boxSet s)) as [Hpush|Hwalk].
  - destruct (rawStep_push _ _ _ Hs Hd Hstep Hpush)
      as (Hpl & Hset & Hlw & Hlb & Hboxes).
    assert (shift (player s) d ∉ window x y) as Hout.
    { intros Hin. destruct Hs as (_ & ? & ?).
      destruct (frozen_unpushable _ _ _ _ Hf Hd Hin) as [Hl|Hl];
        apply Hf in Hl; tauto. }
    split.
    + split_and!; [done|by rewrite Hpl|].
      rewrite Hpl, Hboxes. intros [[_ ?]|Heq]; [done|].
      unfold shift in Heq. destruct Hd as [->| [->| [->| ->]]];
        simpl in Heq; simplify_eq; lia.
    + exists x, y. destruct Hf as (Hx & Hy & Hwin). split.
      * split; [done|]. split; [done|]. intros q Hq.
        destruct (Hwin q Hq) as [?|?]; [by left|right].
        apply Hboxes. left. split; [done|]. by intros ->.
      * exists p. split_and!; [done| |done].
        apply Hboxes. left. split; [done|]. by intros ->.
  - destruct (rawStep_walk _ _ _ Hstep Hwalk) as (Hpl & Hb & Hbs).
    destruct Hs as (Hset & _ & _). split.
    + unfold sound, boxAt. rewrite Hpl, Hb, Hbs. done.
    + exists x, y. unfold frozen, boxAt in *. rewrite Hbs. eauto 10.
Qed.

(** The rule of the specification is safe: no sequence of moves, pushes
    included, completes a state that has a frozen window with a box off the
    goals. *)
Lemma deadlocked_dead path s w :
  sound s → deadlocked m s → rawReplay m path s = Some w →
  isComplete m w = false.
Proof.
  revert s. induction path as [|c path IH]; intros s Hs Hdead; simpl.
  - intros [= <-]. destruct Hdead as (x & y & _ & p & _ & Hbox & Hgoal).
    destruct Hs as (Hset & _). unfold boxAt in Hbox.
    rewrite Hset, elem_of_list_to_set, list_elem_of_fmap in Hbox.
    destruct Hbox as (q & Hk & Hq). apply key_inj in Hk as <-.
    apply not_true_is_false. unfold isComplete.
    rewrite forallb_forall. intros Hall. apply Hgoal.
    apply list_elem_of_In, Hall in Hq. by apply bool_decide_eq_true in Hq.
  - destruct (dirOf c) as [d|] eqn:Hd; [|done]. simpl.
    destruct (rawStep m s d) as [s'|] eqn:Hstep; [|done]. simpl.
    apply dirOf_unit in Hd.
    destruct (rawStep_deadlocked _ _ _ Hs Hd Hdead Hstep). by apply IH.
Qed.

End deadlock.
End DeadlockFacts.

(** ** The deadlock check of the variant prunes dead states only *)

Module PruningFacts.
Export Pruning.
Section pruning.
Local Open Scope Z_scope.
Import Solver StateFacts Moves Deadlock DeadlockFacts BoardFacts.

Variable m : SokobanMap.

Lemma rawStep_sound s d w :
  sound m s → unit d → rawStep m s d = Some w → sound m w.
Proof.
  intros Hs Hd Hstep.
  pose proof (rawStep_target _ _ _ _ Hstep) as Hnowall.
  destruct (decide (key (shift (player s) d) ∈ boxSet s)) as [Hpush|Hwalk].
  - destruct (rawStep_push _ _ _ _ Hs Hd Hstep Hpush)
      as (Hpl & Hset & _ & _ & Hboxes).
    split_and!; [done|by rewrite Hpl|].
    rewrite Hpl, Hboxes. intros [[_ ?]|Heq]; [done|].
    unfold shift in Heq. destruct Hd as [->| [->| [->| ->]]];
      simpl in Heq; simplify_eq; lia.
  - destruct (rawStep_walk _ _ _ _ Hstep Hwalk) as (Hpl & Hb & Hbs).
    destruct Hs as (Hset & _ & _).
    unfold sound, boxAt. rewrite Hpl, Hb, Hbs. done.
Qed.

Lemma wallAt_eq (p q : Point) :
  p.1 = q.1 → p.2 = q.2 → wallAt m p → wallAt m q.
Proof. destruct p, q. simpl. by intros -> ->. Qed.

(** A pinned box is never pushed. *)
Lemma rawStep_pinned s d w p :
  sound m s → unit d → pinned m s p → rawStep m s d = Some w →
  pinned m w p.
Proof.
  intros Hs Hd (Hbox & Hgoal & Hh & Hv) Hstep.
  split_and!; [|done..].
  destruct (decide (key (shift (player s) d) ∈ boxSet s)) as [Hpush|Hwalk].
  - destruct (rawStep_push _ _ _ _ Hs Hd Hstep Hpush)
      as (_ & _ & Hlw & _ & Hboxes).
    apply Hboxes. left. split; [done|]. intros ->.
    destruct Hs as (_ & Hpw & _). unfold shift in *.
    destruct (player s) as [px py]. simpl in *.
    destruct Hd as [->| [->| [->| ->]]]; simpl in *.
    + destruct Hv as [Hw|Hw]; [apply Hlw|apply Hpw]; revert Hw;
        apply wallAt_eq; simpl; lia.
    + destruct Hh as [Hw|Hw]; [apply Hlw|apply Hpw]; revert Hw;
        apply wallAt_eq; simpl; lia.
    + destruct Hv as [Hw|Hw]; [apply Hpw|apply Hlw]; revert Hw;
        apply wallAt_eq; simpl; lia.
    + destruct Hh as [Hw|Hw]; [apply Hpw|apply Hlw]; revert Hw;
        apply wallAt_eq; simpl; lia.
  - destruct (rawStep_walk _ _ _ _ Hstep Hwalk) as (_ & _ & Hbs).
    unfold boxAt in *. by rewrite Hbs.
Qed.

Lemma pinned_dead s p : sound m s → pinned m s p → dead m s.
Proof.
  intros Hs Hp path. revert s Hs Hp.
  induction path as [|c path IH]; intros s Hs Hp w; simpl.
  - intros [= <-]. destruct Hp as (Hbox & Hgoal & _).
    destruct Hs as (Hset & _). unfold boxAt in Hbox.
    rewrite Hset, elem_of_list_to_set, list_elem_of_fmap in Hbox.
    destruct Hbox as (q & Hk & Hq). apply key_inj in Hk as <-.
    apply not_true_is_false. unfold isComplete.
    rewrite forallb_forall. intros Hall. apply Hgoal.
    apply list_elem_of_In, Hall in Hq. by apply bool_decide_eq_true in Hq.
  - destruct (dirOf c) as [d|] eqn:Hd; [|done]. simpl.
    destruct (rawStep m s d) as [s'|] eqn:Hstep; [|done]. simpl.
    apply dirOf_unit in Hd. apply IH.
    + by eapply rawStep_sound.
    + by eapply rawStep_pinned.
Qed.

(** A box cornered in a window is pinned. *)
Lemma cornered_pinned s x y p :
  p ∈ window x y → boxAt s p → ¬ goalAt m p → cornered m x y p →
  pinned m s p.
Proof.
  intros Hp Hbox Hgoal Hc. split_and!; [done..| |].
  - apply window_elem in Hp as [->|[->|[->| ->]]]; simpl.
    + right. apply (wallAt_eq (x, y - 1)); [simpl; lia..|].
      apply Hc; [apply window_elem; tauto|unfold beside; simpl; lia].
    + left. apply (wallAt_eq (x - 1, y - 1)); [simpl; lia..|].
      apply Hc; [apply window_elem; tauto|unfold beside; simpl; lia].
    + right. apply (wallAt_eq (x, y)); [simpl; lia..|].
      apply Hc; [apply window_elem; tauto|unfold beside; simpl; lia].
    + left. apply (wallAt_eq (x - 1, y)); [simpl; lia..|].
      apply Hc; [apply window_elem; tauto|unfold beside; simpl; lia].
  - apply window_elem in Hp as [->|[->|[->| ->]]]; simpl.
    + right. apply (wallAt_eq (x - 1, y)); [simpl; lia..|].
      apply Hc; [apply window_elem; tauto|unfold beside; simpl; lia].
    + right. apply (wallAt_eq (x, y)); [simpl; lia..|].
      apply Hc; [apply window_elem; tauto|unfold beside; simpl; lia].
    + left. apply (wallAt_eq (x - 1, y - 1)); [simpl; lia..|].
      apply Hc; [apply window_elem; tauto|unfold beside; simpl; lia].
    + left. apply (wallAt_eq (x, y - 1)); [simpl; lia..|].
      apply Hc; [apply window_elem; tauto|unfold beside; simpl; lia].
Qed.

(** What the rule of [stuck] flags is dead. *)
Lemma stuck_dead s : sound m s → stuck m s → dead m s.
Proof.
  intros Hs (x & y & Hx & Hy & p & Hp & Hbox & Hgoal & [Hfrozen|Hcorner]).
  - intros path w. apply (deadlocked_dead m path s w Hs).
    exists x, y. split; [exact (conj Hx (conj Hy Hfrozen))|]. by exists p.
  - by eapply pinned_dead, cornered_pinned.
Qed.

End pruning.
End PruningFacts.

(** ** The deadlock check of the variant *)

Module VariantFacts.
Section variant.
Local Open Scope Z_scope.
Import Solver StateFacts Moves Deadlock DeadlockFacts PruningFacts.

Variable m : SokobanMap.

(** The chain of tests of one window, as one disjunction. *)
Lemma variant_body (wTL wTR wBL wBR bTL bTR bBL bBR gTL gTR gBL gBR : bool) :
  (if (wTL || bTL) && (wTR || bTR) && (wBL || bBL) && (wBR || bBR)
      && ((negb gTL && bTL) || (negb gTR && bTR) || (negb gBL && bBL)
          || (negb gBR && bBR))
   then true
   else if bTL && negb gTL && wTR && wBL then true
   else if bTR && negb gTR && wTL && wBR then true
   else if bBL && negb gBL && wBR && wTL then true
   else if bBR && negb gBR && wBL && wTR then true
   else false)
  = ((wTL || bTL) && (wTR || bTR) && (wBL || bBL) && (wBR || bBR)
     && ((bTL && negb gTL) || (bTR && negb gTR) || (bBL && negb gBL)
         || (bBR && negb gBR)))
    || (bTL && negb gTL) && wTR && wBL
    || (bTR && negb gTR) && wTL && wBR
    || (bBL && negb gBL) && wBR && wTL
    || (bBR && negb gBR) && wBL && wTR.
Proof.
  destruct wTL, wTR, wBL, wBR, bTL, bTR, bBL, bBR; simpl;
    by destruct gTL, gTR, gBL, gBR.
Qed.

Lemma has_true (X : gset string) k : has X k = true ↔ k ∈ X.
Proof. apply bool_decide_eq_true. Qed.

Lemma has_false (X : gset string) k : negb (has X k) = true ↔ k ∉ X.
Proof. unfold has. by rewrite negb_true_iff, bool_decide_eq_false. Qed.

(** What the variant computes: some window of the grid holds a box off
    the goals that is frozen in it, all four cells blocked, or cornered in
    it, the two cells beside it walls. *)
Lemma variant_flags s : Variant.isInvalid m s = true ↔ stuck m s.
Proof.
  unfold Variant.isInvalid, stuck. rewrite existsb_exists.
  change Variant.serializePoint with key. split.
  - intros (y & Hy & (x & Hx & Hbody)%existsb_exists).
    apply list_elem_of_In, elem_of_seqZ in Hy, Hx.
    exists x, y. split; [lia|]. split; [lia|].
    rewrite variant_body in Hbody.
    rewrite !orb_true_iff, !andb_true_iff, !orb_true_iff in Hbody.
    rewrite !andb_true_iff, !has_false, !has_true in Hbody.
    unfold cornered, beside, wallAt, boxAt, goalAt.
    destruct Hbody as [[[[(Hblocked & Hoff)|Hc]|Hc]|Hc]|Hc].
    + assert (∀ q, q ∈ window x y → key q ∈ wallSet m ∨ key q ∈ boxSet s)
        as Hall.
      { intros q [->|[->|[->| ->]]]%window_elem; tauto. }
      destruct Hoff as [[[Ho|Ho]|Ho]|Ho];
        (eexists; split_and!; [|apply Ho..|by left]);
        apply window_elem; tauto.
    + exists (x - 1, y - 1). split_and!; [apply window_elem; tauto|tauto..|].
      right. intros q [->|[->|[->| ->]]]%window_elem; simpl;
        first [lia|tauto].
    + exists (x, y - 1). split_and!; [apply window_elem; tauto|tauto..|].
      right. intros q [->|[->|[->| ->]]]%window_elem; simpl;
        first [lia|tauto].
    + exists (x - 1, y). split_and!; [apply window_elem; tauto|tauto..|].
      right. intros q [->|[->|[->| ->]]]%window_elem; simpl;
        first [lia|tauto].
    + exists (x, y). split_and!; [apply window_elem; tauto|tauto..|].
      right. intros q [->|[->|[->| ->]]]%window_elem; simpl;
        first [lia|tauto].
  - intros (x & y & Hx & Hy & p & Hp & Hbox & Hgoal & Hcase).
    exists y. split; [apply list_elem_of_In, elem_of_seqZ; lia|].
    apply existsb_exists. exists x.
    split; [apply list_elem_of_In, elem_of_seqZ; lia|].
    rewrite variant_body.
    rewrite !orb_true_iff, !andb_true_iff, !orb_true_iff.
    rewrite !andb_true_iff, !has_false, !has_true.
    unfold cornered, beside, wallAt, boxAt, goalAt in *.
    destruct Hcase as [Hall|Hc].
    + do 4 left.
      pose proof (Hall (x - 1, y - 1) ltac:(apply window_elem; tauto)).
      pose proof (Hall (x, y - 1) ltac:(apply window_elem; tauto)).
      pose proof (Hall (x - 1, y) ltac:(apply window_elem; tauto)).
      pose proof (Hall (x, y) ltac:(apply window_elem; tauto)).
      apply window_elem in Hp as [->|[->|[->| ->]]]; tauto.
    + pose proof (λ H, Hc (x - 1, y - 1) ltac:(apply window_elem; tauto) H)
        as Htl.
      pose proof (λ H, Hc (x, y - 1) ltac:(apply window_elem; tauto) H)
        as Htr.
      pose proof (λ H, Hc (x - 1, y) ltac:(apply window_elem; tauto) H)
        as Hbl.
      pose proof (λ H, Hc (x, y) ltac:(apply window_elem; tauto) H) as Hbr.
      apply window_elem in Hp as [->|[->|[->| ->]]]; simpl in *.
      * do 3 left. right. split_and!; [done..|apply Htr; lia|apply Hbl; lia].
      * do 2 left. right. split_and!; [done..|apply Htl; lia|apply Hbr; lia].
      * left. right. split_and!; [done..|apply Hbr; lia|apply Htl; lia].
      * right. split_and!; [done..|apply Hbl; lia|apply Htr; lia].
Qed.

(** The variant flags dead states only. *)
Lemma variant_sound s :
  sound m s → Variant.isInvalid m s = true → dead m s.
Proof. intros Hs Hflag%variant_flags. by apply stuck_dead. Qed.

(** It flags no state whose boxes are all on goals. *)
Lemma variant_on_goals s :
  boxSet s ⊆ goalSet m → Variant.isInvalid m s = false.
Proof.
  intros Hsub. apply not_true_is_false.
  intros (x & y & _ & _ & p & _ & Hbox & Hgoal & _)%variant_flags.
  by apply Hgoal, Hsub.
Qed.

Lemma variant_boxSet s s' :
  boxSet s = boxSet s' → Variant.isInvalid m s = Variant.isInvalid m s'.
Proof. unfold Variant.isInvalid. by intros ->. Qed.

End variant.
End VariantFacts.

(** ** A search pruned by a sound check loses no solution *)

Module CompleteFacts.
Section rules.
Local Open Scope Z_scope.
Import Solver StateFacts EngineFacts DeadlockFacts PruningFacts BoardFacts.
Import Engine.

Variable m : Rules.

Hypothesis Hgoals : ∀ s, boxSet s ⊆ goalSet m → check m s = false.
Hypothesis Hsound : ∀ s, sound m s → check m s = true → dead m s.

Lemma wellFormed_sound s : wellFormed m s → sound m s.
Proof.
  intros [_ Hfl Hap _ _ Hcan]. split_and!; [apply Hcan|done|].
  unfold Deadlock.boxAt. by rewrite (boxSet_elem s _ Hcan).
Qed.

(** The moves of a solution of the game are all accepted: none of its
    states is dead, so none is flagged. *)
Lemma raw_accepted p s w :
  sound m s → rawReplay m p s = Some w → isComplete m w = true →
  replay m p s = Some w.
Proof.
  revert s. induction p as [|c p IH]; intros s Hs; simpl; [done|].
  destruct (dirOf c) as [d|] eqn:Hd; [|done]. simpl.
  destruct (rawStep m s d) as [s1|] eqn:Hs1; [|done]. simpl.
  intros Hw Hc.
  pose proof (rawStep_sound m s d s1 Hs (dirOf_unit _ _ Hd) Hs1) as Hsound1.
  assert (check m s1 = false) as Hchk.
  { apply not_true_is_false. intros Hflag.
    by rewrite (Hsound s1 Hsound1 Hflag p w Hw) in Hc. }
  rewrite (rawStep_nextState m s d s1 Hs1 Hchk). simpl. by apply IH.
Qed.

Variable s0 : SokobanState.
Hypothesis Hs0 : wellFormed m s0.

(** If the game has a solution of one move or more, the search returns
    one, and none is shorter. *)
Lemma pruned_finds p w :
  p ≠ EmptyString → rawReplay m p s0 = Some w → isComplete m w = true →
  ∃ fuel q w',
    (∀ fuel', (fuel ≤ fuel')%nat → solve m fuel' s0 = Some (Some q))
    ∧ rawReplay m q s0 = Some w' ∧ isComplete m w' = true
    ∧ ∀ p' s', p' ≠ EmptyString → rawReplay m p' s0 = Some s' →
               isComplete m s' = true →
               (String.length q ≤ String.length p')%nat.
Proof.
  intros Hp Hw Hc. pose proof (b_canonical _ _ Hs0) as Hcan.
  pose proof (wellFormed_sound s0 Hs0) as Hsnd.
  destruct (search_finds m Hgoals s0 Hcan p w Hp
              (raw_accepted p s0 w Hsnd Hw Hc) Hc) as (fuel & q & Hq & _).
  destruct (search_sound m s0 Hcan fuel q Hq) as (_ & w' & Hw' & Hc').
  exists fuel, q, w'. split_and!; [|by apply replay_rawReplay|done|].
  - intros fuel' Hle. by eapply search_mono.
  - intros p' s' Hp' Hs' Hcs'.
    destruct (search_finds m Hgoals s0 Hcan p' s' Hp'
                (raw_accepted p' s0 s' Hsnd Hs' Hcs') Hcs')
      as (fuel' & q' & Hq' & Hlen).
    by pose proof (search_det m s0 _ _ _ _ Hq Hq') as [= ->].
Qed.

(** The search returns [null] exactly when the game has no solution of
    one move or more. *)
Lemma pruned_null :
  (∃ fuel, ∀ fuel', (fuel ≤ fuel')%nat → solve m fuel' s0 = Some None)
  ↔ ¬ ∃ p w, p ≠ EmptyString ∧ rawReplay m p s0 = Some w
             ∧ isComplete m w = true.
Proof.
  pose proof (b_canonical _ _ Hs0) as Hcan. split.
  - intros [fuel Hnull] (p & w & Hp & Hw & Hc).
    destruct (pruned_finds p w Hp Hw Hc) as (fuel' & q & _ & Hq & _).
    specialize (Hnull (fuel `max` fuel')%nat ltac:(lia)).
    specialize (Hq (fuel `max` fuel')%nat ltac:(lia)). congruence.
  - intros Hnone.
    destruct (search_terminates m s0 Hcan) as (fuel & r & Hr).
    exists fuel. intros fuel' Hle. rewrite (Hr fuel' Hle).
    destruct r as [q|]; [|done]. exfalso. apply Hnone.
    destruct (search_sound m s0 Hcan fuel q) as (Hq & w & Hw & Hc);
      [by apply Hr|].
    exists q, w. split_and!; [done|by apply replay_rawReplay|done].
Qed.

End rules.
End CompleteFacts.

(** ** The breadth-first search of [src/lib.ts] *)

Module Search.
Section search.
Local Open Scope Z_scope.
Import Solver StateFacts MovesFacts.

Variable m : SokobanMap.
Variable s0 : SokobanState.
Hypothesis Hs0 : canonical s0.

Lemma solve_terminates :
  ∃ fuel r, ∀ fuel', (fuel ≤ fuel')%nat → solve m fuel' s0 = Some r.
Proof.
  exact (EngineFacts.search_terminates (Engine.lib m) s0 Hs0).
Qed.

Lemma solve_sound fuel q :
  solve m fuel s0 = Some (Some q) →
  q ≠ EmptyString ∧ ∃ w, replay m q s0 = Some w ∧ isComplete m w = true.
Proof.
  exact (EngineFacts.search_sound (Engine.lib m) s0 Hs0 fuel q).
Qed.

Lemma solve_finds p s :
  p ≠ EmptyString → replay m p s0 = Some s → isComplete m s = true →
  ∃ fuel q, solve m fuel s0 = Some (Some q)
            ∧ (String.length q ≤ String.length p)%nat.
Proof.
  exact (EngineFacts.search_finds (Engine.lib m) (isInvalid_on_goals m)
           s0 Hs0 p s).
Qed.

Lemma solve_mono fuel fuel' r :
  (fuel ≤ fuel')%nat → solve m fuel s0 = Some r → solve m fuel' s0 = Some r.
Proof. exact (EngineFacts.search_mono (Engine.lib m) s0 fuel fuel' r). Qed.

Lemma solve_det fuel fuel' r r' :
  solve m fuel s0 = Some r → solve m fuel' s0 = Some r' → r = r'.
Proof.
  exact (EngineFacts.search_det (Engine.lib m) s0 fuel fuel' r r').
Qed.

End search.
End Search.

(** ** The first layer: what [solve] returns is never the empty string *)

Module FirstMove.
Section firstMove.
Local Open Scope Z_scope.
Import Solver StateFacts MovesFacts EngineFacts.

Variable m : SokobanMap.

(** A returned path ends in the code of the move that completed. *)
Definition endsInCode (p : string) : Prop :=
  ∃ path c, p = path +:+ String c EmptyString.

Lemma visit_Found s path d c vn p :
  visit m s path d (String c EmptyString) vn = Found p → endsInCode p.
Proof.
  unfold visit. destruct (nextState m s d); [|done].
  case_bool_decide; [done|]. destruct (isComplete m _); [|done].
  intros [= <-]. by exists path, c.
Qed.

Lemma expand_Found k vn p : expand m k vn = Some (Found p) → endsInCode p.
Proof.
  unfold expand. destruct (deserialize k) as [s|]; [|done]. simpl.
  set (path := default _ _).
  destruct (visit m s path (0, -1) "W" vn) as [p1|vn1] eqn:H1; simpl.
  { intros [= <-]. by eapply visit_Found. }
  destruct (visit m s path (-1, 0) "A" vn1) as [p2|vn2] eqn:H2; simpl.
  { intros [= <-]. by eapply visit_Found. }
  destruct (visit m s path (0, 1) "S" vn2) as [p3|vn3] eqn:H3; simpl.
  { intros [= <-]. by eapply visit_Found. }
  intros [= Hp]. by eapply visit_Found.
Qed.

Lemma layer_Found cur vn p : layer m cur vn = Some (Found p) → endsInCode p.
Proof.
  revert vn. induction cur as [|k cur IH]; intros vn; simpl; [done|].
  destruct (expand m k vn) as [[p'|vn']|] eqn:Hex; [|by apply IH|done].
  intros [= <-]. by eapply expand_Found.
Qed.

Lemma loop_Found fuel V cur p :
  loop m fuel V cur = Some (Some p) → endsInCode p.
Proof.
  revert V cur. induction fuel as [|fuel IH]; intros V cur.
  { by destruct cur. }
  destruct cur as [|k cur]; [done|]. cbn [loop].
  destruct (layer m (k :: cur) (V, [])) as [[p'|[V' N']]|] eqn:Hl;
    [|by apply IH|done].
  intros [= <-]. by eapply layer_Found.
Qed.

Lemma endsInCode_length p : endsInCode p → (1 ≤ String.length p)%nat.
Proof.
  intros (path & c & ->). rewrite string_length_app. simpl. lia.
Qed.

(** *** A level without boxes *)

Definition bare (p : Point) : SokobanState :=
  {| player := p; boxes := []; boxSet := ∅ |}.

Lemma nextState_bare p d :
  nextState m (bare p) d
  = if legal m p d then Some (bare (shift p d)) else None.
Proof.
  unfold legal. case_bool_decide as Hin; simpl.
  - destruct (has (wallSet m) _) eqn:Hwall; simpl.
    + unfold nextState. simpl. unfold shift in Hwall. simpl in Hwall.
      rewrite Hwall. by case_bool_decide.
    + apply nextState_plain; simpl; [done| |set_solver|].
      * unfold has in Hwall. by apply bool_decide_eq_false in Hwall.
      * apply isInvalid_on_goals. simpl. set_solver.
  - unfold nextState. simpl. rewrite bool_decide_true; [done|].
    unfold inBounds, shift in Hin. simpl in Hin. lia.
Qed.

Lemma visit_bare p d c (V : gmap string string) :
  d ≠ (0, 0) → V = {[serialize (bare p) := EmptyString]} →
  visit m (bare p) EmptyString d (String c EmptyString) (V, [])
  = if legal m p d then Found (String c EmptyString) else Continue (V, []).
Proof.
  intros Hd ->. unfold visit. rewrite nextState_bare.
  destruct (legal m p d); [|done]. simpl.
  rewrite bool_decide_false; [done|].
  rewrite lookup_singleton_is_Some. intros Heq%serialize_player.
  apply Hd. unfold shift in Heq. simpl in Heq.
  destruct d, p. simpl in *. simplify_eq. f_equal; lia.
Qed.

(** Without boxes [solve] returns the code of the first legal move, or
    [null] when the player cannot move at all. *)
Lemma solve_bare fuel s0 :
  boxes s0 = [] → solve m (S fuel) s0 = Some (firstLegal m (player s0)).
Proof.
  intros Hb. unfold solve. cbn [loop layer]. unfold expand.
  rewrite deserialize_serialize. simpl. rewrite lookup_singleton_eq. simpl.
  assert (canon s0 = bare (player s0)) as ->.
  { unfold canon, bare. rewrite Hb. done. }
  assert (serialize s0 = serialize (bare (player s0))) as ->.
  { unfold serialize. by rewrite Hb. }
  unfold firstLegal.
  rewrite (visit_bare _ _ "W") by done.
  destruct (legal m _ (0, -1)); [done|]. simpl.
  rewrite (visit_bare _ _ "A") by done.
  destruct (legal m _ (-1, 0)); [done|]. simpl.
  rewrite (visit_bare _ _ "S") by done.
  destruct (legal m _ (0, 1)); [done|]. simpl.
  rewrite (visit_bare _ _ "D") by done.
  destruct (legal m _ (1, 0)); [done|]. simpl. by destruct fuel.
Qed.

End firstMove.
End FirstMove.

(** ** The flood fill of the parser *)

Module FloodFacts.
Export Grid.

Lemma connected_ext (free free' : Cell → Prop) c0 c :
  (∀ a, free a → free' a) → connected free c0 c → connected free' c0 c.
Proof.
  intros Hf. induction 1; [apply connected_start|eapply connected_step];
    eauto.
Qed.

Section flood.
Import Parser.

Variable wallSet : gset string.
Variables width height : nat.

(** The array has [height] rows of [width] entries. *)
Definition wf (r : list (list bool)) : Prop :=
  length r = height ∧ Forall (λ row, length row = width) r.

Definition marked (r : list (list bool)) (c : Cell) : Prop :=
  cell r c.1 c.2 = Some true.

(** A cell of the grid that is no wall. *)
Definition openCell (c : Cell) : Prop :=
  c.1 < width ∧ c.2 < height ∧ key (pt c.1 c.2) ∉ wallSet.


(** The cells connected to [c0] by a path of neighbouring open cells. *)
Definition reach : Cell → Cell → Prop := connected openCell.
Definition reach_start c0 : openCell c0 → reach c0 c0 :=
  connected_start openCell c0.
Definition reach_step c0 c c' :
    reach c0 c → adjacent c c' → openCell c' → reach c0 c' :=
  connected_step openCell c0 c c'.

Lemma unmarked_spec r x y : unmarked r x y = true ↔ ¬ marked r (x, y).
Proof.
  unfold unmarked, marked. simpl. destruct (cell r x y) as [[]|]; naive_solver.
Qed.

Lemma wf_cell r c :
  wf r → c.1 < width → c.2 < height → is_Some (cell r c.1 c.2).
Proof.
  intros [Hlen Hrows] Hx Hy. unfold cell.
  destruct (lookup_lt_is_Some_2 r c.2) as [row Hrow]; [lia|].
  rewrite Hrow. simpl. apply lookup_lt_is_Some_2.
  rewrite Forall_forall in Hrows.
  rewrite (Hrows row); [done|]. by eapply list_elem_of_lookup_2.
Qed.

Lemma wf_mark r x y : wf r → wf (mark r x y).
Proof.
  intros [Hlen Hrows]. unfold mark. split; [by rewrite length_alter|].
  apply Forall_forall. intros row [i Hi]%list_elem_of_lookup.
  rewrite Forall_forall in Hrows.
  rewrite list_lookup_alter in Hi. case_decide as Hy.
  - destruct (r !! y) as [row'|] eqn:Hrow'; simplify_eq/=.
    rewrite length_insert. apply Hrows. by eapply list_elem_of_lookup_2.
  - apply Hrows. by eapply list_elem_of_lookup_2.
Qed.

Lemma marked_mark r x y c :
  wf r → x < width → y < height →
  marked (mark r x y) c ↔ c = (x, y) ∨ marked r c.
Proof.
  intros Hwf Hx Hy. destruct c as [a b]. unfold marked, mark, cell. simpl.
  destruct (wf_cell r (x, y) Hwf Hx Hy) as [v Hv]. unfold cell in Hv.
  simpl in Hv. rewrite list_lookup_alter. case_decide as Hb.
  - subst b. destruct (r !! y) as [row|]; [|done]. simpl in *.
    destruct (decide (x = a)) as [->|Hne].
    + rewrite list_lookup_insert_eq by by eapply lookup_lt_Some.
      split; [by left|done].
    + rewrite list_lookup_insert_ne by done.
      split; [by right|]. intros [[= ?]|?]; [lia|done].
  - split; [by right|]. intros [[= ? ?]|?]; [lia|done].
Qed.

(** *** The measure: cells not yet marked *)

Definition cellsOf : list Cell :=
  y ← seq 0 height; (λ x, (x, y)) <$> seq 0 width.

Global Instance marked_dec r c : Decision (marked r c).
Proof. unfold marked. apply _. Defined.

Definition todo (r : list (list bool)) : nat :=
  length (filter (λ c, ¬ marked r c) cellsOf).

Lemma elem_of_cellsOf c : c ∈ cellsOf ↔ c.1 < width ∧ c.2 < height.
Proof.
  unfold cellsOf. rewrite list_elem_of_bind. split.
  - intros (y & (x & -> & Hx%elem_of_seq)%list_elem_of_fmap & Hy%elem_of_seq).
    simpl. lia.
  - intros [Hx Hy]. exists c.2. rewrite elem_of_seq. split; [|lia].
    apply list_elem_of_fmap. exists c.1. rewrite elem_of_seq.
    split; [by destruct c|lia].
Qed.

Lemma length_bind_const {A B} (f : A → list B) k (l : list A) :
  (∀ x, length (f x) = k) → length (l ≫= f) = length l * k.
Proof.
  intros Hf. induction l as [|x l IH]; [done|].
  rewrite bind_cons, length_app, Hf, IH. simpl. lia.
Qed.

Lemma length_cellsOf : length cellsOf = height * width.
Proof.
  unfold cellsOf. rewrite (length_bind_const _ width).
  - by rewrite length_seq.
  - intros y. by rewrite length_fmap, length_seq.
Qed.

Lemma filter_length_le {A} (P Q : A → Prop)
    `{!∀ x, Decision (P x), !∀ x, Decision (Q x)} (l : list A) :
  (∀ x, P x → Q x) → length (filter P l) ≤ length (filter Q l).
Proof.
  intros HPQ. induction l as [|x l IH]; [done|].
  rewrite !filter_cons. destruct (decide (P x)), (decide (Q x));
    simpl; [lia|naive_solver|lia..].
Qed.

Lemma filter_length_lt {A} (P Q : A → Prop)
    `{!∀ x, Decision (P x), !∀ x, Decision (Q x)} (l : list A) x :
  (∀ x, P x → Q x) → x ∈ l → Q x → ¬ P x →
  length (filter P l) < length (filter Q l).
Proof.
  intros HPQ Hx HQ HP. induction l as [|y l IH]; [by apply elem_of_nil in Hx|].
  pose proof (filter_length_le P Q l HPQ).
  rewrite !filter_cons. apply elem_of_cons in Hx as [<-|Hx].
  - rewrite decide_False, decide_True by done. simpl. lia.
  - specialize (IH Hx). destruct (decide (P y)), (decide (Q y));
      simpl; [lia|naive_solver|lia..].
Qed.

Lemma todo_bound r : todo r ≤ height * width.
Proof. unfold todo. rewrite <-length_cellsOf. apply length_filter. Qed.

Lemma todo_mono r r' :
  (∀ c, marked r c → marked r' c) → todo r' ≤ todo r.
Proof. intros Hm. apply filter_length_le. naive_solver. Qed.

Lemma todo_lt r r' c :
  (∀ c, marked r c → marked r' c) → c.1 < width → c.2 < height →
  ¬ marked r c → marked r' c → todo r' < todo r.
Proof.
  intros Hm Hx Hy Hc Hc'. apply (filter_length_lt _ _ _ c); [naive_solver| |done|].
  - by apply elem_of_cellsOf.
  - naive_solver.
Qed.

(** *** The recursion marks what is connected to its starting cell *)

Variable c0 : Cell.

(** Every marked cell is connected to [c0]. *)
Definition inv (r : list (list bool)) : Prop :=
  wf r ∧ ∀ a, marked r a → reach c0 a.

Definition grows (r r' : list (list bool)) : Prop :=
  ∀ a, marked r a → marked r' a.

(** The open neighbours of a cell marked between [r] and [r'] are marked
    in [r']. *)
Definition closedNew (r r' : list (list bool)) : Prop :=
  ∀ a, marked r' a → ¬ marked r a →
       ∀ a', adjacent a a' → openCell a' → marked r' a'.

(** One of the four guarded recursive calls. *)
Definition guarded (fuel : nat) (g : bool) (x y : nat)
    (r : list (list bool)) : option (list (list bool)) :=
  if g && unmarked r x y then floodFill fuel wallSet width height x y r
  else Some r.

Lemma floodFill_S fuel x y r :
  floodFill (S fuel) wallSet width height x y r
  = if has wallSet (key (pt x y)) then Some r
    else
      r ← guarded fuel (bool_decide (0 < x)) (x - 1) y (mark r x y);
      r ← guarded fuel (bool_decide (x < width - 1)) (x + 1) y r;
      r ← guarded fuel (bool_decide (0 < y)) x (y - 1) r;
      guarded fuel (bool_decide (y < height - 1)) x (y + 1) r.
Proof. done. Qed.

Definition callOk (fuel : nat) : Prop :=
  ∀ x y r,
    inv r → x < width → y < height → ¬ marked r (x, y) →
    (openCell (x, y) → reach c0 (x, y)) → todo r < fuel →
    ∃ r', floodFill fuel wallSet width height x y r = Some r'
          ∧ inv r' ∧ grows r r' ∧ closedNew r r'
          ∧ (openCell (x, y) → marked r' (x, y)).

Lemma guarded_ok fuel g x y r :
  callOk fuel → inv r → (g = true → x < width ∧ y < height) →
  (g = true → openCell (x, y) → reach c0 (x, y)) → todo r < fuel →
  ∃ r', guarded fuel g x y r = Some r'
        ∧ inv r' ∧ grows r r' ∧ closedNew r r'
        ∧ (g = true → openCell (x, y) → marked r' (x, y)).
Proof.
  intros Hcall Hinv Hg Hreach Htodo. unfold guarded.
  destruct g; simpl.
  - destruct (unmarked r x y) eqn:Hun.
    + apply unmarked_spec in Hun. destruct (Hg eq_refl) as [Hx Hy].
      destruct (Hcall x y r) as (r' & ? & ? & ? & ? & ?); auto.
      exists r'. by split_and!.
    + exists r. split_and!; [done..| | |].
      * by intros a.
      * by intros a ??.
      * intros _ _. destruct (decide (marked r (x, y))) as [|Hn]; [done|].
        apply unmarked_spec in Hn. congruence.
  - exists r. split_and!; [done..| | |done].
    + by intros a.
    + by intros a ??.
Qed.

Lemma closedNew_trans r1 r2 r3 :
  grows r2 r3 → closedNew r1 r2 → closedNew r2 r3 → closedNew r1 r3.
Proof.
  intros Hg H12 H23 a Ha3 Ha1 a' Hadj Hopen.
  destruct (decide (marked r2 a)) as [Ha2|Ha2].
  - apply Hg. by eapply H12.
  - by eapply H23.
Qed.

Lemma floodFill_ok fuel : callOk fuel.
Proof.
  induction fuel as [|fuel IH]; intros x y r Hinv Hx Hy Hnew Hreach Htodo;
    [lia|].
  rewrite floodFill_S. unfold has. case_bool_decide as Hwall.
  { exists r. split_and!; [done..| | |].
    - by intros a.
    - by intros a ??.
    - by intros (_ & _ & ?). }
  assert (openCell (x, y)) as Hopen by done.
  specialize (Hreach Hopen). destruct Hinv as [Hwf Hmarked].
  pose proof (marked_mark r x y) as Hmark.
  assert (inv (mark r x y)) as Hinv1.
  { split; [by apply wf_mark|]. intros a [->|?]%Hmark; auto. }
  assert (grows r (mark r x y)) as Hg1.
  { intros a ?. apply Hmark; auto. }
  assert (todo (mark r x y) < fuel) as Htodo1.
  { assert (todo (mark r x y) < todo r); [|lia].
    apply (todo_lt _ _ (x, y)); [done..|]. apply Hmark; auto. }
  destruct (guarded_ok fuel (bool_decide (0 < x)) (x - 1) y _ IH Hinv1)
    as (r2 & -> & Hinv2 & Hg2 & Hc2 & Hm2); [| |done|].
  { intros ?%bool_decide_eq_true. lia. }
  { intros ?%bool_decide_eq_true Ho. eapply reach_step; [done| |done].
    left. simpl. lia. }
  simpl. pose proof (todo_mono _ _ Hg2) as Htodo2.
  destruct (guarded_ok fuel (bool_decide (x < width - 1)) (x + 1) y _ IH Hinv2)
    as (r3 & -> & Hinv3 & Hg3 & Hc3 & Hm3); [| |lia|].
  { intros ?%bool_decide_eq_true. lia. }
  { intros ?%bool_decide_eq_true Ho. eapply reach_step; [done| |done].
    left. simpl. lia. }
  simpl. pose proof (todo_mono _ _ Hg3) as Htodo3.
  destruct (guarded_ok fuel (bool_decide (0 < y)) x (y - 1) _ IH Hinv3)
    as (r4 & -> & Hinv4 & Hg4 & Hc4 & Hm4); [| |lia|].
  { intros ?%bool_decide_eq_true. lia. }
  { intros ?%bool_decide_eq_true Ho. eapply reach_step; [done| |done].
    right. simpl. lia. }
  simpl. pose proof (todo_mono _ _ Hg4) as Htodo4.
  destruct (guarded_ok fuel (bool_decide (y < height - 1)) x (y + 1) _ IH Hinv4)
    as (r5 & -> & Hinv5 & Hg5 & Hc5 & Hm5); [| |lia|].
  { intros ?%bool_decide_eq_true. lia. }
  { intros ?%bool_decide_eq_true Ho. eapply reach_step; [done| |done].
    right. simpl. lia. }
  exists r5. split_and!; [done..| | |].
  - intros a ?. by apply Hg5, Hg4, Hg3, Hg2, Hg1.
  - intros a Ha5 Ha a' Hadj Ho.
    destruct (decide (a = (x, y))) as [->|Hne].
    + destruct Ho as (Hx' & Hy' & Hw'). destruct a' as [x' y'].
      unfold adjacent in Hadj. simpl in *.
      destruct Hadj as [[-> [?|?]]|[-> [?|?]]].
      * apply Hg5, Hg4, Hg3. replace x' with (x - 1) in * by lia.
        apply Hm2; [apply bool_decide_eq_true; lia|done].
      * apply Hg5, Hg4. replace x' with (x + 1) in * by lia.
        apply Hm3; [apply bool_decide_eq_true; lia|done].
      * apply Hg5. replace y' with (y - 1) in * by lia.
        apply Hm4; [apply bool_decide_eq_true; lia|done].
      * replace y' with (y + 1) in * by lia.
        apply Hm5; [apply bool_decide_eq_true; lia|done].
    + assert (closedNew (mark r x y) r5) as Hc.
      { eapply closedNew_trans; [done| |done].
        eapply closedNew_trans; [done| |done].
        eapply closedNew_trans; [done| |done]. done. }
      apply (Hc a); [done| |done..].
      intros [?|?]%Hmark; done.
  - intros _. apply Hg5, Hg4, Hg3, Hg2, Hmark; auto.
Qed.

(** From the empty array, with the fuel the parser gives, the flood fill
    returns, and marks the cells connected to [c0]. *)
Lemma floodFill_reach :
  c0.1 < width → c0.2 < height →
  ∃ r', floodFill (S (height * width)) wallSet width height c0.1 c0.2
          (replicate height (replicate width false)) = Some r'
        ∧ wf r' ∧ ∀ a, marked r' a ↔ reach c0 a.
Proof.
  intros Hx Hy. set (r0 := replicate height (replicate width false)).
  assert (∀ a, ¬ marked r0 a) as Hnone.
  { intros [x y]. unfold marked, cell, r0. simpl. intros Hm.
    destruct (replicate height _ !! y) as [row|] eqn:Hrow; [|done].
    apply lookup_replicate in Hrow as [-> _]. simpl in Hm.
    by apply lookup_replicate in Hm as [? _]. }
  assert (inv r0) as Hinv0.
  { split; [|by intros a ?%Hnone]. split; [apply length_replicate|].
    apply Forall_forall. intros row ->%elem_of_replicate_inv.
    apply length_replicate. }
  assert (c0 = (c0.1, c0.2)) as Hc0 by by destruct c0.
  destruct (floodFill_ok (S (height * width)) c0.1 c0.2 r0)
    as (r' & Hr' & [Hwf Hsound] & _ & Hclosed & Hstart);
    [done..|apply Hnone| | |].
  { rewrite <-Hc0. apply reach_start. }
  { pose proof (todo_bound r0). lia. }
  exists r'. split_and!; [done..|]. intros a. split; [apply Hsound|].
  induction 1 as [Ho|c c' _ IH Hadj Ho].
  - rewrite Hc0. apply Hstart. by rewrite <-Hc0.
  - eapply Hclosed; eauto.
Qed.

End flood.
End FloodFacts.

(** ** The scanning loops of the parser *)

Module ParserFacts.
Import Parser FloodFacts StateFacts.

Section scan.
Variable rows : list string.

(** The effect of the two [switch] statements on a symbol of the
    vocabulary. *)
Definition put (ch : ascii) (c : Cell) (st : scan) : scan :=
  {| walls := if decide (ch ∈ wallTiles) then walls st ++ [pt c.1 c.2]
              else walls st;
     goals := if decide (ch ∈ goalTiles) then goals st ++ [pt c.1 c.2]
              else goals st;
     found := if decide (ch ∈ playerTiles) then Some (pt c.1 c.2)
              else found st;
     crates := if decide (ch ∈ boxTiles) then crates st ++ [pt c.1 c.2]
               else crates st |}.

Lemma scanCell_put y x st :
  scanCell rows y x st
  = ch ← tile rows (x, y);
    if decide (ch ∈ vocabulary) then Some (put ch (x, y) st) else None.
Proof.
  unfold scanCell, tile. simpl.
  destruct (rows !! y ≫= String.get x) as [ch|]; [|done].
  destruct st as [ws gs f cs].
  destruct ch as [[] [] [] [] [] [] [] []]; vm_compute; reflexivity.
Qed.

(** The two nested loops visit the cells row by row. *)
Fixpoint scanList (cs : list Cell) (st : scan) : option scan :=
  match cs with
  | [] => Some st
  | c :: cs => st' ← scanCell rows c.2 c.1 st; scanList cs st'
  end.

Lemma scanList_app cs1 cs2 st :
  scanList (cs1 ++ cs2) st = scanList cs1 st ≫= scanList cs2.
Proof.
  revert st. induction cs1 as [|c cs1 IH]; intros st; [done|]. simpl.
  destruct (scanCell rows c.2 c.1 st); [apply IH|done].
Qed.

Lemma forEach_row y xs st :
  forEach (λ x, scanCell rows y x) xs st
  = scanList ((λ x, (x, y)) <$> xs) st.
Proof.
  revert st. induction xs as [|x xs IH]; intros st; [done|]. simpl.
  destruct (scanCell rows y x st); [apply IH|done].
Qed.

Lemma scanRows_scanList width height :
  scanRows rows width height
  = scanList (cellsOf width height)
      {| walls := []; goals := []; found := None; crates := [] |}.
Proof.
  unfold scanRows, cellsOf. generalize (seq 0 height).
  generalize {| walls := []; goals := []; found := None; crates := [] |}.
  intros st ys. revert st. induction ys as [|y ys IH]; intros st; [done|].
  rewrite bind_cons, scanList_app. simpl. rewrite forEach_row.
  destruct (scanList _ st); [apply IH|done].
Qed.

Lemma tileIn_iff l c ch : tile rows c = Some ch → tileIn rows l c ↔ ch ∈ l.
Proof.
  intros Hc. unfold tileIn. rewrite Hc. split; [|by eauto].
  by intros (? & [= <-] & ?).
Qed.

(** The points of the cells of [cs] that hold a symbol of [l]. *)
Definition pts (l : list ascii) (cs : list Cell) : list Point :=
  (λ c, pt c.1 c.2) <$> filter (tileIn rows l) cs.

Lemma pts_cons l c cs ch :
  tile rows c = Some ch →
  pts l (c :: cs)
  = if decide (ch ∈ l) then pt c.1 c.2 :: pts l cs else pts l cs.
Proof.
  intros Hc. unfold pts. rewrite filter_cons.
  destruct (decide (tileIn rows l c)) as [Hin|Hin];
    rewrite (tileIn_iff l c ch Hc) in Hin.
  - by rewrite decide_True.
  - by rewrite decide_False.
Qed.

(** The last cell of [cs] that holds the player, if any, else [d]. *)
Definition lastPlayerOf (cs : list Cell) (d : option Point) : option Point :=
  match last (filter (tileIn rows playerTiles) cs) with
  | Some c => Some (pt c.1 c.2)
  | None => d
  end.

Lemma scanList_Some cs st st' :
  scanList cs st = Some st' →
  Forall (tileIn rows vocabulary) cs
  ∧ walls st' = walls st ++ pts wallTiles cs
  ∧ goals st' = goals st ++ pts goalTiles cs
  ∧ crates st' = crates st ++ pts boxTiles cs
  ∧ found st' = lastPlayerOf cs (found st).
Proof.
  revert st. induction cs as [|c cs IH]; intros st; simpl.
  { intros [= <-]. unfold pts. simpl. by rewrite !app_nil_r. }
  rewrite scanCell_put. destruct c as [x y]. simpl.
  destruct (tile rows (x, y)) as [ch|] eqn:Hch; [|done]. simpl.
  case_decide as Hvoc; [|done]. intros Hrest.
  destruct (IH _ Hrest) as (Hall & Hw & Hg & Hc & Hf).
  rewrite Hw, Hg, Hc, Hf. unfold put. simpl.
  rewrite !(pts_cons _ _ _ ch Hch). split_and!.
  - constructor; [|done]. by apply (tileIn_iff _ _ ch).
  - case_decide; [by rewrite <-app_assoc|done].
  - case_decide; [by rewrite <-app_assoc|done].
  - case_decide; [by rewrite <-app_assoc|done].
  - unfold lastPlayerOf. rewrite filter_cons.
    destruct (decide (tileIn rows playerTiles (x, y))) as [Hin|Hin];
      rewrite (tileIn_iff _ _ ch Hch) in Hin.
    + rewrite decide_True by done. rewrite last_cons.
      by destruct (last _).
    + by rewrite decide_False by done.
Qed.

Lemma scanList_None cs st :
  scanList cs st = None → ∃ c, c ∈ cs ∧ ¬ tileIn rows vocabulary c.
Proof.
  revert st. induction cs as [|c cs IH]; intros st; simpl; [done|].
  rewrite scanCell_put. destruct c as [x y]. simpl.
  destruct (tile rows (x, y)) as [ch|] eqn:Hch; simpl.
  - case_decide as Hvoc.
    + intros (c & ? & ?)%IH. exists c. split; [by right|done].
    + intros _. exists (x, y). split; [by left|].
      by rewrite (tileIn_iff _ _ ch Hch).
  - intros _. exists (x, y). split; [by left|].
    intros (? & ? & _). congruence.
Qed.

(** *** Reading order *)

Lemma seq_sorted j n : StronglySorted lt (seq j n).
Proof.
  revert j. induction n as [|n IH]; intros j; simpl; constructor; [done|].
  apply Forall_forall. intros i Hi%elem_of_seq. lia.
Qed.

Lemma cellsOf_sorted width height :
  StronglySorted before (cellsOf width height).
Proof.
  unfold cellsOf.
  cut (∀ j, StronglySorted before
              (y ← seq j height; (λ x, (x, y)) <$> seq 0 width)); [done|].
  induction height as [|h IH]; intros j.
  { constructor. }
  simpl. apply StronglySorted_app; split_and!.
  - intros c1 c2 (x1 & -> & _)%list_elem_of_fmap
      (y2 & (x2 & -> & _)%list_elem_of_fmap & Hy2%elem_of_seq)%list_elem_of_bind.
    left. simpl. lia.
  - apply (StronglySorted_fmap _ lt); [|apply seq_sorted].
    intros x1 x2 ?. right. simpl. lia.
  - apply IH.
Qed.

Lemma lastPlayer_unique c c' : lastPlayer rows c → lastPlayer rows c' → c = c'.
Proof.
  intros [Hc Hlast] [Hc' Hlast'].
  destruct (Hlast c' Hc') as [->|Hb]; [done|].
  destruct (Hlast' c Hc) as [->|Hb']; [done|].
  unfold before in *. destruct c, c'. simpl in *. lia.
Qed.

Lemma last_filter_sorted {A} (R : relation A) (P : A → Prop)
    `{!∀ x, Decision (P x)} (l : list A) x :
  StronglySorted R l → last (filter P l) = Some x →
  x ∈ l ∧ P x ∧ ∀ y, y ∈ l → P y → y = x ∨ R y x.
Proof.
  intros Hsort Hlast. induction l as [|a l IH]; [done|].
  apply StronglySorted_cons in Hsort as [Ha Hsort].
  rewrite Forall_forall in Ha.
  rewrite filter_cons in Hlast. destruct (decide (P a)) as [HP|HP].
  - rewrite last_cons in Hlast.
    destruct (last (filter P l)) as [z|] eqn:Hz.
    + injection Hlast as ->. destruct (IH Hsort eq_refl) as (Hx & HPx & Hmax).
      split_and!; [by right|done|].
      intros y [->|Hy]%elem_of_cons HPy; [right; by apply Ha|by apply Hmax].
    + injection Hlast as ->. split_and!; [by left|done|].
      intros y [->|Hy]%elem_of_cons HPy; [by left|].
      apply last_None in Hz.
      assert (y ∈ filter P l) as Hin by by apply list_elem_of_filter.
      rewrite Hz in Hin. by apply elem_of_nil in Hin.
  - destruct (IH Hsort Hlast) as (Hx & HPx & Hmax).
    split_and!; [by right|done|].
    intros y [->|Hy]%elem_of_cons HPy; [done|by apply Hmax].
Qed.

(** *** A grid whose rows all have the same length *)

Variables width height : nat.
Hypothesis Hheight : length rows = height.
Hypothesis Hwidth : Forall (λ row, String.length row = width) rows.

Lemma get_is_Some s n : is_Some (String.get n s) ↔ n < String.length s.
Proof.
  revert n. induction s as [|ch s IH]; intros n; simpl.
  - split; [by intros [? ?]|lia].
  - destruct n as [|n]; [split; [lia|by eauto]|]. rewrite IH. lia.
Qed.

Lemma tile_in_range c : is_Some (tile rows c) ↔ c ∈ cellsOf width height.
Proof.
  rewrite elem_of_cellsOf. unfold tile. rewrite Forall_forall in Hwidth.
  split.
  - intros [ch Hch]. destruct (rows !! c.2) as [row|] eqn:Hrow; [|done].
    simpl in Hch. pose proof (lookup_lt_Some _ _ _ Hrow).
    assert (c.1 < String.length row) by (apply get_is_Some; eauto).
    rewrite (Hwidth row) in *; [lia|]. by eapply list_elem_of_lookup_2.
  - intros [Hx Hy].
    destruct (lookup_lt_is_Some_2 rows c.2) as [row Hrow]; [lia|].
    rewrite Hrow. simpl. apply get_is_Some.
    rewrite (Hwidth row); [done|]. by eapply list_elem_of_lookup_2.
Qed.

Lemma pt_inj x y x' y' : pt x y = pt x' y' → x = x' ∧ y = y'.
Proof. unfold pt. intros [= ?%Nat2Z.inj ?%Nat2Z.inj]. done. Qed.

Lemma elem_of_pts l p :
  p ∈ pts l (cellsOf width height) ↔ ∃ c, p = pt c.1 c.2 ∧ tileIn rows l c.
Proof.
  unfold pts. rewrite list_elem_of_fmap. split.
  - intros (c & -> & [? _]%list_elem_of_filter). eauto.
  - intros (c & -> & Hc). exists c. split; [done|].
    apply list_elem_of_filter. split; [done|]. apply tile_in_range.
    destruct Hc as (ch & ? & _). eauto.
Qed.

Lemma key_pts l c :
  key (pt c.1 c.2) ∈@{gset string}
    list_to_set (key <$> pts l (cellsOf width height)) ↔ tileIn rows l c.
Proof.
  rewrite elem_of_list_to_set, list_elem_of_fmap. split.
  - intros (p & Hp%key_inj & (c' & -> & Hc')%elem_of_pts).
    apply pt_inj in Hp as [? ?]. by replace c with c' by by destruct c, c'; simplify_eq/=.
  - intros Hc. exists (pt c.1 c.2). split; [done|]. apply elem_of_pts. eauto.
Qed.

Lemma openCell_free c :
  openCell (list_to_set (key <$> pts wallTiles (cellsOf width height)))
    width height c ↔ free rows c.
Proof.
  unfold openCell. rewrite key_pts. unfold free, tileIn, wallTiles. split.
  - intros (Hx & Hy & Hw).
    destruct (proj2 (tile_in_range c)) as [ch Hch];
      [by apply elem_of_cellsOf|].
    exists ch. split; [done|]. intros ->. apply Hw. exists "#"%char.
    split; [done|]. by left.
  - intros (ch & Hch & Hne).
    assert (c ∈ cellsOf width height) as [? ?]%elem_of_cellsOf
      by (apply tile_in_range; eauto).
    split_and!; [done..|].
    intros (ch' & Hch' & ->%list_elem_of_singleton). congruence.
Qed.

Lemma notReached_pt r c :
  notReached r (pt c.1 c.2) = true ↔ ¬ marked r c.
Proof.
  unfold notReached, marked, pt. simpl. rewrite !Nat2Z.id.
  rewrite negb_true_iff, bool_decide_eq_false. done.
Qed.

Lemma existsb_notReached r l :
  existsb (notReached r) (pts l (cellsOf width height)) = true
  ↔ ∃ c, tileIn rows l c ∧ ¬ marked r c.
Proof.
  rewrite existsb_exists. split.
  - intros (p & (c & -> & Hc)%list_elem_of_In%elem_of_pts & Hp%notReached_pt).
    eauto.
  - intros (c & Hc & Hm). exists (pt c.1 c.2).
    split; [|by apply notReached_pt].
    apply list_elem_of_In, elem_of_pts. eauto.
Qed.

End scan.

(** *** The result of [parseSokoban] *)

Local Arguments floodFill : simpl never.

Lemma parse_spec input :
  match parseSokoban input with
  | None => rejected (rowsOf input)
  | Some (m, s) => accepted (rowsOf input) m s ∧ ¬ rejected (rowsOf input)
  end.
Proof.
  unfold parseSokoban. destruct (rowsOf input) as [|row0 rest] eqn:Hrows.
  { by left. }
  rewrite <-Hrows. set (rows := rowsOf input).
  set (w := String.length row0). set (h := length rows).
  assert (head rows = Some row0) as Hhead by (unfold rows; by rewrite Hrows).
  destruct (existsb _ rows) eqn:Hlen.
  { right; left. apply existsb_exists in Hlen as (row & Hin%list_elem_of_In & Hne).
    exists row0, row. split_and!; [done..|].
    by apply negb_true_iff, bool_decide_eq_false in Hne. }
  assert (Forall (λ row, String.length row = w) rows) as Hw.
  { apply Forall_forall. intros row Hin.
    destruct (decide (String.length row = w)) as [|Hne]; [done|].
    assert (existsb (λ row, negb (bool_decide (String.length row = w))) rows
            = true) as Hex; [|by rewrite Hex in Hlen].
    apply existsb_exists. exists row. split; [by apply list_elem_of_In|].
    by apply negb_true_iff, bool_decide_eq_false. }
  pose proof (tile_in_range rows w h eq_refl Hw) as Hrange.
  rewrite scanRows_scanList.
  destruct (scanList rows _ _) as [st|] eqn:Hscan; simpl.
  2:{ right; right; left.
      apply scanList_None in Hscan as (c & [ch Hch]%Hrange & Hvoc).
      exists c, ch. split; [done|]. by rewrite <-(tileIn_iff rows _ c ch). }
  apply scanList_Some in Hscan as (Hvoc & Hwalls & Hgoals & Hcrates & Hfound).
  simpl in *. unfold lastPlayerOf in Hfound. rewrite Hfound.
  destruct (last (filter _ _)) as [c0|] eqn:Hlast; simpl.
  2:{ right; right; right; left. intros c Hc. apply last_None in Hlast.
      assert (c ∈ filter (tileIn rows playerTiles) (cellsOf w h)) as Hin.
      { apply list_elem_of_filter. split; [done|]. apply Hrange.
        destruct Hc as (ch & ? & _). eauto. }
      rewrite Hlast in Hin. by apply elem_of_nil in Hin. }
  apply (last_filter_sorted before) in Hlast
    as (Hc0 & Hpl & Hmax); [|apply cellsOf_sorted].
  assert (lastPlayer rows c0) as Hlp.
  { split; [done|]. intros c' Hc'. apply Hmax; [|done].
    apply Hrange. destruct Hc' as (ch & ? & _). eauto. }
  apply elem_of_cellsOf in Hc0 as [Hx0 Hy0].
  rewrite !Nat2Z.id, Hwalls.
  destruct (floodFill_reach
              (list_to_set (key <$> pts rows wallTiles (cellsOf w h)))
              w h c0 Hx0 Hy0) as (r & Hfill & _ & Hr).
  rewrite Hfill. simpl.
  assert (∀ c, ¬ marked r c ↔ ¬ connected (free rows) c0 c) as Hconn.
  { intros c. rewrite Hr. unfold reach.
    split; intros Hn Hc; apply Hn; revert Hc; apply connected_ext;
      intros a; by apply (openCell_free rows w h eq_refl Hw). }
  rewrite Hcrates, Hgoals.
  destruct (existsb _ (pts rows boxTiles _)) eqn:Hb.
  { right; right; right; right.
    apply (existsb_notReached rows w h eq_refl Hw) in Hb as (c & Hc & Hm).
    exists c0, c. split_and!; [done|by left|by apply Hconn]. }
  destruct (existsb _ (pts rows goalTiles _)) eqn:Hg.
  { right; right; right; right.
    apply (existsb_notReached rows w h eq_refl Hw) in Hg as (c & Hc & Hm).
    exists c0, c. split_and!; [done|by right|by apply Hconn]. }
  split.
  - split; simpl.
    + by exists row0.
    + done.
    + intros c. apply (key_pts rows w h eq_refl Hw).
    + intros c. apply (key_pts rows w h eq_refl Hw).
    + by exists c0.
    + intros p. rewrite sortPoints_elem.
      apply (elem_of_pts rows w h eq_refl Hw).
    + by rewrite sortPoints_keys.
    + apply sortPoints_yxLe.
  - intros [Hnil|[(row0' & row & Hh & Hin & Hne)|[(c & ch & Hch & Hv)
      |[Hnone|(c0' & c & Hlp' & Hc & Hn)]]]].
    + unfold rows in *. congruence.
    + rewrite Forall_forall in Hw. assert (row0' = row0) as -> by congruence.
      by rewrite (Hw row Hin) in Hne.
    + rewrite Forall_forall in Hvoc. apply Hv.
      apply (tileIn_iff rows vocabulary c ch Hch), Hvoc, Hrange. eauto.
    + by apply (Hnone c0).
    + assert (c0' = c0) as -> by by eapply lastPlayer_unique.
      apply Hconn in Hn.
      assert (∀ l, existsb (notReached r) (pts rows l (cellsOf w h)) = false →
                   tileIn rows l c → False) as Hall.
      { intros l Hl Hin.
        assert (existsb (notReached r) (pts rows l (cellsOf w h)) = true)
          as Hex; [|by rewrite Hex in Hl].
        apply (existsb_notReached rows w h eq_refl Hw). eauto. }
      destruct Hc; eauto.
Qed.

Lemma parse_canonical input m s0 :
  Parser.parseSokoban input = Some (m, s0) → canonical s0.
Proof.
  intros Hparse. pose proof (parse_spec input) as Hspec.
  rewrite Hparse in Hspec. destruct Hspec as [[_ _ _ _ _ _ Hset Hsort] _].
  split; [|done]. apply StronglySorted_Sorted in Hsort.
  rewrite <-(list_fmap_id (boxes s0)).
  apply (Sorted_fmap id yxLe); [|done]. intros a b. apply pointLe_yxLe.
Qed.

End ParserFacts.

(** ** The state a successful parse returns *)

Module ParseInvariants.
Import Parser Grid FloodFacts ParserFacts StateFacts.
Export Board.

Local Arguments floodFill : simpl never.

(** The sets and the box array of a successful parse, as the scan of the
    grid builds them. *)
Lemma parse_shape input m s :
  parseSokoban input = Some (m, s) →
  ∃ w h c0,
    length (rowsOf input) = h
    ∧ Forall (λ row, String.length row = w) (rowsOf input)
    ∧ width m = Z.of_nat w ∧ height m = Z.of_nat h
    ∧ wallSet m
      = list_to_set (key <$> pts (rowsOf input) wallTiles (cellsOf w h))
    ∧ goalSet m
      = list_to_set (key <$> pts (rowsOf input) goalTiles (cellsOf w h))
    ∧ boxes s = sortPoints (pts (rowsOf input) boxTiles (cellsOf w h))
    ∧ player s = pt c0.1 c0.2 ∧ c0 ∈ cellsOf w h
    ∧ tileIn (rowsOf input) playerTiles c0.
Proof.
  unfold parseSokoban. destruct (rowsOf input) as [|row0 rest] eqn:Hrows;
    [done|].
  rewrite <-Hrows. set (rows := rowsOf input).
  set (w := String.length row0). set (h := length rows).
  destruct (existsb _ rows) eqn:Hlen; [done|].
  assert (Forall (λ row, String.length row = w) rows) as Hw.
  { apply Forall_forall. intros row Hin.
    destruct (decide (String.length row = w)) as [|Hne]; [done|].
    assert (existsb (λ row, negb (bool_decide (String.length row = w))) rows
            = true) as Hex; [|by rewrite Hex in Hlen].
    apply existsb_exists. exists row. split; [by apply list_elem_of_In|].
    by apply negb_true_iff, bool_decide_eq_false. }
  rewrite scanRows_scanList.
  destruct (scanList rows _ _) as [st|] eqn:Hscan; simpl; [|done].
  apply scanList_Some in Hscan as (_ & Hwalls & Hgoals & Hcrates & Hfound).
  simpl in *. unfold lastPlayerOf in Hfound. rewrite Hfound.
  destruct (last (filter _ _)) as [c0|] eqn:Hlast; simpl; [|done].
  apply last_Some_elem_of, list_elem_of_filter in Hlast as [Hpl Hc0].
  destruct (floodFill _ _ _ _ _ _ _) as [r|]; simpl; [|done].
  destruct (existsb _ (crates st)); [done|].
  destruct (existsb _ (goals st)); [done|].
  intros [= <- <-]. exists w, h, c0. simpl.
  by rewrite Hwalls, Hgoals, Hcrates.
Qed.

Section grid.

Variable rows : list string.
Variables width height : nat.
Hypothesis Hheight : length rows = height.
Hypothesis Hwidth : Forall (λ row, String.length row = width) rows.

Lemma NoDup_cellsOf : NoDup (cellsOf width height).
Proof.
  unfold cellsOf. apply NoDup_bind; [| |apply NoDup_seq].
  - intros y1 y2 c _ _ (x1 & -> & _)%list_elem_of_fmap
      (x2 & [= _ ->] & _)%list_elem_of_fmap. done.
  - intros y _. apply NoDup_fmap_2; [|apply NoDup_seq].
    by intros x1 x2 [= ->].
Qed.

Lemma NoDup_pts l : NoDup (pts rows l (cellsOf width height)).
Proof.
  unfold pts. apply NoDup_fmap_2_strong.
  - intros [x1 y1] [x2 y2] _ _ [? ?]%pt_inj. simpl in *. by subst.
  - apply NoDup_filter, NoDup_cellsOf.
Qed.

(** A cell holds one symbol. *)
Lemma tileIn_both l1 l2 c :
  tileIn rows l1 c → tileIn rows l2 c → ∃ ch, ch ∈ l1 ∧ ch ∈ l2.
Proof.
  intros (ch & Hch & ?) (ch' & Hch' & ?). exists ch.
  split; [done|]. congruence.
Qed.

(** A key of one of the sets of the scan is the key of a cell of the
    grid. *)
Lemma key_pts_cell l p :
  key p ∈@{gset string}
    list_to_set (key <$> pts rows l (cellsOf width height)) →
  ∃ c, p = pt c.1 c.2 ∧ c ∈ cellsOf width height ∧ tileIn rows l c.
Proof.
  rewrite elem_of_list_to_set, list_elem_of_fmap.
  intros (q & ->%key_inj & (c & -> & Hc)%(elem_of_pts rows width height Hheight Hwidth)).
  exists c. split_and!; [done| |done].
  apply (tile_in_range rows width height Hheight Hwidth).
  destruct Hc as (ch & ? & _). eauto.
Qed.

End grid.

Lemma disjoint_symbols (l1 l2 : list ascii) :
  forallb (λ ch, negb (bool_decide (ch ∈ l2))) l1 = true →
  ∀ ch, ch ∈ l1 → ch ∉ l2.
Proof.
  rewrite forallb_forall. intros Hall ch Hch%list_elem_of_In%Hall.
  by apply negb_true_iff, bool_decide_eq_false in Hch.
Qed.

Lemma disjoint_tiles l1 l2 rows c :
  (∀ ch, ch ∈ l1 → ch ∉ l2) →
  tileIn rows l1 c → ¬ tileIn rows l2 c.
Proof.
  intros Hdis H1 H2. destruct (tileIn_both rows l1 l2 c H1 H2) as (ch & ? & ?).
  by eapply Hdis.
Qed.

(** What the parser establishes: a well-formed state, every box, goal and
    wall inside the grid, no goal under a wall. *)
Lemma parse_wellFormed input m s :
  parseSokoban input = Some (m, s) →
  wellFormed m s
  ∧ (∀ b, b ∈ boxes s → Moves.inBounds m b)
  ∧ (∀ p, key p ∈ goalSet m → Moves.inBounds m p ∧ key p ∉ wallSet m)
  ∧ (∀ p, key p ∈ wallSet m → Moves.inBounds m p).
Proof.
  intros Hparse. pose proof (parse_canonical _ _ _ Hparse) as Hcan.
  destruct (parse_shape _ _ _ Hparse)
    as (w & h & c0 & Hh & Hw & Hwm & Hhm & Hwalls & Hgoals & Hboxes
        & Hpl & Hc0 & Hplayer).
  set (rows := rowsOf input) in *.
  assert (∀ c, c ∈ cellsOf w h → Moves.inBounds m (pt c.1 c.2)) as Hin.
  { intros c [? ?]%elem_of_cellsOf. unfold Moves.inBounds, pt. simpl. lia. }
  assert (∀ l p, key p ∈@{gset string}
            list_to_set (key <$> pts rows l (cellsOf w h)) →
            ∃ c, p = pt c.1 c.2 ∧ c ∈ cellsOf w h ∧ tileIn rows l c) as Hcell.
  { intros l p. by apply key_pts_cell. }
  assert (∀ l c, tileIn rows l c → (∀ ch, ch ∈ l → ch ∉ wallTiles) →
                 key (pt c.1 c.2) ∉ wallSet m) as Hnowall.
  { intros l c Hc Hdis. rewrite Hwalls.
    rewrite (key_pts rows w h Hh Hw). by eapply disjoint_tiles. }
  assert (∀ b, b ∈ boxes s ↔ ∃ c, b = pt c.1 c.2 ∧ tileIn rows boxTiles c)
    as Hbox.
  { intros b. rewrite Hboxes, sortPoints_elem.
    apply (elem_of_pts rows w h Hh Hw). }
  split_and!.
  - split; [| | | | |done].
    + rewrite Hpl. by apply Hin.
    + rewrite Hpl. apply (Hnowall playerTiles); [done|].
      by apply disjoint_symbols.
    + rewrite Hpl. intros (c & [? ?]%pt_inj & Hc)%Hbox.
      assert (c = c0) as -> by (destruct c, c0; simpl in *; by subst).
      revert Hc. apply (disjoint_tiles playerTiles); [|done].
      by apply disjoint_symbols.
    + rewrite Hboxes, sortPoints_perm. apply NoDup_pts.
    + intros b (c & -> & Hc)%Hbox. apply (Hnowall boxTiles); [done|].
      by apply disjoint_symbols.
  - intros b (c & -> & Hc)%Hbox. apply Hin.
    apply (tile_in_range rows w h Hh Hw). destruct Hc as (ch & ? & _). eauto.
  - intros p Hp. rewrite Hgoals in Hp.
    apply Hcell in Hp as (c & -> & Hc & Hg). split; [by apply Hin|].
    apply (Hnowall goalTiles); [done|].
    by apply disjoint_symbols.
  - intros p Hp. rewrite Hwalls in Hp.
    apply Hcell in Hp as (c & -> & Hc & _). by apply Hin.
Qed.

End ParseInvariants.

(** ** [nextState] writes to no object of the store *)

Module StoreFacts.
Import Store.
Section nextState.
Local Open Scope Z_scope.

Variable m : SokobanMap.

Lemma unchanged_view h h' l s :
  unchanged h h' → view h l = Some s → view h' l = Some s.
Proof.
  intros Hun. unfold view.
  destruct (h !! l) as [[| |p b bs]|] eqn:Hl; try done.
  destruct (h !! b) as [[a| |]|] eqn:Hb; try done.
  destruct (h !! bs) as [[|s'|]|] eqn:Hbs; try done.
  intros [= <-].
  rewrite (Hun l), Hl by (apply elem_of_dom; eauto).
  rewrite (Hun b), Hb by (apply elem_of_dom; eauto).
  by rewrite (Hun bs), Hbs by (apply elem_of_dom; eauto).
Qed.

Lemma unchanged_refl h : unchanged h h.
Proof. by intros l _. Qed.

Lemma nextState_frame h state d s :
  view h state = Some s →
  ∃ res h',
    nextState m state d h = Some (res, h')
    ∧ unchanged h h'
    ∧ match res with
      | Some r => (r ∉ dom h) ∧ view h' r = Solver.nextState m s d
      | None => Solver.nextState m s d = None
      end.
Proof.
  intros Hview. unfold view in Hview.
  destruct (h !! state) as [[| |p b bs]|] eqn:Hl; try done.
  destruct (h !! b) as [[a| |]|] eqn:Hb; try done.
  destruct (h !! bs) as [[|bset|]|] eqn:Hbs; try done.
  injection Hview as <-.
  unfold nextState, Solver.nextState, bind, readState. simpl.
  rewrite Hl. simpl.
  case_bool_decide as Hoob.
  { exists None, h. split_and!; [done|apply unchanged_refl|done]. }
  destruct (has (wallSet m) (key (p.1 + d.1, p.2 + d.2))) eqn:Hwall.
  { exists None, h. split_and!; [done|apply unchanged_refl|done]. }
  unfold readSet at 1. rewrite Hbs.
  destruct (has bset (key (p.1 + d.1, p.2 + d.2))) eqn:Hbox.
  - destruct (has (wallSet m) (key (p.1 + d.1 + d.1, p.2 + d.2 + d.2)))
      eqn:Hwall2.
    { exists None, h. split_and!; [done|apply unchanged_refl|done]. }
    destruct (has bset (key (p.1 + d.1 + d.1, p.2 + d.2 + d.2))) eqn:Hbox2.
    { exists None, h. split_and!; [done|apply unchanged_refl|done]. }
    unfold readArr, writeArr, alloc, ret. rewrite Hb.
    set (nb := fresh (dom h)).
    assert (nb ∉ dom h) as Hnb by apply is_fresh.
    do 5 (rewrite ?lookup_insert_eq, ?insert_insert_eq; cbv beta iota).
    set (newBoxes := sortPoints _).
    set (h1 := <[nb := Arr newBoxes]> h).
    set (ns := fresh (dom h1)).
    assert (ns ∉ dom h1) as Hns by apply is_fresh.
    set (h2 := <[ns := SetObj _]> h1).
    set (r := fresh (dom h2)).
    assert (r ∉ dom h2) as Hr by apply is_fresh.
    unfold h2 in Hr. rewrite dom_insert_L in Hr.
    unfold h1 in Hns, Hr. rewrite dom_insert_L in Hns, Hr.
    assert (ns ≠ nb ∧ r ≠ nb ∧ r ≠ ns) as (? & ? & ?) by set_solver.
    eexists (Some r), _. split; [done|]. split_and!.
    + intros l Hin.
      assert (r ≠ l ∧ ns ≠ l ∧ nb ≠ l) as (? & ? & ?) by set_solver.
      unfold h2, h1. by rewrite !lookup_insert_ne by done.
    + set_solver.
    + unfold view, h2, h1. rewrite lookup_insert_eq. cbv beta iota.
      rewrite (lookup_insert_ne _ r nb), (lookup_insert_ne _ ns nb) by done.
      rewrite lookup_insert_eq. cbv beta iota.
      rewrite (lookup_insert_ne _ r ns) by done.
      by rewrite lookup_insert_eq.
  - set (r := fresh (dom h)).
    assert (r ∉ dom h) as Hr by apply is_fresh.
    assert (r ≠ bs) as Hrbs.
    { intros ->. apply Hr, elem_of_dom. eauto. }
    assert (r ≠ b) as Hrb.
    { intros ->. apply Hr, elem_of_dom. eauto. }
    unfold alloc, isInvalid, bind, readState, readSet. fold r.
    rewrite lookup_insert_eq. simpl.
    rewrite lookup_insert_ne by done. rewrite Hbs. unfold ret.
    rewrite (MovesFacts.isInvalid_boxSet m _
               {| player := (p.1 + d.1, p.2 + d.2); boxes := a;
                  boxSet := bset |}) by done.
    destruct (Solver.isInvalid m _) eqn:Hinv.
    + eexists None, _. split; [done|]. split; [|done].
      intros l Hin. rewrite lookup_insert_ne; [done|set_solver].
    + eexists (Some r), _. split; [done|]. split_and!; [|done|].
      * intros l Hin. rewrite lookup_insert_ne; [done|set_solver].
      * unfold view. rewrite lookup_insert_eq.
        rewrite !lookup_insert_ne by done. by rewrite Hb, Hbs.
Qed.

End nextState.
End StoreFacts.

(** ** The sample levels, parsed *)

Module SampleFacts.
Import Parser Samples.

Lemma parse_levelA : parseSokoban levelA = Some (mapA, stateA).
Proof. vm_compute. reflexivity. Qed.

Lemma parse_levelB : parseSokoban levelB = Some (mapB, stateB).
Proof. vm_compute. reflexivity. Qed.

Lemma parse_levelC : parseSokoban levelC = Some (mapC, stateC).
Proof. vm_compute. reflexivity. Qed.

Lemma parse_levelD : parseSokoban levelD = Some (mapD, stateD).
Proof. vm_compute. reflexivity. Qed.

Lemma parse_levelE : parseSokoban levelE = Some (mapE, stateE).
Proof. vm_compute. reflexivity. Qed.

Lemma parse_levelF : parseSokoban levelF = Some (mapF, stateF).
Proof. vm_compute. reflexivity. Qed.

Lemma parse_levelG : parseSokoban levelG = Some (mapG, stateG).
Proof. vm_compute. reflexivity. Qed.

Lemma parse_levelH : parseSokoban levelH = Some (mapH, stateH).
Proof. vm_compute. reflexivity. Qed.

(** The window of [levelA] whose bottom-right cell is [(2, 1)] is frozen,
    and its box at [(2, 0)] is off the goals. *)
Lemma levelA_deadlocked : Deadlock.deadlocked mapA stateA.
Proof.
  exists 2%Z, 1%Z. split.
  - split_and!; [done..|].
    unfold Deadlock.window, Deadlock.boxAt, Deadlock.wallAt.
    intros p Hp. repeat (apply elem_of_cons in Hp as [->|Hp]);
      [right|right|left|left|by apply elem_of_nil in Hp];
      apply (bool_decide_unpack _); by vm_compute.
  - exists (2, 0)%Z.
    unfold Deadlock.window, Deadlock.boxAt, Deadlock.goalAt. split_and!.
    + right. by left.
    + apply (bool_decide_unpack _). by vm_compute.
    + apply (bool_decide_unpack _). by vm_compute.
Qed.

(** No sequence of moves completes [levelA]. *)
Example levelA_dead path w :
  Moves.rawReplay mapA path stateA = Some w → Solver.isComplete mapA w = false.
Proof.
  apply DeadlockFacts.deadlocked_dead; [|apply levelA_deadlocked].
  unfold DeadlockFacts.sound, Deadlock.wallAt, Deadlock.boxAt.
  split_and!; [by vm_compute|apply (bool_decide_unpack _); by vm_compute..].
Qed.

(** Lines end in a line feed after any number of carriage returns; rows
    are trimmed and the empty ones dropped. *)
Example rowsOf_crlf :
  rowsOf (String "a" (String CR (String LF (String " " (String LF "b  ")))))
  = ["a"; "b"].
Proof. vm_compute. reflexivity. Qed.

(** A box behind a wall; rows of different lengths; a symbol outside the
    vocabulary; the empty text. *)
Example parse_rejects :
  parseSokoban (level ["w#b"]) = None
  ∧ parseSokoban (level ["w."; "b"]) = None
  ∧ parseSokoban (level ["wx"]) = None
  ∧ parseSokoban "" = None.
Proof. vm_compute. done. Qed.

(** The search on [levelI] ends in the sixth layer. *)
Example solve_levelI :
  (λ r, Solver.solve r.1 6 r.2) <$> parseSokoban levelI
  = Some (Some (Some "DSWDDS")).
Proof. vm_compute. reflexivity. Qed.

Lemma parse_levelJ : parseSokoban levelJ = Some (mapJ, stateJ).
Proof. vm_compute. reflexivity. Qed.

Lemma parse_levelK : parseSokoban levelK = Some (mapK, stateK).
Proof. vm_compute. reflexivity. Qed.

End SampleFacts.

(** ** Boolean shape of the two deadlock checks *)

Lemma isInvalid_variants_body (wTL wTR wBL wBR oTL oTR oBL oBR r : bool) :
  negb wTL || negb wTR || negb wBL || negb wBR = false →
  oTL || oTR || oBL || oBR = true →
  (if wTL && wTR && wBL && wBR && (oTL || oTR || oBL || oBR)
   then true else r) = true.
Proof. by destruct wTL, wTR, wBL, wBR, oTL, oTR, oBL, oBR. Qed.

(** * The claims *)

Import Solver StateFacts MovesFacts Samples SampleFacts.

(** C7. Round trip of the serialisation: for every state, whatever the order
    of its box list (in particular for every state inside the grid),
    [deserialize (serialize state)] is a state with the same player
    position and the same set of box positions, whose box list ascends by
    [y] then [x] and whose box set is the set of keys of that list. *)
Theorem deserialize_serialize_roundtrip (state : SokobanState) :
  ∃ state',
    deserialize (serialize state) = Some state'
    ∧ player state' = player state
    ∧ (∀ p, p ∈ boxes state' ↔ p ∈ boxes state)
    ∧ StronglySorted yxLe (boxes state')
    ∧ boxSet state' = list_to_set (key <$> boxes state').
Proof.
  exists (canon state). split_and!.
  - apply deserialize_serialize.
  - done.
  - intros p. apply sortPoints_elem.
  - apply sortPoints_yxLe.
  - done.
Qed.

(** C2. The deadlock check misses a frozen window: in the initial state of
    [levelA] the window whose bottom-right cell is [(2, 1)] holds two boxes
    above two walls, and the box at [(2, 0)] is off the goals, yet
    [isInvalid] returns [false]. The test of the window's top-right cell
    reads column 1 instead of column [x]
    ([DeadlockFacts.isInvalid_true] against
    [DeadlockFacts.deadlocked_windows]). *)
Theorem isInvalid_misses_frozen_window :
  Parser.parseSokoban levelA = Some (mapA, stateA)
  ∧ isInvalid mapA stateA = false
  ∧ Deadlock.deadlocked mapA stateA.
Proof.
  split_and!; [apply parse_levelA|by vm_compute|apply levelA_deadlocked].
Qed.

(** C3. The deadlock check flags a solvable state: in the initial state of
    [levelB] the only frozen window is a block of four walls, the box at
    [(1, 1)] is one push away from its goal, the raw moves [DS] solve the
    level; [isInvalid] returns [true] all the same, because it reads the
    box in column 1, and [solve] gives up. The rule of the specification
    flags no such state ([DeadlockFacts.deadlocked_dead]). *)
Theorem isInvalid_flags_solvable_state :
  Parser.parseSokoban levelB = Some (mapB, stateB)
  ∧ isInvalid mapB stateB = true
  ∧ isComplete mapB <$> rawReplay mapB "DS" stateB = Some true
  ∧ solve mapB 1 stateB = Some None.
Proof. split_and!; [apply parse_levelB|by vm_compute..]. Qed.

(** C4. A push is not checked for deadlocks: in [levelC] the move to the
    right pushes the box into the dead end; [nextState] returns the new
    state, which [isInvalid] flags ([MovesFacts.nextState_None] lists the
    refusals: the check is among those of a plain step only). *)
Theorem nextState_push_unchecked :
  Parser.parseSokoban levelC = Some (mapC, stateC)
  ∧ ∃ state',
      nextState mapC stateC (1, 0)%Z = Some state'
      ∧ player state' = (2, 1)%Z ∧ boxes state' = [(3, 1)%Z]
      ∧ isInvalid mapC state' = true.
Proof.
  split; [apply parse_levelC|]. eexists. split; [by vm_compute|].
  split_and!; by vm_compute.
Qed.

(** C8, as amended. The two checks differ. What holds: where the literal
    column 1 cannot matter, that is on a map of width at most 3 or in a
    state with no off-goal box in column 1, a state that [isInvalid] of
    [lib.ts] flags is flagged by the variant too. *)
Theorem isInvalid_implies_variant (m : SokobanMap) (s : SokobanState) :
  (width m ≤ 3)%Z ∨ Deadlock.column1Clear m s = true →
  Solver.isInvalid m s = true → Variant.isInvalid m s = true.
Proof.
  intros Hcol. unfold Solver.isInvalid, Variant.isInvalid.
  rewrite !existsb_exists.
  intros (y & Hy & (x & Hx & Hbody)%existsb_exists).
  exists y. split; [done|]. apply existsb_exists. exists x. split; [done|].
  apply list_elem_of_In, elem_of_seqZ in Hx, Hy.
  change Variant.serializePoint with key.
  destruct (negb _ || _ || _ || _) eqn:Hfrozen; [done|].
  rewrite !(andb_comm (negb (has (goalSet m) _))).
  apply isInvalid_variants_body; [done|].
  apply orb_true_iff in Hbody as [Hbody|Hbr]; [|by rewrite Hbr, !orb_true_r].
  apply orb_true_iff in Hbody as [Hbody|Hbl]; [|by rewrite Hbl, !orb_true_r].
  apply orb_true_iff in Hbody as [Htl|Ht1]; [by rewrite Htl|].
  destruct Hcol as [Hw|Hclear].
  - assert (x = 1 ∨ x = 2)%Z as [->| ->] by lia.
    + by rewrite Ht1, !orb_true_r.
    + change (2 - 1)%Z with 1%Z. by rewrite Ht1.
  - unfold Deadlock.column1Clear in Hclear. rewrite forallb_forall in Hclear.
    specialize (Hclear (y - 1)%Z). rewrite Ht1 in Hclear.
    discriminate Hclear. apply list_elem_of_In, elem_of_seqZ. lia.
Qed.

Lemma isInvalid_implies_variant_witness :
  ((width mapH ≤ 3)%Z ∨ Deadlock.column1Clear mapH stateH = true)
  ∧ Solver.isInvalid mapH stateH = true
  ∧ Variant.isInvalid mapH stateH = true.
Proof.
  assert ((width mapH ≤ 3)%Z ∨ Deadlock.column1Clear mapH stateH = true) as Hcol.
  { left. simpl. lia. }
  assert (Solver.isInvalid mapH stateH = true) as Hlib.
  { vm_compute. reflexivity. }
  split; [exact Hcol|]. split; [exact Hlib|].
  exact (isInvalid_implies_variant mapH stateH Hcol Hlib).
Defined.

(** C8, as stated, fails: on the initial state of [levelA] the check of
    [lib.ts] answers [false] and the variant answers [true]. *)
Lemma isInvalid_variants_differ :
  Solver.isInvalid mapA stateA ≠ Variant.isInvalid mapA stateA.
Proof. by vm_compute. Qed.

(** C9. [solve] never returns the empty string: whatever the map and the
    initial state, complete or not, a returned path has at least one move;
    and with no box at all it returns the code of the first legal move in
    the order W, A, S, D, one character long, or [null] when no move is
    legal. *)
Theorem solve_never_returns_empty (m : SokobanMap) (s0 : SokobanState) :
  (∀ fuel q, solve m fuel s0 = Some (Some q) →
             q ≠ EmptyString ∧ 1 ≤ String.length q)
  ∧ (boxes s0 = [] →
     ∀ fuel, solve m (S fuel) s0 = Some (firstLegal m (player s0))
             ∧ ∀ q, firstLegal m (player s0) = Some q →
                    String.length q = 1).
Proof.
  split.
  - intros fuel q Hq%FirstMove.loop_Found%FirstMove.endsInCode_length.
    split; [|done]. intros ->. simpl in Hq. lia.
  - intros Hb fuel. split; [by apply FirstMove.solve_bare|].
    unfold firstLegal. intros q.
    repeat destruct (legal _ _ _); by intros [= <-].
Qed.

Lemma solve_never_returns_empty_witness :
  (Some "D" ≠ Some EmptyString ∧ 1 ≤ String.length "D")
  ∧ solve mapG 1 stateG = Some (Some "D")
  ∧ String.length "D" = 1.
Proof.
  assert (solve mapG 1 stateG = Some (Some "D")) as Hrun.
  { vm_compute. reflexivity. }
  assert (boxes stateG = []) as Hb by reflexivity.
  assert (firstLegal mapG (player stateG) = Some "D") as Hfirst.
  { vm_compute. reflexivity. }
  destruct (solve_never_returns_empty mapG stateG) as [Hne Hbare].
  destruct (Hne 1 "D" Hrun) as [Hq Hlen].
  destruct (Hbare Hb 0) as [Hsolve Hone].
  split; [split; [congruence|exact Hlen]|].
  split; [exact Hrun|]. exact (Hone "D" Hfirst).
Defined.

(** C1, as amended. For every map and initial state produced by a
    successful parse, if some sequence of one or more moves accepted by
    [nextState] leads from the initial state to a complete state, then
    [solve] returns a move string that, replayed from the initial state,
    reaches a complete state, and no sequence of one or more moves that
    reaches a complete state is shorter. *)
Theorem solve_returns_shortest (input : string) (m : SokobanMap)
    (s0 : SokobanState) (p : string) (s : SokobanState) :
  Parser.parseSokoban input = Some (m, s0) →
  p ≠ EmptyString → replay m p s0 = Some s → isComplete m s = true →
  ∃ fuel q w,
    (∀ fuel', fuel ≤ fuel' → solve m fuel' s0 = Some (Some q))
    ∧ replay m q s0 = Some w ∧ isComplete m w = true
    ∧ ∀ p' s', p' ≠ EmptyString → replay m p' s0 = Some s' →
               isComplete m s' = true → String.length q ≤ String.length p'.
Proof.
  intros Hs0%ParserFacts.parse_canonical Hp Hrep Hc.
  destruct (Search.solve_finds m s0 Hs0 p s Hp Hrep Hc) as (fuel & q & Hq & _).
  destruct (Search.solve_sound m s0 Hs0 fuel q Hq) as (_ & w & Hw & Hwc).
  exists fuel, q, w. split_and!; [|done..|].
  - intros fuel' Hle. by eapply Search.solve_mono.
  - intros p' s' Hp' Hrep' Hc'.
    destruct (Search.solve_finds m s0 Hs0 p' s' Hp' Hrep' Hc')
      as (fuel' & q' & Hq' & Hlen).
    by pose proof (Search.solve_det m s0 _ _ _ _ Hq Hq') as [= ->].
Qed.

Lemma solve_returns_shortest_witness :
  ∃ fuel q w,
    (∀ fuel', fuel ≤ fuel' → solve mapF fuel' stateF = Some (Some q))
    ∧ replay mapF q stateF = Some w ∧ isComplete mapF w = true
    ∧ ∀ p' s', p' ≠ EmptyString → replay mapF p' stateF = Some s' →
               isComplete mapF s' = true → String.length q ≤ String.length p'.
Proof.
  apply (solve_returns_shortest levelF mapF stateF "D"
           {| player := (1, 0)%Z; boxes := [(2, 0)%Z];
              boxSet := {[ "2,0" ]} |}).
  - vm_compute. reflexivity.
  - discriminate.
  - vm_compute. reflexivity.
  - vm_compute. reflexivity.
Defined.

(** C1, as stated, fails on [levelD]: the empty sequence of moves leads to
    a complete state, the initial one, and [solve] returns no string. *)
Lemma solve_shortest_counterexample :
  Parser.parseSokoban levelD = Some (mapD, stateD)
  ∧ ¬ (∀ p s, replay mapD p stateD = Some s → isComplete mapD s = true →
        ∃ fuel q w,
          solve mapD fuel stateD = Some (Some q)
          ∧ replay mapD q stateD = Some w ∧ isComplete mapD w = true
          ∧ ∀ p' s', replay mapD p' stateD = Some s' →
                     isComplete mapD s' = true →
                     String.length q ≤ String.length p').
Proof.
  split; [apply parse_levelD|]. intros Hclaim.
  destruct (Hclaim EmptyString stateD eq_refl eq_refl)
    as (fuel & q & _ & Hq & _).
  destruct fuel as [|fuel]; [done|].
  rewrite FirstMove.solve_bare in Hq by done. by vm_compute in Hq.
Qed.

(** C6, as amended. For every map and canonical initial state [solve]
    returns, and it returns [null] if and only if no complete state is
    reached from the initial state by one or more moves accepted by
    [nextState]. *)
Theorem solve_null_iff (m : SokobanMap) (s0 : SokobanState) :
  canonical s0 →
  (∃ fuel r, ∀ fuel', fuel ≤ fuel' → solve m fuel' s0 = Some r)
  ∧ ((∃ fuel, solve m fuel s0 = Some None) ↔
     ¬ ∃ p s, p ≠ EmptyString ∧ replay m p s0 = Some s
              ∧ isComplete m s = true).
Proof.
  intros Hs0. destruct (Search.solve_terminates m s0 Hs0) as (fuel & r & Hr).
  split; [by eauto|]. split.
  - intros [fuel' Hnull] (p & s & Hp & Hrep & Hc).
    destruct (Search.solve_finds m s0 Hs0 p s Hp Hrep Hc) as (fuel'' & q & Hq & _).
    by pose proof (Search.solve_det m s0 _ _ _ _ Hnull Hq).
  - intros Hnone. exists fuel. rewrite (Hr fuel) by done.
    destruct r as [q|]; [|done]. exfalso. apply Hnone.
    destruct (Search.solve_sound m s0 Hs0 fuel q) as (Hq & w & Hw & Hc);
      [by apply Hr|].
    by exists q, w.
Qed.

Lemma solve_null_iff_witness :
  canonical stateE
  ∧ (∃ fuel r, ∀ fuel', fuel ≤ fuel' → solve mapE fuel' stateE = Some r)
  ∧ ((∃ fuel, solve mapE fuel stateE = Some None) ↔
     ¬ ∃ p s, p ≠ EmptyString ∧ replay mapE p stateE = Some s
              ∧ isComplete mapE s = true).
Proof.
  assert (canonical stateE) as Hcan.
  { apply (bool_decide_unpack _). vm_compute. exact I. }
  split; [exact Hcan|]. exact (solve_null_iff mapE stateE Hcan).
Defined.

(** C6, as stated, fails on [levelE]: [solve] returns [null] although a
    complete state, the initial one, is reached by the empty sequence of
    transitions. *)
Lemma solve_null_counterexample :
  Parser.parseSokoban levelE = Some (mapE, stateE)
  ∧ ¬ ((∃ fuel, solve mapE fuel stateE = Some None) ↔
       ¬ ∃ p s, replay mapE p stateE = Some s ∧ isComplete mapE s = true).
Proof.
  split; [apply parse_levelE|]. intros [Hnull _]. apply Hnull.
  - exists 1. by vm_compute.
  - by exists EmptyString, stateE.
Qed.

(** C5. The rows of the input are its lines, trimmed, the blank ones
    dropped; every text has them. [parseSokoban] returns [null] if and
    only if there is no row, or a row differs in length from the first, or
    a symbol is outside the vocabulary, or no cell holds the player, or a
    box or a goal is not connected to the player by a path of neighbouring
    cells that are no walls; on success the map and the state are the
    ones read off the rows, with the box list ascending by [y] then
    [x]. *)
Theorem parseSokoban_null_iff (input : string) :
  (∃ rows, Text.rows input rows)
  ∧ ∀ rows, Text.rows input rows →
      (Parser.parseSokoban input = None ↔ Grid.rejected rows)
      ∧ ∀ m s, Parser.parseSokoban input = Some (m, s) →
               Grid.accepted rows m s ∧ StronglySorted yxLe (boxes s).
Proof.
  split; [exists (Parser.rowsOf input); apply TextFacts.rowsOf_rows|].
  intros rows Hrows.
  rewrite (TextFacts.rows_unique _ _ _ Hrows (TextFacts.rowsOf_rows input)).
  pose proof (ParserFacts.parse_spec input) as Hspec. split.
  - destruct (Parser.parseSokoban input) as [[m s]|]; [|done].
    destruct Hspec as [_ Hnot]. split; [done|]. by intros ?%Hnot.
  - intros m s Hparse. rewrite Hparse in Hspec. destruct Hspec as [Hacc _].
    split; [done|]. apply Hacc.
Qed.

Lemma parseSokoban_null_iff_witness :
  Text.rows textL ["wb+"]
  ∧ Grid.accepted ["wb+"] mapL stateL
  ∧ StronglySorted yxLe (boxes stateL).
Proof.
  assert (Text.rows textL ["wb+"]) as Hrows.
  { exists [" wb+ " +:+ String Parser.CR EmptyString; EmptyString; " "],
           ["wb+"; EmptyString; EmptyString].
    split_and!.
    - split_and!; [done|vm_compute; reflexivity|].
      repeat apply Forall_cons_2; [..|apply Forall_nil_2];
        apply (bool_decide_unpack _); vm_compute; exact I.
    - repeat apply Forall2_cons_2; [..|apply Forall2_nil_2].
      + split_and!.
        * exists " ", (" " +:+ String Parser.CR EmptyString).
          split_and!; [vm_compute; reflexivity|..];
            apply (bool_decide_unpack _); vm_compute; exact I.
        * intros c r [= <- _]. apply (bool_decide_unpack _). vm_compute.
          exact I.
        * intros [|? [|? [|? [|? ?]]]] c; try discriminate.
          intros [= _ _ <-]. apply (bool_decide_unpack _). vm_compute.
          exact I.
      + split_and!; [|by intros ? ? [=]|by intros [|? ?] ? [=]].
        exists EmptyString, EmptyString. split_and!; [done|constructor..].
      + split_and!; [|by intros ? ? [=]|by intros [|? ?] ? [=]].
        exists " ", EmptyString. split_and!; [done| |constructor].
        apply (bool_decide_unpack _). vm_compute. exact I.
    - vm_compute. reflexivity. }
  split; [exact Hrows|].
  apply (proj2 (proj2 (parseSokoban_null_iff textL) ["wb+"] Hrows)
           mapL stateL).
  vm_compute. reflexivity.
Defined.

(** C10. [nextState] writes to no object of the store it is called in: the
    state it is given, its array of boxes and its box set are the same
    objects with the same contents after the call, and a state it returns
    is a new object, which stands for the result of the transition. *)
Theorem nextState_leaves_input_unchanged (m : SokobanMap)
    (h : gmap positive Store.obj) (state : positive) (d : Point)
    (s : SokobanState) :
  Store.view h state = Some s →
  ∃ res h',
    Store.nextState m state d h = Some (res, h')
    ∧ Store.unchanged h h'
    ∧ Store.view h' state = Some s
    ∧ match res with
      | Some r => (r ∉ dom h) ∧ Store.view h' r = nextState m s d
      | None => nextState m s d = None
      end.
Proof.
  intros Hview.
  destruct (StoreFacts.nextState_frame m h state d s Hview)
    as (res & h' & Hrun & Hun & Hres).
  exists res, h'. split_and!; [done..| |done].
  by eapply StoreFacts.unchanged_view.
Qed.

Lemma nextState_leaves_input_unchanged_witness :
  ∃ res h',
    Store.nextState mapC 1%positive (1, 0)%Z storeC = Some (res, h')
    ∧ Store.unchanged storeC h'
    ∧ Store.view h' 1%positive = Some stateC
    ∧ match res with
      | Some r => (r ∉ dom storeC)
                  ∧ Store.view h' r = nextState mapC stateC (1, 0)%Z
      | None => nextState mapC stateC (1, 0)%Z = None
      end.
Proof.
  apply (nextState_leaves_input_unchanged mapC storeC 1%positive (1, 0)%Z
           stateC).
  vm_compute. reflexivity.
Defined.

(** * Further properties of the code *)

Import Board Pruning Text Report.

(** ** The parser *)

(** X1. A successful parse returns a well-formed state on its map: the
    player inside the grid, off the walls and off the boxes; the boxes
    pairwise distinct, off the walls, sorted and mirrored by the box set.
    Every box, goal and wall lies inside the grid and no goal is a wall. *)
Theorem parseSokoban_wellFormed (input : string) (m : SokobanMap)
    (s : SokobanState) :
  Parser.parseSokoban input = Some (m, s) →
  wellFormed m s
  ∧ (∀ b, b ∈ boxes s → inBounds m b)
  ∧ (∀ p, key p ∈ goalSet m → inBounds m p ∧ (key p ∉ wallSet m))
  ∧ (∀ p, key p ∈ wallSet m → inBounds m p).
Proof. apply ParseInvariants.parse_wellFormed. Qed.

Lemma parseSokoban_wellFormed_witness :
  wellFormed mapC stateC
  ∧ (∀ b, b ∈ boxes stateC → inBounds mapC b)
  ∧ (∀ p, key p ∈ goalSet mapC → inBounds mapC p ∧ (key p ∉ wallSet mapC))
  ∧ (∀ p, key p ∈ wallSet mapC → inBounds mapC p).
Proof.
  apply (parseSokoban_wellFormed levelC mapC stateC).
  vm_compute. reflexivity.
Defined.

(** X2. The parser reads Windows line endings like Unix ones: putting a
    carriage return before every line feed of the input changes nothing
    to the result. *)
Theorem parseSokoban_crlf (input : string) :
  Parser.parseSokoban (crlf input) = Parser.parseSokoban input.
Proof.
  unfold Parser.parseSokoban, Parser.rowsOf.
  by rewrite SerialFacts.splitLines_crlf.
Qed.

(** X3. The flood fill of the parser, started inside the grid on the
    array of [false], returns with the fuel [height * width + 1] (the
    recursion is never deeper than the grid has cells) and marks exactly
    the cells connected to the start by neighbouring cells that are no
    walls. *)
Theorem floodFill_marks_connected (wallSet : gset string)
    (width height : nat) (c0 : Grid.Cell) :
  c0.1 < width → c0.2 < height →
  ∃ r, Parser.floodFill (S (height * width)) wallSet width height c0.1 c0.2
         (replicate height (replicate width false)) = Some r
       ∧ length r = height ∧ Forall (λ row, length row = width) r
       ∧ ∀ a, Parser.cell r a.1 a.2 = Some true
              ↔ Grid.connected
                  (λ c, c.1 < width ∧ c.2 < height
                        ∧ (key (Parser.pt c.1 c.2) ∉ wallSet)) c0 a.
Proof.
  intros Hx Hy.
  destruct (FloodFacts.floodFill_reach wallSet width height c0 Hx Hy)
    as (r & Hr & [Hlen Hrows] & Hmark).
  exists r. split_and!; [done..|]. intros a. apply Hmark.
Qed.

Lemma floodFill_marks_connected_witness :
  ∃ r, Parser.floodFill 3 {[ "1,0" ]} 2 1 0 0 [[false; false]] = Some r
       ∧ length r = 1 ∧ Forall (λ row, length row = 2) r
       ∧ ∀ a, Parser.cell r a.1 a.2 = Some true
              ↔ Grid.connected
                  (λ c, c.1 < 2 ∧ c.2 < 1
                        ∧ (key (Parser.pt c.1 c.2) ∉@{gset string}
                             {[ "1,0" ]})) (0, 0) a.
Proof.
  apply (floodFill_marks_connected {[ "1,0" ]} 2 1 (0, 0)); simpl; lia.
Defined.

(** ** The serialisation *)

(** X4. Two states have the same serialisation exactly when they have the
    same player and the same array of boxes, in the same order: the key of
    the visited index determines both, and the box set is no part of
    it. *)
Theorem serialize_determines (s s' : SokobanState) :
  serialize s = serialize s' ↔ player s = player s' ∧ boxes s = boxes s'.
Proof. apply SerialFacts.serialize_eq. Qed.

(** X5. Every state [deserialize] returns is in canonical form, boxes
    sorted and box set built from them, and serialising it again gives a
    string that deserialises to the same state. *)
Theorem deserialize_canonical_state (k : string) (s : SokobanState) :
  deserialize k = Some s →
  canonical s ∧ deserialize (serialize s) = Some s.
Proof.
  intros Hs%SerialFacts.deserialize_canon. split; [done|].
  by apply EngineFacts.deserialize_canonical.
Qed.

Lemma deserialize_canonical_state_witness :
  canonical {| player := (1, 1)%Z; boxes := [(3, 1); (2, 2)]%Z;
               boxSet := {[ "3,1"; "2,2" ]} |}
  ∧ deserialize (serialize {| player := (1, 1)%Z;
                              boxes := [(3, 1); (2, 2)]%Z;
                              boxSet := {[ "3,1"; "2,2" ]} |})
    = Some {| player := (1, 1)%Z; boxes := [(3, 1); (2, 2)]%Z;
              boxSet := {[ "3,1"; "2,2" ]} |}.
Proof.
  apply (deserialize_canonical_state "1,1/2,2/3,1").
  vm_compute. reflexivity.
Defined.

(** ** The deadlock check of [src/lib.ts] *)

(** X6. What [isInvalid] of [src/lib.ts] computes: it returns [true]
    exactly when some window of the grid has its four cells blocked, each
    a wall or a box, and a box off the goals stands in its top-left
    cell, in the cell of column 1 of its upper row, in its bottom-left
    cell or in its bottom-right cell. *)
Theorem isInvalid_computes (m : SokobanMap) (s : SokobanState) :
  isInvalid m s = true
  ↔ ∃ x y, Deadlock.frozen m s x y
           ∧ (DeadlockFacts.offGoal m s (x - 1, y - 1)%Z
              ∨ DeadlockFacts.offGoal m s (1, y - 1)%Z
              ∨ DeadlockFacts.offGoal m s (x - 1, y)%Z
              ∨ DeadlockFacts.offGoal m s (x, y)%Z).
Proof. apply DeadlockFacts.isInvalid_true. Qed.

(** X7. [isInvalid] never flags a complete state: where the box set
    mirrors the box array and every box is on a goal, it returns
    [false]. *)
Theorem isInvalid_spares_complete (m : SokobanMap) (s : SokobanState) :
  boxSet s = list_to_set (key <$> boxes s) → isComplete m s = true →
  isInvalid m s = false.
Proof.
  intros Hset Hc. apply isInvalid_on_goals.
  by apply EngineFacts.isComplete_goals.
Qed.

Lemma isInvalid_spares_complete_witness : isInvalid mapE stateE = false.
Proof.
  apply (isInvalid_spares_complete mapE stateE); vm_compute; reflexivity.
Defined.

(** ** The transition function of [src/lib.ts] *)

(** X8. [nextState] keeps a state well formed and keeps the number of
    boxes: from a well-formed state, in any of the four directions, the
    state it returns has the player inside the grid, off the walls and
    off the boxes, the boxes pairwise distinct and off the walls, sorted
    and mirrored by the box set, as many as before. *)
Theorem nextState_keeps_wellFormed (m : SokobanMap) (s : SokobanState)
    (d : Point) (w : SokobanState) :
  wellFormed m s → d ∈ directions → nextState m s d = Some w →
  wellFormed m w ∧ length (boxes w) = length (boxes s).
Proof. exact (BoardFacts.nextState_wellFormed (Engine.lib m) s d w). Qed.

Lemma nextState_keeps_wellFormed_witness :
  wellFormed mapC {| player := (2, 1)%Z; boxes := [(3, 1)%Z];
                     boxSet := {[ "3,1" ]} |}
  ∧ length [(3, 1)%Z] = length (boxes stateC).
Proof.
  apply (nextState_keeps_wellFormed mapC stateC (1, 0)%Z).
  - apply (ParseInvariants.parse_wellFormed levelC). vm_compute. reflexivity.
  - unfold directions. rewrite !elem_of_cons. tauto.
  - vm_compute. reflexivity.
Defined.

(** X9. The landing cell of a push is not checked against the bounds of
    the grid: when the target cell is inside the grid and holds a box,
    [nextState] accepts the push as soon as the cell behind the box is
    neither a wall nor a box, and the box lands there, whether or not
    that cell is inside the grid. *)
Theorem nextState_push_lands (m : SokobanMap) (s : SokobanState)
    (d : Point) :
  inBounds m (shift (player s) d) →
  key (shift (player s) d) ∉ wallSet m →
  key (shift (player s) d) ∈ boxSet s →
  key (shift (shift (player s) d) d) ∉ wallSet m →
  key (shift (shift (player s) d) d) ∉ boxSet s →
  ∃ w, nextState m s d = Some w
       ∧ player w = shift (player s) d
       ∧ shift (shift (player s) d) d ∈ boxes w.
Proof.
  intros Hin Hwall Hbox Hlw Hlb. unfold nextState, has, shift, inBounds in *.
  simpl in *. rewrite bool_decide_false by lia.
  rewrite (bool_decide_false _ Hwall), (bool_decide_true _ Hbox).
  rewrite (bool_decide_false _ Hlw), (bool_decide_false _ Hlb).
  eexists. split; [done|]. split; [done|]. simpl.
  apply sortPoints_elem, elem_of_app. right. by apply list_elem_of_singleton.
Qed.

Lemma nextState_push_lands_witness :
  ¬ inBounds mapJ (2, 0)%Z
  ∧ ∃ w, nextState mapJ stateJ (1, 0)%Z = Some w
         ∧ player w = (1, 0)%Z ∧ (2, 0)%Z ∈ boxes w.
Proof.
  split; [unfold inBounds; simpl; lia|].
  apply (nextState_push_lands mapJ stateJ (1, 0)%Z).
  - unfold inBounds. simpl. lia.
  - apply (bool_decide_unpack _). by vm_compute.
  - apply (bool_decide_unpack _). by vm_compute.
  - apply (bool_decide_unpack _). by vm_compute.
  - apply (bool_decide_unpack _). by vm_compute.
Defined.

(** X10. A plain step is undone by the step back: when the player stands
    inside the grid, off the walls and off the boxes, and moves onto a
    cell that holds no box, [nextState] in the opposite direction returns
    the state it started from. *)
Theorem nextState_step_back (m : SokobanMap) (s : SokobanState)
    (d : Point) (w : SokobanState) :
  inBounds m (player s) → key (player s) ∉ wallSet m →
  key (player s) ∉ boxSet s → key (shift (player s) d) ∉ boxSet s →
  nextState m s d = Some w → nextState m w (opposite d) = Some s.
Proof.
  exact (BoardFacts.nextState_back (Engine.lib m) (isInvalid_boxSet m) s d w).
Qed.

Lemma nextState_step_back_witness :
  nextState mapG {| player := (1, 0)%Z; boxes := []; boxSet := ∅ |}
    (opposite (1, 0)%Z) = Some stateG.
Proof.
  apply (nextState_step_back mapG stateG (1, 0)%Z).
  - unfold inBounds. simpl. lia.
  - apply (bool_decide_unpack _). by vm_compute.
  - apply (bool_decide_unpack _). by vm_compute.
  - apply (bool_decide_unpack _). by vm_compute.
  - vm_compute. reflexivity.
Defined.

(** ** [solve] of [src/lib.ts] *)

(** X11. The path [solve] returns for a parsed level is a solution of the
    game and a legal walk: its characters are move codes, its moves, taken
    as moves of the game, lead to a complete state, and every beginning of
    it replays, through [nextState] and as moves of the game alike, to a
    well-formed state with as many boxes as the level has. *)
Theorem solve_path_legal (input : string) (m : SokobanMap)
    (s0 : SokobanState) (fuel : nat) (q : string) :
  Parser.parseSokoban input = Some (m, s0) →
  solve m fuel s0 = Some (Some q) →
  codes q
  ∧ (∃ w, rawReplay m q s0 = Some w ∧ isComplete m w = true)
  ∧ ∀ q1, beginning q1 q →
      ∃ s1, replay m q1 s0 = Some s1 ∧ rawReplay m q1 s0 = Some s1
            ∧ wellFormed m s1 ∧ length (boxes s1) = length (boxes s0).
Proof.
  intros [Hwf _]%ParseInvariants.parse_wellFormed.
  exact (BoardFacts.search_safe (Engine.lib m) s0 Hwf fuel q).
Qed.

Lemma solve_path_legal_witness :
  codes "D"
  ∧ (∃ w, rawReplay mapF "D" stateF = Some w ∧ isComplete mapF w = true)
  ∧ ∀ q1, beginning q1 "D" →
      ∃ s1, replay mapF q1 stateF = Some s1
            ∧ rawReplay mapF q1 stateF = Some s1
            ∧ wellFormed mapF s1
            ∧ length (boxes s1) = length (boxes stateF).
Proof.
  apply (solve_path_legal levelF mapF stateF 1 "D"); vm_compute; reflexivity.
Defined.

(** X12. A level with more boxes than goals has no solution, and [solve]
    says so: for a parsed level whose boxes outnumber the goals, it
    returns [null]. *)
Theorem solve_more_boxes_than_goals (input : string) (m : SokobanMap)
    (s0 : SokobanState) :
  Parser.parseSokoban input = Some (m, s0) →
  size (goalSet m) < length (boxes s0) →
  ∃ fuel, ∀ fuel', fuel ≤ fuel' → solve m fuel' s0 = Some None.
Proof.
  intros [Hwf _]%ParseInvariants.parse_wellFormed.
  exact (BoardFacts.search_overfull (Engine.lib m) s0 Hwf).
Qed.

Lemma solve_more_boxes_than_goals_witness :
  ∃ fuel, ∀ fuel', fuel ≤ fuel' → solve mapK fuel' stateK = Some None.
Proof.
  apply (solve_more_boxes_than_goals levelK mapK stateK).
  - vm_compute. reflexivity.
  - vm_compute. lia.
Defined.

(** X13. The hooks only observe. From a canonical initial state [solve]
    returns, and whatever the two hooks are it returns what it returns
    without them and calls them along one trace: [onDistance] with 0, 1,
    2, ... in order, once at the head of each turn of the loop; in the
    turn of distance [d], [onStep] with at least one state, each canonical
    and reached from the initial state by [d] moves; and [onStep] never
    twice with the same state. A returned path has as many moves as the
    loop took turns. *)
Theorem solve_hooks_observe (m : SokobanMap) (s0 : SokobanState) :
  canonical s0 →
  ∃ (fuel : nat) (r : option string) (tr : list (Z * list SokobanState)),
    tr ≠ []
    ∧ tr.*1 = seqZ 0 (Z.of_nat (length tr))
    ∧ Forall (λ l, l.2 ≠ []
                   ∧ ∀ s, s ∈ l.2 →
                       canonical s
                       ∧ ∃ q, replay m q s0 = Some s
                              ∧ Z.of_nat (String.length q) = l.1) tr
    ∧ NoDup (concat tr.*2)
    ∧ (∀ p, r = Some p → String.length p = length tr)
    ∧ ∀ fuel', fuel ≤ fuel' →
        solve m fuel' s0 = Some r
        ∧ ∀ W onStep onDistance (w : W),
            Lib.solve m onStep onDistance fuel' s0 w
            = Some (r, Trace.play W onStep onDistance tr w).
Proof.
  intros Hs0.
  destruct (LoopFacts.solve_run (Engine.lib m) s0 Hs0)
    as (fuel & r & tr & (Hdist & Hall & Hnd & Hlen) & Hne & Hrun).
  exists fuel, r, tr. split_and!; [done..|].
  intros fuel' Hle. destruct (Hrun fuel' Hle) as [Hr Hplay].
  split; [exact Hr|]. intros W onStep onDistance w. apply Hplay.
Qed.

Lemma solve_hooks_observe_witness :
  ∃ (fuel : nat) (r : option string) (tr : list (Z * list SokobanState)),
    tr ≠ []
    ∧ tr.*1 = seqZ 0 (Z.of_nat (length tr))
    ∧ Forall (λ l, l.2 ≠ []
                   ∧ ∀ s, s ∈ l.2 →
                       canonical s
                       ∧ ∃ q, replay mapF q stateF = Some s
                              ∧ Z.of_nat (String.length q) = l.1) tr
    ∧ NoDup (concat tr.*2)
    ∧ (∀ p, r = Some p → String.length p = length tr)
    ∧ ∀ fuel', fuel ≤ fuel' →
        solve mapF fuel' stateF = Some r
        ∧ ∀ W onStep onDistance (w : W),
            Lib.solve mapF onStep onDistance fuel' stateF w
            = Some (r, Trace.play W onStep onDistance tr w).
Proof.
  apply (solve_hooks_observe mapF stateF).
  apply (bool_decide_unpack _). vm_compute. exact I.
Defined.

(** ** The variant of [src/main.ts] *)

(** X14. The serialisation of the variant round-trips: [deserializePoint]
    reads back the point [serializePoint] printed, and [deserializeState]
    after [serializeState] gives the state in canonical form, same player,
    boxes sorted, box set rebuilt. *)
Theorem variant_serialisation_roundtrip :
  (∀ p, VariantSolver.deserializePoint (Variant.serializePoint p) = Some p)
  ∧ ∀ s, VariantSolver.deserializeState (VariantSolver.serializeState s)
         = Some (canon s).
Proof. split; [apply deserializePoint_key|apply deserialize_serialize]. Qed.

(** X15. What [isInvalid] of the variant computes: it returns [true]
    exactly when some window of the grid holds a box off the goals that is
    frozen in it, the four cells of the window each a wall or a box, or
    cornered in it, the two cells of the window beside the box both
    walls. *)
Theorem variant_isInvalid_computes (m : SokobanMap) (s : SokobanState) :
  Variant.isInvalid m s = true ↔ stuck m s.
Proof. apply VariantFacts.variant_flags. Qed.

(** X16. The deadlock check of the variant never flags a solvable state:
    where the box set mirrors the box array and the player stands neither
    on a wall nor on a box, a state it flags is dead, no sequence of moves
    of the game leads from it to a complete state. *)
Theorem variant_isInvalid_sound (m : SokobanMap) (s : SokobanState) :
  boxSet s = list_to_set (key <$> boxes s) →
  key (player s) ∉ wallSet m → key (player s) ∉ boxSet s →
  Variant.isInvalid m s = true → dead m s.
Proof.
  intros Hset Hwall Hbox. apply VariantFacts.variant_sound.
  by split_and!.
Qed.

Lemma variant_isInvalid_sound_witness : dead mapH stateH.
Proof.
  apply (variant_isInvalid_sound mapH stateH).
  - vm_compute. reflexivity.
  - apply (bool_decide_unpack _). by vm_compute.
  - apply (bool_decide_unpack _). by vm_compute.
  - vm_compute. reflexivity.
Defined.

(** X17. [solve] of the variant solves the game: for a parsed level that
    some sequence of one or more moves of the game completes, it returns,
    whatever the hooks, a move string that completes the level, and no
    sequence of one or more moves that completes it is shorter. The
    pruning loses no solution. *)
Theorem variant_solve_shortest (input : string) (m : SokobanMap)
    (s0 : SokobanState) (p : string) (w : SokobanState) :
  Parser.parseSokoban input = Some (m, s0) →
  p ≠ EmptyString → rawReplay m p s0 = Some w → isComplete m w = true →
  ∃ fuel q w',
    (∀ fuel' W onStep onDistance (w0 : W), fuel ≤ fuel' →
       fst <$> VariantSolver.solve m onStep onDistance fuel' s0 w0
       = Some (Some q))
    ∧ rawReplay m q s0 = Some w' ∧ isComplete m w' = true
    ∧ ∀ p' s', p' ≠ EmptyString → rawReplay m p' s0 = Some s' →
               isComplete m s' = true → String.length q ≤ String.length p'.
Proof.
  intros [Hwf _]%ParseInvariants.parse_wellFormed Hp Hw Hc.
  destruct (CompleteFacts.pruned_finds (Engine.variant m)
              (VariantFacts.variant_on_goals m)
              (VariantFacts.variant_sound m) s0 Hwf p w Hp Hw Hc)
    as (fuel & q & w' & Hrun & Hw' & Hc' & Hmin).
  exists fuel, q, w'. split_and!; [|done..].
  intros fuel' W onStep onDistance w0 Hle.
  rewrite <-(Hrun fuel' Hle). apply LoopFacts.variant_solve_fst.
Qed.

Lemma variant_solve_shortest_witness :
  ∃ fuel q w',
    (∀ fuel' W onStep onDistance (w0 : W), fuel ≤ fuel' →
       fst <$> VariantSolver.solve mapB onStep onDistance fuel' stateB w0
       = Some (Some q))
    ∧ rawReplay mapB q stateB = Some w' ∧ isComplete mapB w' = true
    ∧ ∀ p' s', p' ≠ EmptyString → rawReplay mapB p' stateB = Some s' →
               isComplete mapB s' = true →
               String.length q ≤ String.length p'.
Proof.
  apply (variant_solve_shortest levelB mapB stateB "DS"
           {| player := (1, 1)%Z; boxes := [(1, 2)%Z];
              boxSet := {[ "1,2" ]} |}).
  - vm_compute. reflexivity.
  - discriminate.
  - vm_compute. reflexivity.
  - vm_compute. reflexivity.
Defined.

(** X18. [solve] of the variant returns [null], whatever the hooks,
    exactly when no sequence of one or more moves of the game completes
    the parsed level. *)
Theorem variant_solve_null_iff (input : string) (m : SokobanMap)
    (s0 : SokobanState) :
  Parser.parseSokoban input = Some (m, s0) →
  (∃ fuel, ∀ fuel' W onStep onDistance (w0 : W), fuel ≤ fuel' →
     fst <$> VariantSolver.solve m onStep onDistance fuel' s0 w0 = Some None)
  ↔ ¬ ∃ p w, p ≠ EmptyString ∧ rawReplay m p s0 = Some w
             ∧ isComplete m w = true.
Proof.
  intros [Hwf _]%ParseInvariants.parse_wellFormed.
  rewrite <-(CompleteFacts.pruned_null (Engine.variant m)
               (VariantFacts.variant_on_goals m)
               (VariantFacts.variant_sound m) s0 Hwf).
  split; intros [fuel Hnull]; exists fuel.
  - intros fuel' Hle.
    rewrite <-(Hnull fuel' unit None None () Hle). symmetry.
    apply LoopFacts.variant_solve_fst.
  - intros fuel' W onStep onDistance w0 Hle. rewrite <-(Hnull fuel' Hle).
    apply LoopFacts.variant_solve_fst.
Qed.

Lemma variant_solve_null_iff_witness :
  (∃ fuel, ∀ fuel' W onStep onDistance (w0 : W), fuel ≤ fuel' →
     fst <$> VariantSolver.solve mapC onStep onDistance fuel' stateC w0
     = Some None)
  ↔ ¬ ∃ p w, p ≠ EmptyString ∧ rawReplay mapC p stateC = Some w
             ∧ isComplete mapC w = true.
Proof.
  apply (variant_solve_null_iff levelC mapC stateC).
  vm_compute. reflexivity.
Defined.

(** X19. The variant is at least as good as [src/lib.ts]: whenever [solve]
    of [src/lib.ts] returns a path for a parsed level, [solve] of the
    variant returns one too, whatever the hooks, and it is no longer. *)
Theorem variant_no_longer_than_lib (input : string) (m : SokobanMap)
    (s0 : SokobanState) (fuel : nat) (q : string) :
  Parser.parseSokoban input = Some (m, s0) →
  solve m fuel s0 = Some (Some q) →
  ∃ fuel' q',
    (∀ W onStep onDistance (w0 : W),
       fst <$> VariantSolver.solve m onStep onDistance fuel' s0 w0
       = Some (Some q'))
    ∧ String.length q' ≤ String.length q.
Proof.
  intros [Hwf _]%ParseInvariants.parse_wellFormed Hq.
  destruct (Search.solve_sound m s0 (b_canonical _ _ Hwf) fuel q Hq)
    as (Hne & w & Hw & Hc).
  apply (BoardFacts.replay_rawReplay (Engine.lib m)) in Hw.
  destruct (CompleteFacts.pruned_finds (Engine.variant m)
              (VariantFacts.variant_on_goals m)
              (VariantFacts.variant_sound m) s0 Hwf q w Hne Hw Hc)
    as (fuel' & q' & w' & Hrun & _ & _ & Hmin).
  exists fuel', q'. split; [|by eapply Hmin].
  intros W onStep onDistance w0. rewrite <-(Hrun fuel') by done.
  apply LoopFacts.variant_solve_fst.
Qed.

Lemma variant_no_longer_than_lib_witness :
  ∃ fuel' q',
    (∀ W onStep onDistance (w0 : W),
       fst <$> VariantSolver.solve mapF onStep onDistance fuel' stateF w0
       = Some (Some q'))
    ∧ String.length q' ≤ String.length "D".
Proof.
  apply (variant_no_longer_than_lib levelF mapF stateF 1 "D");
    vm_compute; reflexivity.
Defined.

(** ** The command-line programs *)

(** X20. What [main] of [part_000] prints, with [src/lib.ts] as its
    library: it always ends. On an input the parser rejects: the one line
    [Could not parse input] on the error stream, exit code 1. On a level
    [solve] solves by the path [p]: the lines [wait: 0] to [wait: n - 1],
    [n] the number of moves of [p], then [p], exit code 0. On a level
    [solve] gives up on: one or more lines [wait: 0], [wait: 1], ... and
    [Could not solve] on the error stream, exit code 1. *)
Theorem part000_main_prints (input : string) :
  ∃ fuel out,
    (∀ fuel', fuel ≤ fuel' →
       Part000.main Console.lib fuel' input = Some out)
    ∧ match Parser.parseSokoban input with
      | None => out = ([Console.Error "Could not parse input"], 1%Z)
      | Some (m, s0) =>
          ∃ r, solve m fuel s0 = Some r
               ∧ match r with
                 | Some p =>
                     out = (waitLines (String.length p) ++ [Console.Log p],
                            0%Z)
                 | None =>
                     ∃ n, 1 ≤ n
                          ∧ out = (waitLines n
                                   ++ [Console.Error "Could not solve"], 1%Z)
                 end
      end.
Proof.
  unfold Part000.main. simpl.
  destruct (Parser.parseSokoban input) as [[m s0]|] eqn:Hparse;
    [|by exists 0, ([Console.Error "Could not parse input"], 1%Z)].
  pose proof (ParserFacts.parse_canonical _ _ _ Hparse) as Hs0.
  destruct (LoopFacts.solve_run (Engine.lib m) s0 Hs0)
    as (fuel & r & tr & (Hdist & _ & _ & Hlen) & Hne & Hrun).
  assert (1 ≤ length tr) as Htr by (destruct tr; [done|simpl; lia]).
  exists fuel,
    (match r with
     | Some p => (waitLines (String.length p) ++ [Console.Log p], 0%Z)
     | None => (waitLines (length tr) ++ [Console.Error "Could not solve"],
                1%Z)
     end).
  split.
  - intros fuel' Hle. destruct (Hrun fuel' Hle) as [_ Hplay].
    unfold Lib.solve. rewrite Hplay. simpl.
    rewrite MainFacts.play_wait, Hdist. simpl.
    destruct r as [p|]; simpl; [|done].
    rewrite (Hlen p eq_refl).
    destruct p as [|c p]; [|done].
    specialize (Hlen _ eq_refl). simpl in Hlen. lia.
  - exists r. split; [by apply (Hrun fuel)|].
    destruct r as [p|]; [done|]. by exists (length tr).
Qed.

(** X21. What [main] of [src/main.ts] prints, with [src/lib.ts] as its
    library: it always ends. On an input the parser rejects: [Could not
    parse input] on the error stream, exit code 1. Otherwise one line
    [wait: d (t tried)] for each turn of the search, [d] counting the
    turns from 0 and [t] the states expanded before the turn, at least one
    more with each turn; then the total [t tried.]; then the path, which
    has as many moves as there are [wait] lines, with exit code 0, or
    [Could not solve] on the error stream with exit code 1. *)
Theorem main_prints (input : string) :
  ∃ fuel out,
    (∀ fuel', fuel ≤ fuel' → Main.main Console.lib fuel' input = Some out)
    ∧ match Parser.parseSokoban input with
      | None => out = ([Console.Error "Could not parse input"], 1%Z)
      | Some (m, s0) =>
          ∃ (r : option string) (sizes : list nat),
            solve m fuel s0 = Some r
            ∧ sizes ≠ [] ∧ Forall (λ n, 1 ≤ n) sizes
            ∧ (∀ p, r = Some p → String.length p = length sizes)
            ∧ out = (triedLines 0 0 sizes
                     ++ [Console.Log
                           (JS.numToString (Z.of_nat (sum_list sizes))
                            +:+ " tried.")]
                     ++ [match r with
                         | Some p => Console.Log p
                         | None => Console.Error "Could not solve"
                         end],
                     match r with Some _ => 0%Z | None => 1%Z end)
      end.
Proof.
  unfold Main.main. simpl.
  destruct (Parser.parseSokoban input) as [[m s0]|] eqn:Hparse;
    [|by exists 0, ([Console.Error "Could not parse input"], 1%Z)].
  pose proof (ParserFacts.parse_canonical _ _ _ Hparse) as Hs0.
  destruct (LoopFacts.solve_run (Engine.lib m) s0 Hs0)
    as (fuel & r & tr & (Hdist & Hall & _ & Hlen) & Hne & Hrun).
  exists fuel,
    (triedLines 0 0 (length <$> tr.*2)
     ++ [Console.Log
           (JS.numToString (Z.of_nat (sum_list (length <$> tr.*2)))
            +:+ " tried.")]
     ++ [match r with
         | Some p => Console.Log p
         | None => Console.Error "Could not solve"
         end],
     match r with Some _ => 0%Z | None => 1%Z end).
  split.
  - intros fuel' Hle. destruct (Hrun fuel' Hle) as [_ Hplay].
    unfold Lib.solve. rewrite Hplay. simpl.
    rewrite (MainFacts.play_tried tr 0 0 []) by done. simpl.
    destruct r as [p|]; simpl; [|by rewrite <-app_assoc].
    destruct p as [|c p]; [|by rewrite <-app_assoc].
    specialize (Hlen _ eq_refl). destruct tr; [done|]. simpl in Hlen. lia.
  - exists r, (length <$> tr.*2). split_and!.
    + by apply (Hrun fuel).
    + by destruct tr.
    + rewrite Forall_fmap, Forall_fmap. eapply Forall_impl; [exact Hall|].
      intros [d states] [Hstates _]. simpl in *. destruct states; [done|].
      simpl. lia.
    + intros p Hp. rewrite (Hlen p Hp). by rewrite !length_fmap.
    + done.
Qed.
